(** * git-auto-sync (sync-v3.js): conflict-safe bidirectional sync

    A shallow embedding of [sync-v3.js].  The JavaScript functions are
    asynchronous but strictly sequential (every call is awaited), so each
    one becomes a function in a state-and-exception monad over a [World]:
    the file system, the state of everything behind simple-git and the
    GitHub API, and the chronicle of commands issued.

    simple-git, [fetch], [path.join], the clock and the md5 digest are not
    part of the repository: they are the fields of the class [Host], and
    the general theorems hold for every host.  [Sim] is one scripted
    host, on which the program is run on explicit inputs. *)

From stdpp Require Import base option list gmap strings fin_maps pretty.
From Stdlib Require Import ZArith Ascii Lia.

Local Open Scope string_scope.
Local Open Scope Z_scope.

(** ** JavaScript string primitives used by the source *)

Module Js.

(** Code units are modelled as 8-bit characters: git quotes every other
    byte of a path in its output, and the host strings the claims talk
    about are ASCII. *)

(** White space removed by [String.prototype.trim], restricted to ASCII:
    TAB, LF, VT, FF, CR and SPACE. *)
Definition is_space (c : ascii) : bool :=
  let n := nat_of_ascii c in
  ((9 <=? n)%nat && (n <=? 13)%nat) || (n =? 32)%nat.

Fixpoint trimStart (s : string) : string :=
  match s with
  | String c s' => if is_space c then trimStart s' else s
  | EmptyString => EmptyString
  end.

Fixpoint trimEnd (s : string) : string :=
  match s with
  | EmptyString => EmptyString
  | String c s' =>
      match trimEnd s' with
      | EmptyString => if is_space c then EmptyString else String c EmptyString
      | t => String c t
      end
  end.

Definition trim (s : string) : string := trimEnd (trimStart s).

(** [s.split(sep)] for a one-character separator; [split sep ""] is
    [[""]] as in JavaScript. *)
Fixpoint split (sep : ascii) (s : string) : list string :=
  match s with
  | EmptyString => [EmptyString]
  | String c s' =>
      if Ascii.eqb c sep then EmptyString :: split sep s'
      else match split sep s' with
           | hd :: tl => String c hd :: tl
           | [] => [String c EmptyString]
           end
  end.

Definition lower (c : ascii) : ascii :=
  let n := nat_of_ascii c in
  if ((65 <=? n)%nat && (n <=? 90)%nat) then ascii_of_nat (n + 32) else c.

Fixpoint toLowerCase (s : string) : string :=
  match s with
  | EmptyString => EmptyString
  | String c s' => String (lower c) (toLowerCase s')
  end.

(** [s.startsWith(p)] *)
Definition startsWith (s p : string) : bool := String.prefix p s.

(** [arr.includes(x)] on an array of strings *)
Definition includes (arr : list string) (x : string) : bool :=
  existsb (String.eqb x) arr.

(** [s.replace(/[:.]/g, '-')] *)
Fixpoint dashColonsDots (s : string) : string :=
  match s with
  | EmptyString => EmptyString
  | String c s' =>
      String (if Ascii.eqb c ":" || Ascii.eqb c "." then "-"%char else c)
             (dashColonsDots s')
  end.

Fixpoint drop (n : nat) (s : string) : string :=
  match n, s with
  | S n', String _ s' => drop n' s'
  | _, _ => s
  end.

(** [s.replace(pat, rep)] with a string pattern: the first occurrence
    only.  ([rep] is a date here and holds no [$] pattern.) *)
Fixpoint replace (pat rep s : string) : string :=
  if String.prefix pat s then rep ++ drop (String.length pat) s
  else match s with
       | EmptyString => EmptyString
       | String c s' => String c (replace pat rep s')
       end.

(** What [path.join(dir, name)] gives on a POSIX system for a
    normalised [dir] without a trailing separator and a plain [name].
    This is the join of the scripted hosts only: the program calls the
    host's [path_join]. *)
Definition join (dir name : string) : string := dir ++ "/" ++ name.

Definition join_nonempty (dir name : string) : join dir name ≠ "".
Proof. by destruct dir. Qed.

End Js.

(** ** Data model *)

(** A file on disk: its bytes and [stat.mtimeMs]. *)
Record File := mkFile { content : string; mtimeMs : Z }.

(** simple-git's [StatusResult]: the fields the code reads. *)
Record FileStatus := mkFileStatus { fpath : string }.
Record StatusResult := mkStatus { current : string; sfiles : list FileStatus }.

(** simple-git's [PullResult] and [LogResult]. *)
Record PullSummary := mkPullSummary { pfiles : list string }.
Record LogResult := mkLog { total : nat }.

(** The simple-git methods the program calls. *)
Inductive GitCmd :=
| GStatus
| GFetch
| GDiff (args : list string)
| GStash (args : list string)
| GPull
| GAdd (file : string)
| GCommit (message : string)
| GPush
| GRevparse (args : list string)
| GLog
| GRaw (args : list string)
| GClone (url target : string).

(** What a method resolves to. *)
Inductive GitVal :=
| VUnit
| VStatus (s : StatusResult)
| VString (s : string)
| VPull (p : PullSummary)
| VLog (l : LogResult).

(** Outcome of an awaited call: a value, or a thrown [Error] carrying its
  [message]. *)
Inductive Res (A : Type) :=
| Ok (a : A)
| Throw (message : string).
Arguments Ok {A} a.
Arguments Throw {A} message.

(** The [Response] of a [fetch]: [response.ok], the status code with
    its text, and the body. *)
Record Response := mkResponse {
  resp_ok : bool;
  resp_status : string;
  resp_body : string
}.

(** What the machine did, newest first. *)
Inductive Event :=
| EGit (repo : string) (c : GitCmd) (ok : bool)
| ECopy (src dst : string) (ok : bool)
| EApi (method endpoint : string) (ok : bool)
| EProgress (cur tot : nat).

Section Machine.

(** [G] is the state behind the external collaborators: every git
    repository and its remote, the GitHub account, the clock. *)
Context {G : Type}.

Record Machine := mkMachine { fs : gmap string File; ext : G }.

Record World := mkWorld { mach : Machine; trace : list Event }.

(** The external collaborators.  A git command may change both the
    working tree (the file system) and the hidden state.  [path.join]
    depends on the platform (separator, normalisation), so it is the
    host's; Node documents that it never returns a zero-length string
    (["."] stands for it). *)
Class Host := {
  git_exec : string → GitCmd → Machine → Res GitVal * Machine;
  (* fetch(`https://api.github.com${endpoint}`, {method, headers}) *)
  fetch_exec : string → string → string → Machine → Res Response * Machine;
  json_text : string → bool;  (* JSON.parse accepts the text *)
  now_iso : G → string;       (* new Date().toISOString() *)
  now_ms : G → Z;             (* time stamped on a file being written *)
  locale_date : G → string;   (* new Date().toLocaleDateString() *)
  md5_hex : string → string;  (* crypto md5, hex digest *)
  path_join : string → string → string;   (* path.join(a, b) *)
  path_join_nonempty : ∀ a b, path_join a b ≠ ""
}.

Context `{Host}.

(** *** The monad *)

Definition M (A : Type) : Type := World → Res A * World.

Definition ret {A} (a : A) : M A := fun w => (Ok a, w).

Definition bind {A B} (m : M A) (k : A → M B) : M B :=
  fun w => match m w with
           | (Ok a, w') => k a w'
           | (Throw e, w') => (Throw e, w')
           end.

Definition throw {A} (e : string) : M A := fun w => (Throw e, w).

(** [try { body } catch (err) { handler }]: effects of [body] stay. *)
Definition try_catch {A} (body : M A) (handler : string → M A) : M A :=
  fun w => match body w with
           | (Ok a, w') => (Ok a, w')
           | (Throw e, w') => handler e w'
           end.

Definition emit (e : Event) (w : World) : World :=
  mkWorld (mach w) (e :: trace w).

Definition is_ok {A} (r : Res A) : bool :=
  match r with Ok _ => true | Throw _ => false end.

(** [await git.<cmd>(...)] on [simpleGit(repoPath)] *)
Definition git (repoPath : string) (c : GitCmd) : M GitVal :=
  fun w => let '(r, m') := git_exec repoPath c (mach w) in
           (r, mkWorld m' (EGit repoPath c (is_ok r) :: trace w)).

(** [response.json()]: the body parsed as JSON.  No JSON text is empty,
    so the empty body of a [204 No Content] is rejected. *)
Definition response_json (response : Response) : Res unit :=
  if String.eqb (resp_body response) "" then Throw "Unexpected end of JSON input"
  else if json_text (resp_body response) then Ok tt
  else Throw "Unexpected token in JSON".

(** What [githubApi] makes of the outcome of its [fetch] (lines 384-390):
    an error for a response that is not [ok], the parsed body otherwise.
    The parsed value itself is not kept: no caller of this model reads it. *)
Definition api_outcome (r : Res Response) : Res unit :=
  match r with
  | Throw e => Throw e
  | Ok response =>
      if negb (resp_ok response)
      then Throw ("GitHub API error: " ++ resp_status response)
      else response_json response
  end.

(** [await githubApi(endpoint, token, method)] (lines 368-391).  The
    event records whether the call resolved. *)
Definition githubApi (endpoint token method : string) : M unit :=
  fun w => let '(r, m') := fetch_exec endpoint token method (mach w) in
           (api_outcome r,
            mkWorld m' (EApi method endpoint (is_ok (api_outcome r)) :: trace w)).

(** Property access on a value of the wrong shape throws a TypeError. *)
Definition as_status (v : GitVal) : M StatusResult :=
  match v with VStatus s => ret s | _ => throw "TypeError" end.
Definition as_string (v : GitVal) : M string :=
  match v with VString s => ret s | _ => throw "TypeError" end.
Definition as_pull (v : GitVal) : M PullSummary :=
  match v with VPull p => ret p | _ => throw "TypeError" end.
Definition as_log (v : GitVal) : M LogResult :=
  match v with VLog l => ret l | _ => throw "TypeError" end.

End Machine.

Arguments Machine G : clear implicits.
Arguments World G : clear implicits.
Arguments Host G : clear implicits.
Arguments M G A : clear implicits.

Declare Scope js_scope.
Delimit Scope js_scope with js.
Notation "x <- c1 ;; c2" := (bind c1 (fun x => c2))
  (at level 100, c1 at next level, right associativity) : js_scope.
Notation "c1 ;; c2" := (bind c1 (fun _ => c2))
  (at level 100, right associativity) : js_scope.

(** ** The program *)

(** [ConflictDescriptor]: what [detectConflicts] records for a file
    changed on both sides. *)
Record Conflict := mkConflict {
  file : string;
  path : string;
  localMtime : Z;
  localHash : option string
}.

Record ConflictCheck := mkCheck {
  hasConflicts : bool;
  conflicts : list Conflict
}.

Inductive Outcome := Identical | LocalNewer | RemoteNewer | Skipped | Failed.

#[global] Instance Outcome_eq_dec : EqDecision Outcome.
Proof. solve_decision. Defined.

(** An entry of the [resolutions] array. *)
Record Resolution := mkResolution {
  rfile : string;
  resolution : Outcome;
  reason : option string;
  localBackup : option string;
  remoteMtime : option Z;
  rlocalMtime : option Z
}.

(** The objects [pullRepoSafe] returns. *)
Inductive PullOutcome :=
| PullBatch (pulled : bool) (nconflicts resolved skipped failed : nat)
| PullFiles (files : nat)
| PullNot (reason : string).

Definition pulled (r : PullOutcome) : bool :=
  match r with
  | PullBatch p _ _ _ _ => p
  | PullFiles _ => true
  | PullNot _ => false
  end.

(** [r.reason === s] *)
Definition reason_is (r : PullOutcome) (s : string) : bool :=
  match r with
  | PullNot x => String.eqb x s
  | _ => false
  end.

Definition resolved_of (r : PullOutcome) : nat :=
  match r with
  | PullBatch _ _ n _ _ => n
  | _ => 0%nat
  end.

(** The objects [pushRepoSafe] returns. *)
Inductive PushOutcome :=
| Pushed (files : nat) (retried : bool)
| NotPushed (reason : string) (pullResult : option PullOutcome).

Inductive DeleteOutcome := Deleted | DryRun | Manual | DeleteError (e : string).

Inductive CloneOutcome := Cloned | NotCloned (reason : string).

Record GhRepo := mkGhRepo { name : string; clone_url : string }.

Record Config := mkConfig {
  githubToken : string;
  username : string;
  searchDirs : list string;
  excludeDirs : list string;
  commitMessage : string;
  deleteEmptyRepos : bool;
  dryRun : bool
}.

Record Results := mkResults {
  n_pulled : nat;
  n_pushed : nat;
  n_cloned : nat;
  n_emptyDeleted : nat;
  n_upToDate : nat;
  n_failed : nat;
  n_conflictsResolved : nat
}.

(** The variables the two loops of [main] share. *)
Record LoopState := mkLoop {
  results : Results;
  currentOp : nat;
  localRepos : gmap string string
}.

Section Sync.

Context {G : Type} `{!Host G}.

Local Abbreviation M := (M G).

Local Open Scope js_scope.

(** [for (const x of l) body]: the loop variables are threaded as [s]. *)
Fixpoint for_of {A S : Type} (l : list A) (body : A → S → M S) (s : S) : M S :=
  match l with
  | [] => ret s
  | x :: l' => s' <- body x s ;; for_of l' body s'
  end.

(** [dashLog] writes to the console and, best effort, to the dashboard;
    both are outside the modelled state, and it never throws. *)
Definition dashLog (message level : string) : M unit := ret tt.

(** [dashProgress(current, total)]: the call is chronicled. *)
Definition dashProgress (cur tot : nat) : M unit :=
  fun w => (Ok tt, emit (EProgress cur tot) w).

(** *** fs.promises *)

Definition readFile (p : string) : M string :=
  fun w => match fs (mach w) !! p with
           | Some f => (Ok (content f), w)
           | None => (Throw "ENOENT", w)
           end.

Definition stat (p : string) : M File :=
  fun w => match fs (mach w) !! p with
           | Some f => (Ok f, w)
           | None => (Throw "ENOENT", w)
           end.

Definition copyFile (src dst : string) : M unit :=
  fun w => match fs (mach w) !! src with
           | Some f =>
               let g := ext (mach w) in
               (Ok tt,
                mkWorld (mkMachine (<[dst := mkFile (content f) (now_ms g)]> (fs (mach w))) g)
                        (ECopy src dst true :: trace w))
           | None => (Throw "ENOENT", emit (ECopy src dst false) w)
           end.

(** [new Date().toISOString().replace(/[:.]/g, '-')] *)
Definition timestamp_now : M string :=
  fun w => (Ok (Js.dashColonsDots (now_iso (ext (mach w)))), w).

(** [new Date().toLocaleDateString()] *)
Definition date_now : M string :=
  fun w => (Ok (locale_date (ext (mach w))), w).

(** *** Conflict resolution helpers (lines 85-111) *)

Definition getFileHash (filePath : string) : M (option string) :=
  try_catch
    (c <- readFile filePath ;; ret (Some (md5_hex c)))
    (fun _ => ret None).

Definition getFileMtime (filePath : string) : M Z :=
  try_catch
    (st <- stat filePath ;; ret (mtimeMs st))
    (fun _ => ret 0).

Definition backupFile (filePath suffix : string) : M (option string) :=
  try_catch
    (let backupPath := filePath ++ "." ++ suffix in
     copyFile filePath backupPath ;;
     ret (Some backupPath))
    (fun _ => ret None).

(** *** detectConflicts (lines 113-167) *)

(** Each of the four functions that follow opens with
    [simpleGit(repoPath)], which throws for a path that is not an
    existing directory.  The definitions here are the functions once that
    call has returned; [Full], further down, has the call in front. *)

Definition no_conflicts : ConflictCheck := mkCheck false [].

Definition detectLoopBody (repoPath : string) (remoteChanges : list string)
    (localFile : string) (conflicts : list Conflict) : M (list Conflict) :=
  if Js.includes remoteChanges localFile then
    let fullPath := path_join repoPath localFile in
    mtime <- getFileMtime fullPath ;;
    hash <- getFileHash fullPath ;;
    ret (conflicts ++ [mkConflict localFile fullPath mtime hash])%list
  else ret conflicts.

Definition detectConflicts (repoPath : string) : M ConflictCheck :=
  try_catch
    (status <- (v <- git repoPath GStatus ;; as_status v) ;;
     let currentBranch := current status in
     git repoPath GFetch ;;
     let localChanges := map fpath (sfiles status) in
     if (length localChanges =? 0)%nat then ret no_conflicts
     else
       remoteDiff <- (v <- git repoPath
                            (GDiff [currentBranch; "origin/" ++ currentBranch; "--name-only"]) ;;
                      as_string v) ;;
       let remoteChanges :=
         filter (fun f => Js.trim f ≠ "") (Js.split "010" remoteDiff) in
       if (length remoteChanges =? 0)%nat then ret no_conflicts
       else
         conflicts <- for_of localChanges (detectLoopBody repoPath remoteChanges) [] ;;
         ret (mkCheck (0 <? length conflicts)%nat conflicts))
    (fun _ => ret no_conflicts).

(** *** resolveConflicts (lines 169-246) *)

(** Steps 4 and 5 of the source (lines 196-234): fingerprint the pulled
    file, compare, keep the newer version. *)
Definition keepNewer (conflict : Conflict) (timestamp localBackup : string)
    : M Resolution :=
  remoteMtime <- getFileMtime (path conflict) ;;
  remoteHash <- getFileHash (path conflict) ;;
  if localMtime conflict >? remoteMtime then
    copyFile localBackup (path conflict) ;;
    dashLog "Local newer (kept local, backed up remote)" "warn" ;;
    backupFile (path conflict) ("remote." ++ timestamp) ;;
    ret (mkResolution (file conflict) LocalNewer None (Some localBackup)
                      (Some remoteMtime) (Some (localMtime conflict)))
  else if bool_decide (localHash conflict = remoteHash) then
    dashLog "Identical content (no conflict)" "info" ;;
    ret (mkResolution (file conflict) Identical None None None None)
  else
    dashLog "Remote newer (kept remote, backed up local)" "warn" ;;
    backupFile (path conflict) ("remote." ++ timestamp) ;;
    ret (mkResolution (file conflict) RemoteNewer None (Some localBackup)
                      (Some remoteMtime) (Some (localMtime conflict))).

(** [git.stash(['push', '-u', '-m', ...])] of step 2 *)
Definition stashCmd (timestamp : string) : GitCmd :=
  GStash ["push"; "-u"; "-m"; "Auto-stash for conflict resolution " ++ timestamp].

(** Lines 178-234 of the [try] block: everything up to the
    [resolutions.push].  The flag tells whether [continue] was taken. *)
Definition resolveAttempt (repoPath : string) (conflict : Conflict)
    : M (Resolution * bool) :=
  timestamp <- timestamp_now ;;
  localBackup <- backupFile (path conflict) ("local." ++ timestamp) ;;
  match localBackup with
  | None =>
      dashLog "Skipping (backup failed)" "warn" ;;
      ret (mkResolution (file conflict) Skipped (Some "backup failed") None None None,
           true)
  | Some localBackup =>
      git repoPath (stashCmd timestamp) ;;
      git repoPath GPull ;;
      r <- keepNewer conflict timestamp localBackup ;;
      ret (r, false)
  end.

Definition failedResolution (conflict : Conflict) (message : string) : Resolution :=
  mkResolution (file conflict) Failed (Some message) None None None.

(** One iteration of the loop.  The single [catch] of the source is
    reached from two places: before the [resolutions.push] of the
    iteration, or from [git.add] after it, when the array already holds
    the entry just pushed. *)
Definition resolveOne (repoPath : string) (conflict : Conflict)
    (resolutions : list Resolution) : M (list Resolution) :=
  try_catch
    (a <- resolveAttempt repoPath conflict ;;
     let resolutions1 := (resolutions ++ [a.1])%list in
     if a.2 then ret resolutions1
     else
       try_catch
         (git repoPath (GAdd (file conflict)) ;; ret resolutions1)
         (fun message =>
            dashLog "Resolution failed" "error" ;;
            ret (resolutions1 ++ [failedResolution conflict message])%list))
    (fun message =>
       dashLog "Resolution failed" "error" ;;
       ret (resolutions ++ [failedResolution conflict message])%list).

Definition resolveConflicts (repoPath : string) (conflicts : list Conflict)
    : M (list Resolution) :=
  dashLog "potential conflict(s) detected" "info" ;;
  for_of conflicts (resolveOne repoPath) [].

(** *** pullRepoSafe (lines 248-301) *)

(** [resolutions.filter(r => r.resolution === o).length] *)
Definition count_outcome (o : Outcome) (resolutions : list Resolution) : nat :=
  length (filter (fun r => resolution r = o) resolutions).

Definition resolvedCount (resolutions : list Resolution) : nat :=
  length (filter (fun r => resolution r ≠ Failed ∧ resolution r ≠ Skipped) resolutions).

Definition pullRepoSafe (repoPath : string) : M PullOutcome :=
  try_catch
    (status <- (v <- git repoPath GStatus ;; as_status v) ;;
     conflictCheck <- detectConflicts repoPath ;;
     if hasConflicts conflictCheck then
       dashLog "Conflict detection triggered" "info" ;;
       resolutions <- resolveConflicts repoPath (conflicts conflictCheck) ;;
       let resolved := resolvedCount resolutions in
       let failedCount := count_outcome Failed resolutions in
       let skippedCount := count_outcome Skipped resolutions in
       (if (0 <? failedCount)%nat
        then dashLog "conflict(s) failed" "warn" else ret tt) ;;
       ret (PullBatch ((0 <? resolved)%nat || (0 <? skippedCount)%nat)
                      (length (conflicts conflictCheck))
                      resolved skippedCount failedCount)
     else
       (if (0 <? length (sfiles status))%nat
        then dashLog "Uncommitted changes, stashing before pull" "warn" ;;
             git repoPath (GStash ["push"; "-u"; "-m"; "Auto-stash before pull"]) ;;
             ret tt
        else ret tt) ;;
       result <- (v <- git repoPath GPull ;; as_pull v) ;;
       if (0 <? length (pfiles result))%nat then
         dashLog "Pulled file(s)" "success" ;;
         ret (PullFiles (length (pfiles result)))
       else
         dashLog "Already up to date" "info" ;;
         ret (PullNot "up to date"))
    (fun message =>
       dashLog "Pull failed" "error" ;;
       ret (PullNot message)).

(** *** pushRepoSafe (lines 303-365) *)

(** [pullResult.pulled || pullResult.reason === 'up to date'] *)
Definition pull_usable (pullResult : PullOutcome) : bool :=
  pulled pullResult || reason_is pullResult "up to date".

(** Lines 308-338, phases 1 and 2 of the source: up to and including the
    commit.  [inl] is an early [return], [inr] carries [status] on to the
    push. *)
Definition pushCommitPhase (repoPath commitMessage : string)
    : M (PushOutcome + StatusResult) :=
  status <- (v <- git repoPath GStatus ;; as_status v) ;;
  if (length (sfiles status) =? 0)%nat then
    dashLog "No changes to push" "info" ;;
    ret (inl (NotPushed "no changes" None))
  else
    dashLog "file(s) changed" "info" ;;
    git repoPath GFetch ;;
    localCommit <- (v <- git repoPath (GRevparse ["HEAD"]) ;; as_string v) ;;
    remoteCommit <- (v <- git repoPath (GRevparse ["origin/" ++ current status]) ;;
                     as_string v) ;;
    early <- (if negb (String.eqb localCommit remoteCommit) then
                dashLog "Remote has new commits, pulling first..." "info" ;;
                pullResult <- pullRepoSafe repoPath ;;
                if negb (pulled pullResult) && negb (reason_is pullResult "up to date")
                then ret (Some (NotPushed "pull failed before push" (Some pullResult)))
                else ret None
              else ret None) ;;
    match early with
    | Some r => ret (inl r)
    | None =>
        git repoPath (GAdd ".") ;;
        date <- date_now ;;
        let message := Js.replace "{date}" date commitMessage in
        git repoPath (GCommit message) ;;
        ret (inr status)
    end.

(** Lines 341-359, phase 3 of the source: push, and on rejection pull and
    push again. *)
Definition pushRetryPhase (repoPath : string) (status : StatusResult)
    : M PushOutcome :=
  try_catch
    (git repoPath GPush ;;
     dashLog "Committed and pushed" "success" ;;
     ret (Pushed (length (sfiles status)) false))
    (fun pushErr =>
       dashLog "Push rejected, retrying with pull..." "warn" ;;
       pullResult <- pullRepoSafe repoPath ;;
       if pull_usable pullResult then
         git repoPath GPush ;;
         dashLog "Pushed after conflict resolution" "success" ;;
         ret (Pushed (length (sfiles status)) true)
       else throw "Push rejected and pull failed").

Definition pushRepoSafe (repoPath commitMessage : string) : M PushOutcome :=
  try_catch
    (r <- pushCommitPhase repoPath commitMessage ;;
     match r with
     | inl early => ret early
     | inr status => pushRetryPhase repoPath status
     end)
    (fun message =>
       dashLog "Push failed" "error" ;;
       ret (NotPushed message None)).

(** *** isRepoEmpty (lines 411-431) *)

Definition isRepoEmpty (repoPath : string) : M bool :=
  try_catch
    (log <- (v <- git repoPath GLog ;; as_log v) ;;
     if (total log =? 0)%nat then ret true
     else if (total log =? 1)%nat then
       files <- (v <- git repoPath (GRaw ["ls-tree"; "--name-only"; "HEAD"]) ;;
                 as_string v) ;;
       let fileList := Js.split "010" (Js.trim files) in
       if (length fileList =? 1)%nat
          && Js.startsWith (Js.toLowerCase (default "" (head fileList))) "readme"
       then ret true
       else ret false
     else ret false)
    (fun _ => ret false).

(** *** Retiring and cloning (lines 433-462, 499-509) *)

Definition deleted (r : DeleteOutcome) : bool :=
  match r with Deleted => true | _ => false end.

Definition deleteEmptyRepo (repoName username token : string) (dryRun : bool)
    : M DeleteOutcome :=
  if dryRun then
    dashLog "[DRY RUN] Would delete empty repo" "info" ;;
    ret DryRun
  else
    try_catch
      (githubApi ("/repos/" ++ username ++ "/" ++ repoName) token "DELETE" ;;
       dashLog "Deleted empty GitHub repo" "success" ;;
       ret Deleted)
      (fun message =>
         dashLog "Failed to delete" "error" ;;
         ret (DeleteError message)).

Definition deleteLocalRepo (repoPath : string) (dryRun : bool) : M DeleteOutcome :=
  if dryRun then
    dashLog "[DRY RUN] Would delete local repo" "info" ;;
    ret DryRun
  else
    try_catch
      (dashLog "Would delete local repo (manual deletion required)" "warn" ;;
       ret Manual)
      (fun message =>
         dashLog "Failed to delete" "error" ;;
         ret (DeleteError message)).

(** [simpleGit()] without a path: the command is chronicled under the
    empty repository path. *)
Definition cloneRepo (repoUrl targetDir repoName : string) : M CloneOutcome :=
  try_catch
    (dashLog "Cloning" "info" ;;
     git "" (GClone repoUrl targetDir) ;;
     dashLog "Cloned successfully" "success" ;;
     ret Cloned)
    (fun message =>
       dashLog "Clone failed" "error" ;;
       ret (NotCloned message)).

(** *** The two reconciliation loops of main (lines 544-592) *)

Definition bump (f : Results → Results) (st : LoopState) : LoopState :=
  mkLoop (f (results st)) (currentOp st) (localRepos st).

Definition inc_pulled (r : Results) : Results :=
  mkResults (S (n_pulled r)) (n_pushed r) (n_cloned r) (n_emptyDeleted r)
            (n_upToDate r) (n_failed r) (n_conflictsResolved r).
Definition inc_pushed (r : Results) : Results :=
  mkResults (n_pulled r) (S (n_pushed r)) (n_cloned r) (n_emptyDeleted r)
            (n_upToDate r) (n_failed r) (n_conflictsResolved r).
Definition inc_cloned (r : Results) : Results :=
  mkResults (n_pulled r) (n_pushed r) (S (n_cloned r)) (n_emptyDeleted r)
            (n_upToDate r) (n_failed r) (n_conflictsResolved r).
Definition inc_emptyDeleted (r : Results) : Results :=
  mkResults (n_pulled r) (n_pushed r) (n_cloned r) (S (n_emptyDeleted r))
            (n_upToDate r) (n_failed r) (n_conflictsResolved r).
Definition inc_upToDate (r : Results) : Results :=
  mkResults (n_pulled r) (n_pushed r) (n_cloned r) (n_emptyDeleted r)
            (S (n_upToDate r)) (n_failed r) (n_conflictsResolved r).
Definition inc_failed (r : Results) : Results :=
  mkResults (n_pulled r) (n_pushed r) (n_cloned r) (n_emptyDeleted r)
            (n_upToDate r) (S (n_failed r)) (n_conflictsResolved r).
Definition add_conflictsResolved (n : nat) (r : Results) : Results :=
  mkResults (n_pulled r) (n_pushed r) (n_cloned r) (n_emptyDeleted r)
            (n_upToDate r) (n_failed r) (n_conflictsResolved r + n).

(** [if (localPath)]: [undefined] and the empty string are falsy. *)
Definition truthy (v : option string) : option string :=
  match v with
  | Some "" => None
  | _ => v
  end.

(** Body of [for (const ghRepo of githubRepos)].  [config.searchDirs[0]]
    of an empty array is [undefined], on which [path.join] throws. *)
Definition pullPassBody (config : Config) (totalOps : nat) (ghRepo : GhRepo)
    (st : LoopState) : M LoopState :=
  let currentOp := S (currentOp st) in
  dashProgress currentOp totalOps ;;
  let repoName := Js.toLowerCase (name ghRepo) in
  let localPath := localRepos st !! repoName in
  match truthy localPath with
  | Some localPath =>
      result <- pullRepoSafe localPath ;;
      let r1 := if pulled result then inc_pulled (results st)
                else if reason_is result "up to date" then inc_upToDate (results st)
                else inc_failed (results st) in
      let r2 := add_conflictsResolved (resolved_of result) r1 in
      ret (mkLoop r2 currentOp (delete repoName (localRepos st)))
  | None =>
      match searchDirs config with
      | [] => throw "TypeError"
      | dir0 :: _ =>
          let targetDir := path_join dir0 (name ghRepo) in
          result <- cloneRepo (clone_url ghRepo) targetDir (name ghRepo) ;;
          ret (mkLoop (match result with
                       | Cloned => inc_cloned (results st)
                       | NotCloned _ => inc_failed (results st)
                       end) currentOp (localRepos st))
      end
  end.

(** Body of [for (const [repoName, repoPath] of localRepos)]. *)
Definition pushPassBody (config : Config) (totalOps : nat)
    (entry : string * string) (st : LoopState) : M LoopState :=
  let '(repoName, repoPath) := entry in
  let currentOp := S (currentOp st) in
  dashProgress currentOp totalOps ;;
  isEmpty <- isRepoEmpty repoPath ;;
  if isEmpty && deleteEmptyRepos config then
    dashLog "Detected as empty" "info" ;;
    deleteLocalRepo repoPath (dryRun config) ;;
    ghResult <- deleteEmptyRepo repoName (username config) (githubToken config)
                                (dryRun config) ;;
    ret (mkLoop (if deleted ghResult then inc_emptyDeleted (results st) else results st)
                currentOp (localRepos st))
  else
    result <- pushRepoSafe repoPath (commitMessage config) ;;
    ret (mkLoop (match result with
                 | Pushed _ _ => inc_pushed (results st)
                 | NotPushed r _ =>
                     if String.eqb r "no changes" then inc_upToDate (results st)
                     else inc_failed (results st)
                 end) currentOp (localRepos st)).

Definition zero_results : Results := mkResults 0 0 0 0 0 0 0.

(** Lines 544-592: [totalOps], [currentOp] and the two loops.  The
    second loop walks the entries left in the map; the model walks them
    in key order, JavaScript in insertion order. *)
Definition reconcile (config : Config) (githubRepos : list GhRepo)
    (localRepos0 : gmap string string) : M (nat * LoopState) :=
  let totalOps := (length githubRepos + size localRepos0)%nat in
  st1 <- for_of githubRepos (pullPassBody config totalOps)
                (mkLoop zero_results 0 localRepos0) ;;
  st2 <- for_of (map_to_list (localRepos st1)) (pushPassBody config totalOps) st1 ;;
  ret (totalOps, st2).

End Sync.

(** ** A scripted host

    One concrete [Host], used to run the program on explicit inputs.  Its
    state is a script of what git answers.  Every repository path is
    served by the same script.  Backup files are taken to be covered by
    the ignore rules, so [stash -u] leaves them in place ([More.swept_host]
    is the same host without such rules); a pull writes the incoming
    files into the working tree; [git log] fails in a repository without
    commits, as git does. *)

Module Sim.

Record State := mkState {
  status : StatusResult;              (* answer of [git status] *)
  diff_out : string;                  (* answer of the name-only diff *)
  incoming : list (string * File);    (* what a pull writes, by absolute path *)
  push_script : list bool;            (* verdicts of the pushes to come *)
  fetch_ok : bool;
  diff_ok : bool;
  pull_ok : bool;
  head_rev : string;                  (* rev-parse HEAD *)
  origin_rev : string;                (* rev-parse origin/<branch> *)
  commits : list string;              (* messages of the local commits, newest first *)
  log_total : nat;
  tree_out : string;                  (* answer of ls-tree --name-only HEAD *)
  api_ok : bool;
  clock_iso : string;
  clock_ms : Z;
  clock_date : string
}.

Definition with_status (st : StatusResult) (s : State) : State :=
  mkState st (diff_out s) (incoming s) (push_script s) (fetch_ok s) (diff_ok s)
          (pull_ok s) (head_rev s) (origin_rev s) (commits s) (log_total s)
          (tree_out s) (api_ok s) (clock_iso s) (clock_ms s) (clock_date s).

Definition with_push_script (p : list bool) (s : State) : State :=
  mkState (status s) (diff_out s) (incoming s) p (fetch_ok s) (diff_ok s)
          (pull_ok s) (head_rev s) (origin_rev s) (commits s) (log_total s)
          (tree_out s) (api_ok s) (clock_iso s) (clock_ms s) (clock_date s).

Definition add_commit (message : string) (s : State) : State :=
  mkState (status s) (diff_out s) (incoming s) (push_script s) (fetch_ok s) (diff_ok s)
          (pull_ok s) (head_rev s) (origin_rev s) (message :: commits s) (S (log_total s))
          (tree_out s) (api_ok s) (clock_iso s) (clock_ms s) (clock_date s).

Definition clean (s : State) : State :=
  with_status (mkStatus (current (status s)) []) s.

Definition write_all (files : list (string * File)) (disk : gmap string File)
    : gmap string File :=
  foldr (fun pf d => <[pf.1 := pf.2]> d) disk files.

Definition run_git (repoPath : string) (c : GitCmd) (m : Machine State)
    : Res GitVal * Machine State :=
  let s := ext m in
  match c with
  | GStatus => (Ok (VStatus (status s)), m)
  | GFetch => (if fetch_ok s then Ok VUnit else Throw "fetch failed", m)
  | GDiff _ => (if diff_ok s then Ok (VString (diff_out s)) else Throw "diff failed", m)
  | GStash _ => (Ok VUnit, mkMachine (fs m) (clean s))
  | GPull =>
      if pull_ok s
      then (Ok (VPull (mkPullSummary (map fst (incoming s)))),
            mkMachine (write_all (incoming s) (fs m)) s)
      else (Throw "pull failed", m)
  | GAdd _ => (Ok VUnit, m)
  | GCommit message => (Ok VUnit, mkMachine (fs m) (clean (add_commit message s)))
  | GPush =>
      match push_script s with
      | false :: rest => (Throw "rejected", mkMachine (fs m) (with_push_script rest s))
      | true :: rest => (Ok VUnit, mkMachine (fs m) (with_push_script rest s))
      | [] => (Ok VUnit, m)
      end
  | GRevparse args =>
      (Ok (VString (if bool_decide (args = ["HEAD"]) then head_rev s else origin_rev s)), m)
  | GLog =>
      (if (log_total s =? 0)%nat
       then Throw "fatal: your current branch 'main' does not have any commits yet"
       else Ok (VLog (mkLog (log_total s))), m)
  | GRaw _ => (Ok (VString (tree_out s)), m)
  | GClone _ _ => (Ok VUnit, m)
  end.

(** The API answers a DELETE of a repository with [204 No Content] and
    an empty body, and refuses with [401] when the account is locked out. *)
Definition run_api (endpoint token method : string) (m : Machine State)
    : Res Response * Machine State :=
  (Ok (if api_ok (ext m) then mkResponse true "204 No Content" ""
       else mkResponse false "401 Unauthorized" "{}"), m).

#[global] Instance host : Host State := {|
  git_exec := run_git;
  fetch_exec := run_api;
  json_text := fun text => String.prefix "{" text || String.prefix "[" text;
  now_iso := clock_iso;
  now_ms := clock_ms;
  locale_date := clock_date;
  md5_hex := fun bytes => bytes;
  path_join := Js.join;
  path_join_nonempty := Js.join_nonempty
|}.

(** A quiet script: nothing modified, nothing incoming, everything works. *)
Definition quiet : State :=
  mkState (mkStatus "main" []) "" [] [] true true true "c0" "c0" [] 3 ""
          true "2024-05-01T10:20:30.456Z" 1714558830456 "5/1/2024".

End Sim.

(** ** Observing a run *)

Definition is_push (c : GitCmd) : bool := match c with GPush => true | _ => false end.
Definition is_stash (c : GitCmd) : bool := match c with GStash _ => true | _ => false end.
Definition is_pull (c : GitCmd) : bool := match c with GPull => true | _ => false end.
Definition is_fetch (c : GitCmd) : bool := match c with GFetch => true | _ => false end.
Definition is_diff (c : GitCmd) : bool := match c with GDiff _ => true | _ => false end.

(** The event is a call of a git command among [p]. *)
Definition git_call (p : GitCmd → bool) (e : Event) : bool :=
  match e with EGit _ c _ => p c | _ => false end.

(** The event is a git call that threw. *)
Definition git_failed (e : Event) : bool :=
  match e with EGit _ _ ok => negb ok | _ => false end.

(** The event is a copy that wrote its destination. *)
Definition copied (e : Event) : bool :=
  match e with ECopy _ _ ok => ok | _ => false end.

Fixpoint count (p : Event → bool) (t : list Event) : nat :=
  match t with
  | [] => 0
  | e :: t' => ((if p e then 1 else 0) + count p t')%nat
  end.

(** The commands the Safe Puller and the functions under it issue. *)
Definition puller_cmd (c : GitCmd) : bool :=
  match c with
  | GStatus | GFetch | GDiff _ | GStash _ | GPull | GAdd _ => true
  | _ => false
  end.

(** The [dashProgress] calls of a trace, oldest first. *)
Definition progress_of (t : list Event) : list (nat * nat) :=
  omap (fun e => match e with EProgress c n => Some (c, n) | _ => None end) (rev t).

(** ** What git prints for a tree *)

Definition nl : string := String "010" "".

(** Output of [git ls-tree --name-only HEAD] for a tree with the given
    top-level entries: one name per line. *)
Fixpoint ls_tree_output (names : list string) : string :=
  match names with
  | [] => ""
  | n :: rest => n ++ nl ++ ls_tree_output rest
  end.

(** The printed tree without its last line end. *)
Fixpoint join_lines (names : list string) : string :=
  match names with
  | [] => ""
  | [n] => n
  | n :: rest => n ++ nl ++ join_lines rest
  end.

Fixpoint no_newline (s : string) : bool :=
  match s with
  | EmptyString => true
  | String c s' => negb (Ascii.eqb c "010") && no_newline s'
  end.

Fixpoint ends_plain (s : string) : bool :=
  match s with
  | EmptyString => false
  | String c EmptyString => negb (Js.is_space c)
  | String _ s' => ends_plain s'
  end.

Definition starts_plain (s : string) : bool :=
  match s with
  | EmptyString => false
  | String c _ => negb (Js.is_space c)
  end.

(** An entry name as git prints it unquoted: not empty, on one line, no
    white space at either end. *)
Definition plain_name (s : string) : bool :=
  starts_plain s && ends_plain s && no_newline s.

(** The progress reports [(from, tot)], [(from + 1, tot)], ... : [n] of them. *)
Definition ticks (tot from n : nat) : list (nat * nat) :=
  map (fun i => (i, tot)) (seq from n).

(** The names of the remote inventory, as the first loop looks them up. *)
Definition remote_names (githubRepos : list GhRepo) : list string :=
  map (fun r => Js.toLowerCase (name r)) githubRepos.

(** The outcomes of a batch, in order. *)
Definition outcomes_of (r : Res (list Resolution)) : list Outcome :=
  match r with
  | Ok rs => map resolution rs
  | Throw _ => []
  end.

Section Run.

Context {G : Type} `{!Host G}.

(** Run a computation on a machine, with an empty chronicle: the trace
    of the result is what this run did, newest first. *)
Definition run {A : Type} (m : M G A) (mch : Machine G) : Res A * World G :=
  m (mkWorld mch []).

(** The two worlds hold as many events among [p]. *)
Definition same_count (p : Event → bool) (w w' : World G) : Prop :=
  count p (trace w') = count p (trace w).

(** Every commit [history] shows for [repoPath] in [w] is still shown
    in [w']. *)
Definition keeps_history (history : string → G → list string) (repoPath : string)
    (w w' : World G) : Prop :=
  history repoPath (ext (mach w)) ⊆ history repoPath (ext (mach w')).

(** The two worlds chronicle the same [dashProgress] calls. *)
Definition same_progress (w w' : World G) : Prop :=
  progress_of (trace w') = progress_of (trace w).

(** [m] moves every world along the relation [R]. *)
Definition respects {A : Type} (R : World G → World G → Prop) (m : M G A) : Prop :=
  ∀ w, R w (m w).2.

End Run.

(** ** The specification's wording *)

(** [p] is a prefix of [s], letter case ignored. *)
Fixpoint prefix_nocase (p s : string) : bool :=
  match p, s with
  | EmptyString, _ => true
  | String a p', String b s' => Ascii.eqb (Js.lower a) (Js.lower b) && prefix_nocase p' s'
  | String _ _, EmptyString => false
  end.

(** Spec 4.6: zero commits, or exactly one commit whose tree holds a
    single file whose name starts with "readme", case ignored. *)
Definition classifies_empty (ncommits : nat) (tree : list string) : Prop :=
  ncommits = 0%nat ∨
  (ncommits = 1%nat ∧ ∃ f, tree = [f] ∧ prefix_nocase "readme" f = true).

Section Wording.

Context {G : Type} `{!Host G}.

(** Spec 4.2 step 1: with no locally modified file the detector reports
    no conflict and has made no network call. *)
Definition quiet_detector_spec (repoPath : string) (m : Machine G) : Prop :=
  ∀ st m1,
    git_exec repoPath GStatus m = (Ok (VStatus st), m1) →
    sfiles st = [] →
    (run (detectConflicts repoPath) m).1 = Ok no_conflicts ∧
    count (git_call is_fetch) (trace (run (detectConflicts repoPath) m).2) = 0%nat.

(** Spec 4.3 step 2: one stash (and the pull after it) for the whole
    batch, not one per file. *)
Definition single_stash_spec (repoPath : string) (cs : list Conflict)
    (m : Machine G) : Prop :=
  cs ≠ [] →
  (count (git_call is_stash) (trace (run (resolveConflicts repoPath cs) m).2) ≤ 1)%nat ∧
  (count (git_call is_pull) (trace (run (resolveConflicts repoPath cs) m).2) ≤ 1)%nat.

(** Steps 1 to 3 of the source (lines 178-194) on their own: the world
    in which step 4 fingerprints the pulled file. *)
Definition setAside (repoPath : string) (conflict : Conflict) : M G (option string) :=
  bind timestamp_now (fun timestamp =>
  bind (backupFile (path conflict) ("local." ++ timestamp)) (fun localBackup =>
  match localBackup with
  | None => ret None
  | Some b =>
      bind (git repoPath (stashCmd timestamp)) (fun _ =>
      bind (git repoPath GPull) (fun _ => ret (Some b)))
  end)).

(** Spec 8, identical-content shortcut: when the digest of the pulled
    file equals the local digest, the outcome is [identical] and the
    resolution of the file has copied nothing. *)
Definition identical_shortcut_spec (repoPath : string) (c : Conflict)
    (m : Machine G) : Prop :=
  let w := mkWorld m [] in
  (getFileHash (path c) (setAside repoPath c w).2).1 = Ok (localHash c) →
  (∃ r, (resolveAttempt repoPath c w).1 = Ok (r, false) ∧ resolution r = Identical) ∧
  count copied (trace (resolveAttempt repoPath c w).2) = 0%nat.

(** The progress counter ends at the remote count plus the initial
    local count. *)
Definition progress_total_spec (config : Config) (githubRepos : list GhRepo)
    (localRepos0 : gmap string string) (m : Machine G) : Prop :=
  ∃ tot st w',
    run (reconcile config githubRepos localRepos0) m = (Ok (tot, st), w') ∧
    currentOp st = (length githubRepos + size localRepos0)%nat.

End Wording.

(** ** Inputs of the examples *)

Module Ex.

Import Sim.

(** Nothing modified locally. *)
Definition quiet_machine : Machine State := mkMachine ∅ quiet.

(** [a.txt] modified locally, the remote unreachable. *)
Definition offline : State :=
  mkState (mkStatus "main" [mkFileStatus "a.txt"]) ("a.txt" ++ nl)
          [] [] false true true "c0" "c1" [] 3 ""
          true "2024-05-01T10:20:30.456Z" 1714558830456 "5/1/2024".

Definition offline_machine : Machine State :=
  mkMachine {[ "repo/a.txt" := mkFile "LOCAL" 20 ]} offline.

(** [a.txt] and [b.txt] modified on both sides; the remote versions
    carry the later modification time. *)
Definition both_changed : State :=
  mkState (mkStatus "main" [mkFileStatus "a.txt"; mkFileStatus "b.txt"])
          ("a.txt" ++ nl ++ "b.txt" ++ nl)
          [("repo/a.txt", mkFile "REMOTE-A" 30); ("repo/b.txt", mkFile "REMOTE-B" 30)]
          [] true true true "c0" "c1" [] 3 ""
          true "2024-05-01T10:20:30.456Z" 1714558830456 "5/1/2024".

Definition both_changed_machine : Machine State :=
  mkMachine {[ "repo/a.txt" := mkFile "LOCAL-A" 20; "repo/b.txt" := mkFile "LOCAL-B" 20 ]}
            both_changed.

Definition conflict_a : Conflict := mkConflict "a.txt" "repo/a.txt" 20 (Some "LOCAL-A").
Definition conflict_b : Conflict := mkConflict "b.txt" "repo/b.txt" 20 (Some "LOCAL-B").

(** [a.txt] modified on both sides, the local version being the later. *)
Definition local_later : State :=
  mkState (mkStatus "main" [mkFileStatus "a.txt"]) ("a.txt" ++ nl)
          [("repo/a.txt", mkFile "REMOTE" 10)]
          [] true true true "c0" "c1" [] 3 ""
          true "2024-05-01T10:20:30.456Z" 1714558830456 "5/1/2024".

Definition local_later_machine : Machine State :=
  mkMachine {[ "repo/a.txt" := mkFile "LOCAL" 20 ]} local_later.

Definition conflict_local : Conflict := mkConflict "a.txt" "repo/a.txt" 20 (Some "LOCAL").

(** [a.txt] touched on both sides with the same bytes. *)
Definition same_bytes : State :=
  mkState (mkStatus "main" [mkFileStatus "a.txt"]) ("a.txt" ++ nl)
          [("repo/a.txt", mkFile "SAME" 30)]
          [] true true true "c0" "c1" [] 3 ""
          true "2024-05-01T10:20:30.456Z" 1714558830456 "5/1/2024".

Definition same_bytes_machine : Machine State :=
  mkMachine {[ "repo/a.txt" := mkFile "SAME" 20 ]} same_bytes.

Definition conflict_same : Conflict := mkConflict "a.txt" "repo/a.txt" 20 (Some "SAME").

Definition stamp : string := "2024-05-01T10-20-30-456Z".

(** One commit holding [README.md] alone. *)
Definition readme_only : State :=
  mkState (mkStatus "main" []) "" [] [] true true true "c0" "c0" [] 1
          (ls_tree_output ["README.md"])
          true "2024-05-01T10:20:30.456Z" 1714558830456 "5/1/2024".

(** One commit holding [README.md] and [LICENSE]. *)
Definition readme_license : State :=
  mkState (mkStatus "main" []) "" [] [] true true true "c0" "c0" [] 1
          (ls_tree_output ["README.md"; "LICENSE"])
          true "2024-05-01T10:20:30.456Z" 1714558830456 "5/1/2024".

(** No commit at all. *)
Definition no_commit : State :=
  mkState (mkStatus "main" []) "" [] [] true true true "" "" [] 0 ""
          true "2024-05-01T10:20:30.456Z" 1714558830456 "5/1/2024".

(** [a.txt] modified locally only; the first push is rejected, the
    second accepted. *)
Definition raced : State :=
  mkState (mkStatus "main" [mkFileStatus "a.txt"]) ""
          [] [false; true] true true true "c0" "c0" [] 3 ""
          true "2024-05-01T10:20:30.456Z" 1714558830456 "5/1/2024".

Definition raced_world : World State :=
  mkWorld (mkMachine {[ "repo/a.txt" := mkFile "LOCAL" 20 ]} raced) [].

(** The same, with both pushes rejected. *)
Definition refused : State :=
  mkState (mkStatus "main" [mkFileStatus "a.txt"]) ""
          [] [false; false] true true true "c0" "c0" [] 3 ""
          true "2024-05-01T10:20:30.456Z" 1714558830456 "5/1/2024".

Definition refused_world : World State :=
  mkWorld (mkMachine {[ "repo/a.txt" := mkFile "LOCAL" 20 ]} refused) [].

(** One repository, present on both sides. *)
Definition config : Config :=
  mkConfig "token" "user" ["/dev"] [] "sync {date}" false false.

Definition remote_inventory : list GhRepo :=
  [mkGhRepo "Notes" "https://github.com/user/Notes.git"].

Definition local_inventory : gmap string string := {[ "notes" := "/dev/Notes" ]}.

(** The commits in the local history, as the scripted host records them. *)
Definition history (repoPath : string) (s : State) : list string := commits s.

End Ex.

(** ** More observers *)

Definition is_commit (c : GitCmd) : bool := match c with GCommit _ => true | _ => false end.
Definition is_add (c : GitCmd) : bool := match c with GAdd _ => true | _ => false end.
Definition is_clone (c : GitCmd) : bool := match c with GClone _ _ => true | _ => false end.
Definition is_raw (c : GitCmd) : bool := match c with GRaw _ => true | _ => false end.

(** The commands of the Conflict Detector. *)
Definition detector_cmd (c : GitCmd) : bool :=
  match c with
  | GStatus | GFetch | GDiff _ => true
  | _ => false
  end.

(** The event is a request to the GitHub API. *)
Definition api_call (e : Event) : bool :=
  match e with EApi _ _ _ => true | _ => false end.

(** The event is something the Safe Puller may do: one of its git
    commands, or a file copy. *)
Definition puller_event (e : Event) : bool :=
  match e with
  | EGit _ c _ => puller_cmd c
  | ECopy _ _ _ => true
  | _ => false
  end.

(** The event is a git command that succeeded, among [p]. *)
Definition git_done (p : GitCmd → bool) (e : Event) : bool :=
  match e with EGit _ c ok => p c && ok | _ => false end.

(** The lines of a name-only diff that are not blank: [remoteChanges]. *)
Definition remote_changes (remoteDiff : string) : list string :=
  filter (fun f => Js.trim f ≠ "") (Js.split "010" remoteDiff).

(** The sum of the six per-repository counters. *)
Definition total_of (r : Results) : nat :=
  (n_pulled r + n_pushed r + n_cloned r + n_emptyDeleted r + n_upToDate r + n_failed r)%nat.

(** The endpoints of the repositories that are on disk under a name
    GitHub did not list. *)
Definition unlisted_endpoints (username : string) (githubRepos : list GhRepo)
    (localRepos0 : gmap string string) : list string :=
  map (fun k => "/repos/" ++ username ++ "/" ++ k)
      (filter (fun k => k ∉ remote_names githubRepos) (map fst (map_to_list localRepos0))).

(** The event is no request to the API, or the DELETE of an unlisted
    repository. *)
Definition unlisted_delete (username : string) (githubRepos : list GhRepo)
    (localRepos0 : gmap string string) (e : Event) : bool :=
  match e with
  | EApi method endpoint _ =>
      bool_decide (method = "DELETE"
                   ∧ endpoint ∈ unlisted_endpoints username githubRepos localRepos0)
  | _ => true
  end.

Section MoreRun.

Context {G : Type} `{!Host G}.

(** From [w] to [w'] the chronicle only grew, by events among [P]. *)
Definition adds_only (P : Event → bool) (w w' : World G) : Prop :=
  ∃ evs, trace w' = (evs ++ trace w)%list ∧ forallb P evs = true.

(** What [detectConflicts] records for [localFile] on the disk of [m]. *)
Definition fingerprint (repoPath : string) (m : Machine G) (localFile : string) : Conflict :=
  let fullPath := path_join repoPath localFile in
  mkConflict localFile fullPath
             (from_option mtimeMs 0 (fs m !! fullPath))
             (md5_hex ∘ content <$> fs m !! fullPath).

End MoreRun.

(** ** The inventories and main (lines 393-409, 464-497, 511-608) *)

(** What [main] reads besides simple-git: the listing endpoint of the
    GitHub API, the directories on disk and the configuration file. *)
Class Inventory (G : Type) := {
  (* githubApi(endpoint, token) on a listing endpoint: the array of the
     response, or the error thrown *)
  api_list : string → string → Machine G → Res (list GhRepo) * Machine G;
  (* fs.readdir(dir) *)
  readdir : string → Machine G → Res (list string);
  (* (await fs.stat(p)).isDirectory() *)
  is_directory : string → Machine G → Res bool;
  (* JSON.parse(await fs.readFile(configPath, 'utf8')) *)
  load_config : Machine G → Res Config
}.

Section Main.

Context {G : Type} `{!Host G} `{!Inventory G}.

Local Abbreviation M := (M G).
Local Open Scope js_scope.

(** A read that leaves the machine as it is. *)
Definition reading {A} (f : Machine G → Res A) : M A := fun w => (f (mach w), w).

(** [await githubApi(endpoint, token)], a GET whose response is an array. *)
Definition githubApiList (endpoint token : string) : M (list GhRepo) :=
  fun w => let '(r, m') := api_list endpoint token (mach w) in
           (r, mkWorld m' (EApi "GET" endpoint (is_ok r) :: trace w)).

(** [`/users/${username}/repos?per_page=100&page=${page}`] *)
Definition listing (username : string) (page : nat) : string :=
  "/users/" ++ username ++ "/repos?per_page=100&page=" ++ pretty page.

(** The request for page [page], as the chronicle has it. *)
Definition request (username : string) (page : nat) (ok : bool) : Event :=
  EApi "GET" (listing username page) ok.

(** The [while (true)] of [getAllRepos], run for at most [fuel] turns;
    [None] when the turns are used up. *)
Fixpoint getAllReposLoop (fuel : nat) (username token : string) (page : nat)
    (repos : list GhRepo) : M (option (list GhRepo)) :=
  match fuel with
  | O => ret None
  | S fuel' =>
      batch <- githubApiList (listing username page) token ;;
      if (length batch =? 0)%nat then ret (Some repos)
      else getAllReposLoop fuel' username token (S page) (repos ++ batch)%list
  end.

Definition getAllRepos (fuel : nat) (username token : string)
    : M (option (list GhRepo)) :=
  getAllReposLoop fuel username token 1 [].

(** Body of [for (const entry of entries)] in [findLocalRepos]. *)
Definition scanEntry (excludeDirs : list string) (dir entry : string)
    (repos : gmap string string) : M (gmap string string) :=
  if Js.includes excludeDirs entry then ret repos
  else
    let fullPath := path_join dir entry in
    let gitPath := path_join fullPath ".git" in
    try_catch
      (isDir <- reading (is_directory fullPath) ;;
       if negb isDir then ret repos
       else
         gitIsDir <- reading (is_directory gitPath) ;;
         if gitIsDir then ret (<[Js.toLowerCase entry := fullPath]> repos)
         else ret repos)
      (fun _ => ret repos).

(** Body of [for (const dir of searchDirs)]. *)
Definition scanDir (excludeDirs : list string) (dir : string)
    (repos : gmap string string) : M (gmap string string) :=
  dashLog "Scanning for local repos..." "info" ;;
  try_catch
    (entries <- reading (readdir dir) ;;
     for_of entries (scanEntry excludeDirs dir) repos)
    (fun message =>
       dashLog "Error scanning" "warn" ;;
       ret repos).

Definition findLocalRepos (searchDirs excludeDirs : list string)
    : M (gmap string string) :=
  for_of searchDirs (scanDir excludeDirs) ∅.

(** The dashboard is outside the modelled state, and each of these
    catches whatever its request throws. *)
Definition initDashboard : M unit := ret tt.
Definition completeDashboard (summary : string) : M unit := ret tt.
Definition failDashboard (error : string) : M unit := ret tt.

(** [main], with at most [fuel] pages of the listing; [None] when they
    are used up.  What it throws is what [main().catch] receives. *)
Definition main (fuel : nat) : M (option unit) :=
  initDashboard ;;
  dashLog "Starting Conflict-Safe Bi-Directional Git Sync (v3)..." "info" ;;
  config <- reading load_config ;;
  if String.eqb (githubToken config) "" then
    let error := "GitHub token not configured!" in
    dashLog error "error" ;;
    failDashboard error ;;
    ret (Some tt)
  else
    dashLog "Phase 1: Fetching repos from GitHub..." "info" ;;
    listed <- getAllRepos fuel (username config) (githubToken config) ;;
    match listed with
    | None => ret None
    | Some githubRepos =>
        dashLog "Found repos on GitHub" "info" ;;
        dashLog "Phase 2: Scanning local directories..." "info" ;;
        localRepos <- findLocalRepos (searchDirs config) (excludeDirs config) ;;
        dashLog "Found local repos" "info" ;;
        reconcile config githubRepos localRepos ;;
        let summary := "Conflict-Safe Sync Complete!" in
        dashLog summary "success" ;;
        completeDashboard summary ;;
        ret (Some tt)
    end.

End Main.

(** *** What a scan finds, read off the disk *)

Section Found.

Context {G : Type} `{!Host G} `{!Inventory G}.

(** [fullPath] is a directory with a [.git] directory inside, as the two
    [fs.stat] calls of [findLocalRepos] see it. *)
Definition holds_repo (m : Machine G) (fullPath : string) : bool :=
  match is_directory fullPath m with
  | Ok true =>
      match is_directory (path_join fullPath ".git") m with
      | Ok true => true
      | _ => false
      end
  | _ => false
  end.

Definition found_entry (excludeDirs : list string) (m : Machine G) (dir : string)
    (repos : gmap string string) (entry : string) : gmap string string :=
  if negb (Js.includes excludeDirs entry) && holds_repo m (path_join dir entry)
  then <[Js.toLowerCase entry := path_join dir entry]> repos
  else repos.

Definition found_dir (excludeDirs : list string) (m : Machine G)
    (repos : gmap string string) (dir : string) : gmap string string :=
  match readdir dir m with
  | Ok entries => foldl (found_entry excludeDirs m dir) repos entries
  | Throw _ => repos
  end.

(** [p] is stored under [k] by some entry that the scan accepts. *)
Definition scanned (searchDirs excludeDirs : list string) (m : Machine G)
    (k p : string) : Prop :=
  ∃ dir entries entry,
    dir ∈ searchDirs ∧ readdir dir m = Ok entries ∧ entry ∈ entries ∧
    Js.includes excludeDirs entry = false ∧
    holds_repo m (path_join dir entry) = true ∧
    k = Js.toLowerCase entry ∧ p = path_join dir entry.

End Found.

(** ** The functions from their first line

    [detectConflicts], [resolveConflicts], [pullRepoSafe] and
    [pushRepoSafe] open with [simpleGit(repoPath)] (lines 114, 170, 249
    and 304), before their [try].  The definitions of these names above
    are the functions from the next line on, that is once the factory has
    returned.  [Full] puts the factory call in front, in the function
    itself and in every call it makes. *)

Module Full.

Section Full.

Context {G : Type} `{!Host G} `{!Inventory G}.

Local Abbreviation M := (M G).
Local Open Scope js_scope.

Definition no_directory : string :=
  "Cannot use simple-git on a directory that does not exist".

(** [simpleGit(baseDir)]: the factory throws unless [baseDir] is an
    existing directory.  It issues no command. *)
Definition simpleGit (baseDir : string) : M unit :=
  fun w => match is_directory baseDir (mach w) with
           | Ok true => (Ok tt, w)
           | _ => (Throw no_directory, w)
           end.

(** Lines 113-167. *)
Definition detectConflicts (repoPath : string) : M ConflictCheck :=
  simpleGit repoPath ;; detectConflicts repoPath.

(** Lines 169-246. *)
Definition resolveConflicts (repoPath : string) (conflicts : list Conflict)
    : M (list Resolution) :=
  simpleGit repoPath ;; resolveConflicts repoPath conflicts.

(** Lines 248-301. *)
Definition pullRepoSafe (repoPath : string) : M PullOutcome :=
  simpleGit repoPath ;;
  try_catch
    (status <- (v <- git repoPath GStatus ;; as_status v) ;;
     conflictCheck <- detectConflicts repoPath ;;
     if hasConflicts conflictCheck then
       dashLog "Conflict detection triggered" "info" ;;
       resolutions <- resolveConflicts repoPath (conflicts conflictCheck) ;;
       let resolved := resolvedCount resolutions in
       let failedCount := count_outcome Failed resolutions in
       let skippedCount := count_outcome Skipped resolutions in
       (if (0 <? failedCount)%nat
        then dashLog "conflict(s) failed" "warn" else ret tt) ;;
       ret (PullBatch ((0 <? resolved)%nat || (0 <? skippedCount)%nat)
                      (length (conflicts conflictCheck))
                      resolved skippedCount failedCount)
     else
       (if (0 <? length (sfiles status))%nat
        then dashLog "Uncommitted changes, stashing before pull" "warn" ;;
             git repoPath (GStash ["push"; "-u"; "-m"; "Auto-stash before pull"]) ;;
             ret tt
        else ret tt) ;;
       result <- (v <- git repoPath GPull ;; as_pull v) ;;
       if (0 <? length (pfiles result))%nat then
         dashLog "Pulled file(s)" "success" ;;
         ret (PullFiles (length (pfiles result)))
       else
         dashLog "Already up to date" "info" ;;
         ret (PullNot "up to date"))
    (fun message =>
       dashLog "Pull failed" "error" ;;
       ret (PullNot message)).

(** Lines 308-338. *)
Definition pushCommitPhase (repoPath commitMessage : string)
    : M (PushOutcome + StatusResult) :=
  status <- (v <- git repoPath GStatus ;; as_status v) ;;
  if (length (sfiles status) =? 0)%nat then
    dashLog "No changes to push" "info" ;;
    ret (inl (NotPushed "no changes" None))
  else
    dashLog "file(s) changed" "info" ;;
    git repoPath GFetch ;;
    localCommit <- (v <- git repoPath (GRevparse ["HEAD"]) ;; as_string v) ;;
    remoteCommit <- (v <- git repoPath (GRevparse ["origin/" ++ current status]) ;;
                     as_string v) ;;
    early <- (if negb (String.eqb localCommit remoteCommit) then
                dashLog "Remote has new commits, pulling first..." "info" ;;
                pullResult <- pullRepoSafe repoPath ;;
                if negb (pulled pullResult) && negb (reason_is pullResult "up to date")
                then ret (Some (NotPushed "pull failed before push" (Some pullResult)))
                else ret None
              else ret None) ;;
    match early with
    | Some r => ret (inl r)
    | None =>
        git repoPath (GAdd ".") ;;
        date <- date_now ;;
        let message := Js.replace "{date}" date commitMessage in
        git repoPath (GCommit message) ;;
        ret (inr status)
    end.

(** Lines 341-359. *)
Definition pushRetryPhase (repoPath : string) (status : StatusResult)
    : M PushOutcome :=
  try_catch
    (git repoPath GPush ;;
     dashLog "Committed and pushed" "success" ;;
     ret (Pushed (length (sfiles status)) false))
    (fun pushErr =>
       dashLog "Push rejected, retrying with pull..." "warn" ;;
       pullResult <- pullRepoSafe repoPath ;;
       if pull_usable pullResult then
         git repoPath GPush ;;
         dashLog "Pushed after conflict resolution" "success" ;;
         ret (Pushed (length (sfiles status)) true)
       else throw "Push rejected and pull failed").

(** Lines 303-365. *)
Definition pushRepoSafe (repoPath commitMessage : string) : M PushOutcome :=
  simpleGit repoPath ;;
  try_catch
    (r <- pushCommitPhase repoPath commitMessage ;;
     match r with
     | inl early => ret early
     | inr status => pushRetryPhase repoPath status
     end)
    (fun message =>
       dashLog "Push failed" "error" ;;
       ret (NotPushed message None)).

End Full.

End Full.

(** ** Inputs of the further examples *)

Module More.

Import Sim.

(** [a.txt] modified locally, the remote ahead, and pulls failing. *)
Definition behind_broken : State :=
  mkState (mkStatus "main" [mkFileStatus "a.txt"]) ""
          [] [] true true false "c0" "c1" [] 3 ""
          true "2024-05-01T10:20:30.456Z" 1714558830456 "5/1/2024".

Definition behind_broken_world : World State :=
  mkWorld (mkMachine {[ "repo/a.txt" := mkFile "LOCAL" 20 ]} behind_broken) [].

(** Everything works but the GitHub API, which refuses every request. *)
Definition api_down : State :=
  mkState (mkStatus "main" []) "" [] [] true true true "c0" "c0" [] 1
          (ls_tree_output ["README.md"])
          false "2024-05-01T10:20:30.456Z" 1714558830456 "5/1/2024".

(** Two repositories on GitHub; only the first has a local counterpart
    in [Ex.local_inventory]. *)
Definition two_remotes : list GhRepo :=
  [mkGhRepo "Notes" "https://github.com/user/Notes.git";
   mkGhRepo "Blog" "https://github.com/user/Blog.git"].

(** The account and the disk of the further examples: the listing has
    one page, with [two_remotes]; [/dev] holds the repository [Notes], a
    file, an excluded repository and a directory without [.git]; [/work]
    holds the repository [notes].  The configuration is chosen by the
    bytes of [config.json]. *)
Definition disk_dirs : list string :=
  ["repo"; "/dev"; "/dev/Notes"; "/dev/Notes/.git"; "/dev/node_modules";
   "/dev/node_modules/.git"; "/dev/Old";
   "/work"; "/work/notes"; "/work/notes/.git"].

Definition config_excluding : Config :=
  mkConfig "token" "user" ["/dev"] ["node_modules"] "sync {date}" false false.

Definition config_no_token : Config :=
  mkConfig "" "user" ["/dev"] ["node_modules"] "sync {date}" false false.

Definition config_no_dirs : Config :=
  mkConfig "token" "user" [] [] "sync {date}" false false.

#[global] Instance inventory : Inventory State := {|
  api_list := fun endpoint token m =>
    (if api_ok (ext m)
     then Ok (if String.eqb endpoint (listing "user" 1) then two_remotes else [])
     else Throw "GitHub API error: 401 Unauthorized", m);
  readdir := fun dir m =>
    if String.eqb dir "/dev" then Ok ["Notes"; "readme.txt"; "node_modules"; "Old"]
    else if String.eqb dir "/work" then Ok ["notes"]
    else Throw "ENOENT";
  is_directory := fun p m =>
    if bool_decide (p ∈ disk_dirs) then Ok true
    else if String.eqb p "/dev/readme.txt" then Ok false
    else Throw "ENOENT";
  load_config := fun m =>
    match fs m !! "config.json" with
    | None => Throw "ENOENT"
    | Some f =>
        if String.eqb (content f) "no token" then Ok config_no_token
        else if String.eqb (content f) "no dirs" then Ok config_no_dirs
        else Ok config_excluding
    end
|}.

Definition configured (bytes : string) (s : State) : World State :=
  mkWorld (mkMachine {[ "config.json" := mkFile bytes 10 ]} s) [].

(** Empty repositories are to be deleted, and not in a dry run. *)
Definition config_deleting : Config :=
  mkConfig "token" "user" ["/dev"] [] "sync {date}" true false.

(** A repository whose single commit holds [README.md] and nothing else. *)
Definition empty_repo : State :=
  mkState (mkStatus "main" []) "" [] [] true true true "c0" "c0" ["init"] 1
          (ls_tree_output ["README.md"])
          true "2024-05-01T10:20:30.456Z" 1714558830456 "5/1/2024".

(** A working tree without ignore rules for the backups: [stash -u]
    takes every file that is not tracked off the disk.  The rest is the
    scripted host. *)
Record Swept := mkSwept { script : State; tracked : list string }.

Definition sweep (keep : list string) (disk : gmap string File) : gmap string File :=
  filter (fun kv => kv.1 ∈ keep) disk.

Definition swept_git (repoPath : string) (c : GitCmd) (m : Machine Swept)
    : Res GitVal * Machine Swept :=
  let '(r, m') := run_git repoPath c (mkMachine (fs m) (script (ext m))) in
  let disk := match c with
              | GStash _ => sweep (tracked (ext m)) (fs m')
              | _ => fs m'
              end in
  (r, mkMachine disk (mkSwept (ext m') (tracked (ext m)))).

#[global] Instance swept_host : Host Swept := {|
  git_exec := swept_git;
  fetch_exec := fun _ _ _ m => (Throw "fetch failed", m);
  json_text := fun _ => false;
  now_iso := fun g => clock_iso (script g);
  now_ms := fun g => clock_ms (script g);
  locale_date := fun g => clock_date (script g);
  md5_hex := fun bytes => bytes;
  path_join := Js.join;
  path_join_nonempty := Js.join_nonempty
|}.

(** [Ex.local_later_machine] without ignore rules: only [a.txt] is tracked. *)
Definition local_later_swept : World Swept :=
  mkWorld (mkMachine (fs Ex.local_later_machine)
                     (mkSwept Ex.local_later ["repo/a.txt"])) [].

(** A host on which every git command and every API request fails. *)
#[global] Instance down : Host unit := {|
  git_exec := fun _ _ m => (Throw "fatal", m);
  fetch_exec := fun _ _ _ m => (Throw "fetch failed", m);
  json_text := fun _ => false;
  now_iso := fun _ => "2024-05-01T10:20:30.456Z";
  now_ms := fun _ => 0;
  locale_date := fun _ => "5/1/2024";
  md5_hex := fun bytes => bytes;
  path_join := Js.join;
  path_join_nonempty := Js.join_nonempty
|}.

End More.

(** ** Verification *)

Section Basics.

Context {G : Type} `{!Host G}.

Local Abbreviation M := (M G).
Local Open Scope js_scope.

(** What the helpers of lines 85-111 compute: none of them throws. *)

Lemma getFileHash_eq (p : string) (w : World G) :
  getFileHash p w = (Ok (md5_hex ∘ content <$> fs (mach w) !! p), w).
Proof.
  unfold getFileHash, try_catch, bind, readFile, ret.
  destruct (fs (mach w) !! p); reflexivity.
Qed.

Lemma getFileMtime_eq (p : string) (w : World G) :
  getFileMtime p w = (Ok (from_option mtimeMs 0 (fs (mach w) !! p)), w).
Proof.
  unfold getFileMtime, try_catch, bind, stat, ret.
  destruct (fs (mach w) !! p); reflexivity.
Qed.

Lemma backupFile_eq (p suffix : string) (w : World G) :
  backupFile p suffix w =
  match fs (mach w) !! p with
  | Some f =>
      (Ok (Some (p ++ "." ++ suffix)),
       mkWorld (mkMachine (<[p ++ "." ++ suffix := mkFile (content f) (now_ms (ext (mach w)))]>
                             (fs (mach w))) (ext (mach w)))
               (ECopy p (p ++ "." ++ suffix) true :: trace w))
  | None => (Ok None, emit (ECopy p (p ++ "." ++ suffix) false) w)
  end.
Proof.
  unfold backupFile, try_catch, bind, copyFile, ret.
  destruct (fs (mach w) !! p); reflexivity.
Qed.

(** The fingerprinting loop of the detector leaves the world as it is. *)
Lemma detectLoop_eq (repoPath : string) (remoteChanges localChanges : list string)
    (acc : list Conflict) (w : World G) :
  ∃ cs, for_of localChanges (detectLoopBody repoPath remoteChanges) acc w = (Ok cs, w).
Proof.
  revert acc. induction localChanges as [|f l IH]; intros acc; simpl.
  - by eexists.
  - unfold bind at 1. unfold detectLoopBody at 1.
    destruct (Js.includes remoteChanges f).
    + unfold bind. rewrite getFileMtime_eq, getFileHash_eq. simpl. apply IH.
    + simpl. apply IH.
Qed.

End Basics.

Ltac unfold_m :=
  unfold run, dashLog, dashProgress, as_status, as_string, as_pull, as_log,
    timestamp_now, date_now, try_catch, bind, ret, throw, git, githubApi, emit in *.

Section Detector.

Context {G : Type} `{!Host G}.

Local Open Scope js_scope.

(** C8.  Fail-open detection: [detectConflicts] never throws; whenever a
    git command it issued failed (status, fetch or diff), it answers
    [{hasConflicts: false, conflicts: []}]; and the fingerprinting helpers
    themselves never throw. *)
Theorem detectConflicts_fail_open (repoPath : string) (m : Machine G) :
  (∃ cc, (run (detectConflicts repoPath) m).1 = Ok cc) ∧
  (existsb git_failed (trace (run (detectConflicts repoPath) m).2) = true →
   (run (detectConflicts repoPath) m).1 = Ok no_conflicts) ∧
  (∀ p w, ∃ h t, (getFileHash p w).1 = Ok h ∧ (getFileMtime p w).1 = Ok t).
Proof.
  split; [|split].
  - unfold detectConflicts. unfold_m. simpl.
    destruct (git_exec repoPath GStatus m) as [[[]|] m1]; simpl; eauto.
    destruct (git_exec repoPath GFetch m1) as [[|] m2]; simpl; eauto.
    destruct (length (map fpath (sfiles s)) =? 0)%nat; simpl; eauto.
    destruct (git_exec repoPath (GDiff _) m2) as [[[]|] m3]; simpl; eauto.
    match goal with |- context [(length ?l =? 0)%nat] => destruct (length l =? 0)%nat end;
      simpl; eauto.
    match goal with |- context [for_of ?l (detectLoopBody ?rp ?rc) ?a ?w] =>
      destruct (detectLoop_eq rp rc l a w) as [cs ->] end.
    simpl; eauto.
  - unfold detectConflicts. unfold_m. simpl.
    destruct (git_exec repoPath GStatus m) as [[[]|] m1]; simpl; eauto.
    destruct (git_exec repoPath GFetch m1) as [[|] m2]; simpl; eauto.
    destruct (length (map fpath (sfiles s)) =? 0)%nat; simpl; eauto.
    destruct (git_exec repoPath (GDiff _) m2) as [[[]|] m3]; simpl; eauto.
    match goal with |- context [(length ?l =? 0)%nat] => destruct (length l =? 0)%nat end;
      simpl; eauto.
    match goal with |- context [for_of ?l (detectLoopBody ?rp ?rc) ?a ?w] =>
      destruct (detectLoop_eq rp rc l a w) as [cs ->] end.
    simpl. discriminate.
  - intros p w. rewrite getFileHash_eq, getFileMtime_eq. simpl. eauto.
Qed.

End Detector.

Lemma detectConflicts_fail_open_witness :
  (run (detectConflicts "repo") Ex.offline_machine).1 = Ok no_conflicts.
Proof.
  apply (proj1 (proj2 (detectConflicts_fail_open "repo" Ex.offline_machine))).
  vm_compute. reflexivity.
Defined.

Section QuietDetector.

Context {G : Type} `{!Host G}.

(** C5, as the code has it.  When status reports no locally modified
    file, [detectConflicts] answers [{hasConflicts: false, conflicts: []}];
    it has by then issued one fetch, right after the status and before
    looking at the local changes, and no diff. *)
Theorem detectConflicts_quiet (repoPath : string) (m m1 : Machine G) (st : StatusResult) :
  git_exec repoPath GStatus m = (Ok (VStatus st), m1) →
  sfiles st = [] →
  (run (detectConflicts repoPath) m).1 = Ok no_conflicts ∧
  (∃ ok, trace (run (detectConflicts repoPath) m).2
         = [EGit repoPath GFetch ok; EGit repoPath GStatus true]) ∧
  count (git_call is_fetch) (trace (run (detectConflicts repoPath) m).2) = 1%nat ∧
  count (git_call is_diff) (trace (run (detectConflicts repoPath) m).2) = 0%nat.
Proof.
  intros Hs Hf. unfold detectConflicts. unfold_m. simpl. rewrite Hs. simpl.
  destruct (git_exec repoPath GFetch m1) as [[v|e] m2]; simpl; rewrite ?Hf; simpl; eauto.
Qed.

End QuietDetector.

Lemma detectConflicts_quiet_witness :
  (run (detectConflicts "repo") Ex.quiet_machine).1 = Ok no_conflicts ∧
  count (git_call is_fetch) (trace (run (detectConflicts "repo") Ex.quiet_machine).2) = 1%nat.
Proof.
  destruct (detectConflicts_quiet "repo" Ex.quiet_machine Ex.quiet_machine
              (mkStatus "main" [])) as (Hr & _ & Hf & _);
    [reflexivity | reflexivity |].
  split; [exact Hr | exact Hf].
Defined.

(** C5, as the specification words it, fails on a repository with nothing
    modified: the fetch has been issued. *)
Lemma quiet_detector_fetches : ¬ quiet_detector_spec "repo" Ex.quiet_machine.
Proof.
  intros Hspec.
  destruct (Hspec (mkStatus "main" []) Ex.quiet_machine) as [_ Hcount];
    [reflexivity | reflexivity |].
  vm_compute in Hcount. discriminate.
Qed.

Lemma count_outcome_cons (o : Outcome) (r : Resolution) (rs : list Resolution) :
  count_outcome o (r :: rs)
  = ((if decide (resolution r = o) then 1 else 0) + count_outcome o rs)%nat.
Proof.
  unfold count_outcome. rewrite filter_cons. destruct (decide _); reflexivity.
Qed.

Lemma count_outcome_app (o : Outcome) (rs1 rs2 : list Resolution) :
  count_outcome o (rs1 ++ rs2) = (count_outcome o rs1 + count_outcome o rs2)%nat.
Proof. unfold count_outcome. by rewrite filter_app, length_app. Qed.

Section Resolver.

Context {G : Type} `{!Host G}.

Local Open Scope js_scope.

(** Steps 4 and 5 in closed form.  In the local-newer branch the copy
    from the backup comes first, so the file then copied under the
    [remote] marker is the restored local version. *)
Lemma keepNewer_eq (c : Conflict) (ts b : string) (w : World G) :
  keepNewer c ts b w =
  let disk := fs (mach w) in
  let g := ext (mach w) in
  let remoteMtime := from_option mtimeMs 0 (disk !! path c) in
  let remoteHash := md5_hex ∘ content <$> disk !! path c in
  let remoteBackup := path c ++ "." ++ "remote." ++ ts in
  if localMtime c >? remoteMtime then
    match disk !! b with
    | Some f =>
        let restored := mkFile (content f) (now_ms g) in
        (Ok (mkResolution (file c) LocalNewer None (Some b)
                          (Some remoteMtime) (Some (localMtime c))),
         mkWorld (mkMachine (<[remoteBackup := restored]> (<[path c := restored]> disk)) g)
                 (ECopy (path c) remoteBackup true :: ECopy b (path c) true :: trace w))
    | None => (Throw "ENOENT", emit (ECopy b (path c) false) w)
    end
  else if bool_decide (localHash c = remoteHash) then
    (Ok (mkResolution (file c) Identical None None None None), w)
  else
    (Ok (mkResolution (file c) RemoteNewer None (Some b)
                      (Some remoteMtime) (Some (localMtime c))),
     match disk !! path c with
     | Some f =>
         mkWorld (mkMachine (<[remoteBackup := mkFile (content f) (now_ms g)]> disk) g)
                 (ECopy (path c) remoteBackup true :: trace w)
     | None => emit (ECopy (path c) remoteBackup false) w
     end).
Proof.
  unfold keepNewer.
  unfold bind at 1. rewrite getFileMtime_eq.
  unfold bind at 1. rewrite getFileHash_eq. cbv zeta.
  destruct (localMtime c >? _).
  - unfold bind at 1. unfold copyFile at 1.
    destruct (fs (mach w) !! b) as [f|] eqn:Hb; [|reflexivity].
    unfold bind at 1. unfold dashLog at 1, ret at 1.
    unfold bind at 1. rewrite backupFile_eq. simpl.
    rewrite lookup_insert_eq. reflexivity.
  - destruct (bool_decide _); [reflexivity|].
    unfold bind at 1. unfold dashLog at 1, ret at 1.
    unfold bind at 1. rewrite backupFile_eq.
    destruct (fs (mach w) !! path c); reflexivity.
Qed.

(** [keepNewer] talks to the file system only. *)
Lemma keepNewer_git (c : Conflict) (ts b : string) (w : World G) (p : GitCmd → bool) :
  count (git_call p) (trace (keepNewer c ts b w).2) = count (git_call p) (trace w).
Proof.
  rewrite keepNewer_eq. cbv zeta.
  repeat case_match; reflexivity.
Qed.

Lemma keepNewer_outcome (c : Conflict) (ts b : string) (w : World G) (r : Resolution) :
  (keepNewer c ts b w).1 = Ok r → resolution r ≠ Skipped ∧ resolution r ≠ Failed.
Proof.
  rewrite keepNewer_eq. cbv zeta.
  repeat case_match; simpl; intros [= <-]; simpl; split; discriminate.
Qed.

(** One iteration of the resolver never throws and appends one or two
    entries.  Either the backup failed: one [skipped] entry, no git
    command; or it succeeded: one stash is issued, then at most one pull,
    and no entry is [skipped]. *)
Lemma resolveOne_spec (repoPath : string) (c : Conflict) (rs : list Resolution)
    (w : World G) :
  ∃ new w',
    resolveOne repoPath c rs w = (Ok (rs ++ new)%list, w') ∧
    new ≠ [] ∧
    ((count_outcome Skipped new = 1%nat ∧ length new = 1%nat ∧
      count (git_call is_stash) (trace w') = count (git_call is_stash) (trace w) ∧
      count (git_call is_pull) (trace w') = count (git_call is_pull) (trace w)) ∨
     (count_outcome Skipped new = 0%nat ∧
      count (git_call is_stash) (trace w') = S (count (git_call is_stash) (trace w)) ∧
      (count (git_call is_pull) (trace w) ≤ count (git_call is_pull) (trace w')
       ≤ S (count (git_call is_pull) (trace w)))%nat)).
Proof.
  unfold resolveOne, resolveAttempt.
  unfold try_catch at 1. unfold bind at 1. unfold bind at 1.
  unfold timestamp_now at 1. unfold bind at 1. rewrite backupFile_eq.
  set (ts := Js.dashColonsDots _).
  destruct (fs (mach w) !! path c) as [f|] eqn:Hf.
  - (* the backup was written *)
    unfold bind at 1. unfold git at 1. simpl mach.
    destruct (git_exec repoPath (stashCmd ts) _) as [[v1|e1] m1] eqn:Hstash.
    + unfold bind at 1. unfold git at 1. simpl mach.
      destruct (git_exec repoPath GPull m1) as [[v2|e2] m2] eqn:Hpull.
      * unfold bind at 1.
        match goal with |- context [keepNewer ?a ?b ?d ?x] =>
          pose proof (keepNewer_git a b d x is_stash) as Hks;
          pose proof (keepNewer_git a b d x is_pull) as Hkp;
          pose proof (keepNewer_outcome a b d x) as Hko;
          destruct (keepNewer a b d x) as [[r|e] w3] end.
        -- simpl in Hks, Hkp. destruct (Hko r eq_refl) as [Hns Hnf].
           unfold try_catch, bind, ret, git, dashLog. simpl.
           destruct (git_exec repoPath (GAdd (file c)) (mach w3)) as [[v4|e4] m4].
           ++ eexists [r], _. split; [reflexivity|]. split; [done|]. right.
              rewrite !count_outcome_cons, decide_False by done.
              simpl. rewrite Hks, Hkp. split; [done|]. lia.
           ++ eexists [r; failedResolution c e4], _.
              split; [simpl; by rewrite <- app_assoc|].
              split; [done|]. right.
              rewrite !count_outcome_cons, decide_False by done.
              simpl. rewrite Hks, Hkp. split; [done|]. lia.
        -- simpl in Hks, Hkp.
           eexists [failedResolution c e], _.
           split; [reflexivity|]. split; [done|]. right.
           simpl. rewrite Hks, Hkp. split; [done|]. simpl. lia.
      * eexists [failedResolution c e2], _.
        split; [reflexivity|]. split; [done|]. right. simpl. split; [done|]. lia.
    + eexists [failedResolution c e1], _.
      split; [reflexivity|]. split; [done|]. right. simpl. split; [done|]. lia.
  - (* the backup failed: skipped *)
    eexists [_], _. split; [reflexivity|]. split; [done|]. left. simpl. done.
Qed.

(** The whole batch: one entry at least per conflict, never a throw. *)
Lemma resolveLoop_spec (repoPath : string) (cs : list Conflict) :
  ∀ (rs : list Resolution) (w : World G),
  ∃ new w',
    for_of cs (resolveOne repoPath) rs w = (Ok (rs ++ new)%list, w') ∧
    (length cs ≤ length new)%nat ∧
    (count (git_call is_stash) (trace w') + count_outcome Skipped new
     = count (git_call is_stash) (trace w) + length cs)%nat ∧
    (count (git_call is_stash) (trace w) ≤ count (git_call is_stash) (trace w'))%nat ∧
    (count (git_call is_pull) (trace w) ≤ count (git_call is_pull) (trace w'))%nat ∧
    (count (git_call is_pull) (trace w') + count (git_call is_stash) (trace w)
     ≤ count (git_call is_stash) (trace w') + count (git_call is_pull) (trace w))%nat.
Proof.
  induction cs as [|c cs IH]; intros rs w; simpl.
  - exists [], w. rewrite app_nil_r. unfold ret. repeat split; simpl; lia.
  - destruct (resolveOne_spec repoPath c rs w) as (new1 & w1 & Heq & Hne & Hcase).
    destruct (IH (rs ++ new1)%list w1)
      as (new2 & w2 & Heq2 & Hlen & Hst & Hs1 & Hp1 & Hp2).
    exists (new1 ++ new2)%list, w2.
    unfold bind. rewrite Heq, Heq2, app_assoc.
    split; [done|].
    rewrite count_outcome_app, length_app.
    destruct new1 as [|r1 new1]; [done|]. simpl length.
    destruct Hcase as [(Hs & Hl & Hst1 & Hp)|(Hs & Hst1 & Hp)]; rewrite Hs; lia.
Qed.

End Resolver.

Section ResolverBatch.

Context {G : Type} `{!Host G}.

(** C3, as the code has it.  The stash and the pull sit inside the loop:
    the resolver issues one stash for every conflicting file whose local
    backup succeeded (every entry that is not [skipped] comes from such a
    file), each followed by at most one pull, and none for a file whose
    backup failed. *)
Theorem resolveConflicts_stash_per_file (repoPath : string) (cs : list Conflict)
    (m : Machine G) :
  ∃ rs w',
    run (resolveConflicts repoPath cs) m = (Ok rs, w') ∧
    (count (git_call is_stash) (trace w') + count_outcome Skipped rs = length cs)%nat ∧
    (count (git_call is_pull) (trace w') ≤ count (git_call is_stash) (trace w'))%nat.
Proof.
  unfold run, resolveConflicts, bind, dashLog, ret.
  destruct (resolveLoop_spec repoPath cs [] (mkWorld m []))
    as (new & w' & Heq & _ & Hst & _ & _ & Hp).
  exists new, w'. rewrite Heq. simpl in *. split; [done|]. lia.
Qed.

End ResolverBatch.

(** C3, as the specification words it, fails on a batch of two files: two
    stashes and two pulls are issued. *)
Lemma two_files_two_stashes :
  ¬ single_stash_spec "repo" [Ex.conflict_a; Ex.conflict_b] Ex.both_changed_machine.
Proof.
  intros Hspec. destruct Hspec as [Hs _]; [done|].
  vm_compute in Hs. lia.
Qed.

Section Puller.

Context {G : Type} `{!Host G}.

Local Open Scope js_scope.

(** The detector always answers, and flags a conflict exactly when its
    list is not empty. *)
Lemma detectConflicts_shape (repoPath : string) (w : World G) :
  ∃ cc w',
    detectConflicts repoPath w = (Ok cc, w') ∧
    hasConflicts cc = (0 <? length (conflicts cc))%nat.
Proof.
  unfold detectConflicts. unfold_m. simpl.
  destruct (git_exec repoPath GStatus (mach w)) as [[[]|] m1]; simpl; eauto.
  destruct (git_exec repoPath GFetch m1) as [[|] m2]; simpl; eauto.
  destruct (length (map fpath (sfiles s)) =? 0)%nat; simpl; eauto.
  destruct (git_exec repoPath (GDiff _) m2) as [[[]|] m3]; simpl; eauto.
  match goal with |- context [(length ?l =? 0)%nat] => destruct (length l =? 0)%nat end;
    simpl; eauto.
  match goal with |- context [for_of ?l (detectLoopBody ?rp ?rc) ?a ?w] =>
    destruct (detectLoop_eq rp rc l a w) as [cs ->] end.
  simpl; eauto.
Qed.

Lemma resolveConflicts_spec (repoPath : string) (cs : list Conflict) (w : World G) :
  ∃ rs w', resolveConflicts repoPath cs w = (Ok rs, w') ∧ (length cs ≤ length rs)%nat.
Proof.
  unfold resolveConflicts, bind, dashLog, ret.
  destruct (resolveLoop_spec repoPath cs [] w) as (new & w' & Heq & Hlen & _).
  exists new, w'. by rewrite Heq.
Qed.

Lemma some_counted (P : Resolution → Prop) `{!∀ r, Decision (P r)}
    (rs : list Resolution) :
  (0 <? length (filter P rs))%nat = true ↔ ∃ x, x ∈ rs ∧ P x.
Proof.
  rewrite Nat.ltb_lt. split.
  - destruct (filter P rs) as [|x l] eqn:Hf; simpl; [lia|]. intros _.
    assert (Hx : x ∈ filter P rs) by (rewrite Hf; left).
    apply list_elem_of_filter in Hx. exists x. tauto.
  - intros (x & Hx & HP).
    assert (Hin : x ∈ filter P rs) by (apply list_elem_of_filter; done).
    destruct (filter P rs); [by apply elem_of_nil in Hin | simpl; lia].
Qed.

(** C7.  When the detector reports conflicts, the Safe Puller hands the
    batch to the resolver and reports [pulled: true] exactly when some
    entry of the (non-empty) batch result is identical, local-newer,
    remote-newer or skipped; [pulled: false] exactly when every entry is
    failed. *)
Theorem pullRepoSafe_batch_rule (repoPath : string) (w w1 w2 : World G)
    (st : StatusResult) (cc : ConflictCheck) :
  git repoPath GStatus w = (Ok (VStatus st), w1) →
  detectConflicts repoPath w1 = (Ok cc, w2) →
  hasConflicts cc = true →
  ∃ rs w3 p n r s f,
    resolveConflicts repoPath (conflicts cc) w2 = (Ok rs, w3) ∧
    pullRepoSafe repoPath w = (Ok (PullBatch p n r s f), w3) ∧
    rs ≠ [] ∧
    (p = true ↔
     ∃ x, x ∈ rs ∧ (resolution x = Identical ∨ resolution x = LocalNewer ∨
                    resolution x = RemoteNewer ∨ resolution x = Skipped)) ∧
    (p = false ↔ ∀ x, x ∈ rs → resolution x = Failed).
Proof.
  intros Hstatus Hdetect Hhas.
  destruct (detectConflicts_shape repoPath w1) as (cc' & w2' & Hd' & Hshape).
  rewrite Hdetect in Hd'. injection Hd' as E1 E2. subst cc' w2'.
  destruct (resolveConflicts_spec repoPath (conflicts cc) w2) as (rs & w3 & Hres & Hlen).
  rewrite Hhas in Hshape. symmetry in Hshape. apply Nat.ltb_lt in Hshape.
  eexists rs, w3, _, _, _, _, _. split; [exact Hres|].
  split.
  { unfold pullRepoSafe. unfold try_catch, bind. rewrite Hstatus. simpl.
    unfold ret at 1. rewrite Hdetect, Hhas.
    unfold dashLog at 1, ret at 1. rewrite Hres.
    destruct (0 <? count_outcome Failed rs)%nat; reflexivity. }
  split; [destruct rs; simpl in *; [lia|done]|].
  assert (Hp : ((0 <? resolvedCount rs)%nat || (0 <? count_outcome Skipped rs)%nat) = true ↔
               ∃ x, x ∈ rs ∧ (resolution x = Identical ∨ resolution x = LocalNewer ∨
                              resolution x = RemoteNewer ∨ resolution x = Skipped)).
  { rewrite orb_true_iff. unfold resolvedCount, count_outcome. rewrite !some_counted.
    split.
    - intros [(x & Hx & Hn1 & Hn2)|(x & Hx & Hs)]; exists x; (split; [done|]);
        destruct (resolution x); tauto.
    - intros (x & Hx & Hcase). destruct (decide (resolution x = Skipped)) as [Hs|Hs].
      + right. by exists x.
      + left. exists x. split; [done|]. split; [|done].
        destruct Hcase as [-> | [-> | [-> | ->]]]; done. }
  split; [exact Hp|].
  rewrite <- not_true_iff_false, Hp. split.
  - intros Hnone x Hx. destruct (resolution x) eqn:Hr; try done; exfalso; apply Hnone;
      exists x; rewrite Hr; tauto.
  - intros Hall (x & Hx & Hcase). rewrite (Hall x Hx) in Hcase.
    destruct Hcase as [?|[?|[?|?]]]; discriminate.
Qed.

End Puller.

Lemma pullRepoSafe_batch_rule_witness :
  ∃ rs w3 p n r s f,
    resolveConflicts "repo" [Ex.conflict_a; Ex.conflict_b]
      (detectConflicts "repo" (git "repo" GStatus (mkWorld Ex.both_changed_machine [])).2).2
    = (Ok rs, w3) ∧
    pullRepoSafe "repo" (mkWorld Ex.both_changed_machine [])
    = (Ok (PullBatch p n r s f), w3) ∧
    rs ≠ [] ∧
    (p = true ↔
     ∃ x, x ∈ rs ∧ (resolution x = Identical ∨ resolution x = LocalNewer ∨
                    resolution x = RemoteNewer ∨ resolution x = Skipped)) ∧
    (p = false ↔ ∀ x, x ∈ rs → resolution x = Failed).
Proof.
  apply (pullRepoSafe_batch_rule "repo" (mkWorld Ex.both_changed_machine [])
           (git "repo" GStatus (mkWorld Ex.both_changed_machine [])).2
           (detectConflicts "repo"
              (git "repo" GStatus (mkWorld Ex.both_changed_machine [])).2).2
           (mkStatus "main" [mkFileStatus "a.txt"; mkFileStatus "b.txt"])
           (mkCheck true [Ex.conflict_a; Ex.conflict_b]));
    vm_compute; reflexivity.
Defined.

Section Preservation.

Context {G : Type} `{!Host G}.

(** In the local-newer branch, for every host: the file written under
    the [remote] marker has the bytes of the local backup, whatever the
    pull had put at the path. *)
Lemma keepNewer_remote_marker (c : Conflict) (ts b : string) (w : World G) (f : File) :
  localMtime c > from_option mtimeMs 0 (fs (mach w) !! path c) →
  fs (mach w) !! b = Some f →
  content <$> fs (mach (keepNewer c ts b w).2) !! (path c ++ "." ++ "remote." ++ ts)
  = Some (content f).
Proof.
  intros Hnewer Hb. rewrite keepNewer_eq. cbv zeta.
  apply Z.gtb_gt in Hnewer. rewrite Hnewer, Hb. simpl.
  by rewrite lookup_insert_eq.
Qed.

End Preservation.

(** C1 on a file whose local version is the later one: the outcome is
    local-newer, the pull had put the remote bytes at the path, and after
    the resolution the [remote]-marked backup holds the local bytes; no
    file on disk holds the remote bytes any more. *)
Theorem local_newer_loses_remote :
  let w := mkWorld Ex.local_later_machine [] in
  let w' := (resolveConflicts "repo" [Ex.conflict_local] w).2 in
  outcomes_of (resolveConflicts "repo" [Ex.conflict_local] w).1 = [LocalNewer]
  ∧ content <$> fs (mach (setAside "repo" Ex.conflict_local w).2) !! "repo/a.txt"
    = Some "REMOTE"
  ∧ content <$> fs (mach w') !! ("repo/a.txt.local." ++ Ex.stamp) = Some "LOCAL"
  ∧ content <$> fs (mach w') !! ("repo/a.txt.remote." ++ Ex.stamp) = Some "LOCAL"
  ∧ content <$> fs (mach w') !! "repo/a.txt" = Some "LOCAL"
  ∧ Forall (fun pf => content pf.2 ≠ "REMOTE") (map_to_list (fs (mach w'))).
Proof.
  vm_compute. repeat split; repeat constructor; discriminate.
Qed.

Section Identical.

Context {G : Type} `{!Host G}.

(** The attempt is steps 1 to 3 followed by [keepNewer]. *)
Lemma resolveAttempt_setAside (repoPath : string) (c : Conflict) (w w3 : World G)
    (b : string) :
  setAside repoPath c w = (Ok (Some b), w3) →
  b = path c ++ "." ++ "local." ++ Js.dashColonsDots (now_iso (ext (mach w))) ∧
  trace w3 = EGit repoPath GPull true
             :: EGit repoPath (stashCmd (Js.dashColonsDots (now_iso (ext (mach w))))) true
             :: ECopy (path c) b true :: trace w ∧
  resolveAttempt repoPath c w =
  match keepNewer c (Js.dashColonsDots (now_iso (ext (mach w)))) b w3 with
  | (Ok r, w4) => (Ok (r, false), w4)
  | (Throw e, w4) => (Throw e, w4)
  end.
Proof.
  unfold setAside, resolveAttempt.
  unfold bind at 1 5. unfold timestamp_now at 1 2.
  unfold bind at 1 4. rewrite backupFile_eq.
  set (ts := Js.dashColonsDots _).
  destruct (fs (mach w) !! path c) as [f|]; [|discriminate].
  unfold bind at 1 3. unfold git at 1 3. simpl mach.
  destruct (git_exec repoPath (stashCmd ts) _) as [[v1|e1] m1]; [|discriminate].
  unfold bind at 1 2. unfold git at 1 2. simpl mach.
  destruct (git_exec repoPath GPull m1) as [[v2|e2] m2]; [|discriminate].
  unfold ret at 1. intros [= <- <-]. simpl.
  split; [done|]. split; [done|].
  unfold bind, ret. by destruct (keepNewer _ _ _ _) as [[r|e] w4].
Qed.

(** C4, as the code has it.  When steps 1 to 3 went through (the
    [local]-marked backup has been written, stash and pull succeeded),
    the local modification time is not later than that of the pulled
    file, and the two digests are equal, the outcome is [identical]: the
    resolution stops in the world the pull left, so the only file it has
    written is the [local]-marked backup, and no [remote]-marked one. *)
Theorem resolveAttempt_identical (repoPath : string) (c : Conflict) (w w3 : World G)
    (b : string) :
  setAside repoPath c w = (Ok (Some b), w3) →
  localMtime c ≤ from_option mtimeMs 0 (fs (mach w3) !! path c) →
  (getFileHash (path c) w3).1 = Ok (localHash c) →
  (∃ r, resolveAttempt repoPath c w = (Ok (r, false), w3) ∧ resolution r = Identical) ∧
  count copied (trace w3) = S (count copied (trace w)) ∧
  ECopy (path c) b true ∈ trace w3.
Proof.
  intros Hset Hmtime Hhash.
  destruct (resolveAttempt_setAside repoPath c w w3 b Hset) as (Hb & Htrace & Hrun).
  rewrite Hrun, keepNewer_eq. cbv zeta.
  rewrite getFileHash_eq in Hhash. simpl in Hhash. injection Hhash as Hhash.
  assert (Hle : (localMtime c >? from_option mtimeMs 0 (fs (mach w3) !! path c)) = false).
  { apply not_true_iff_false. rewrite Z.gtb_gt. lia. }
  rewrite Hle, bool_decide_eq_true_2 by done.
  split; [eexists; split; [reflexivity|reflexivity]|].
  rewrite Htrace. simpl. split; [done|].
  do 2 right. left.
Qed.

End Identical.

Lemma resolveAttempt_identical_witness :
  (∃ r, resolveAttempt "repo" Ex.conflict_same (mkWorld Ex.same_bytes_machine [])
        = (Ok (r, false), (setAside "repo" Ex.conflict_same
                                    (mkWorld Ex.same_bytes_machine [])).2)
        ∧ resolution r = Identical) ∧
  count copied (trace (setAside "repo" Ex.conflict_same
                                 (mkWorld Ex.same_bytes_machine [])).2) = 1%nat.
Proof.
  destruct (resolveAttempt_identical "repo" Ex.conflict_same
              (mkWorld Ex.same_bytes_machine [])
              (setAside "repo" Ex.conflict_same (mkWorld Ex.same_bytes_machine [])).2
              ("repo/a.txt.local." ++ Ex.stamp)) as (Hr & Hc & _).
  - vm_compute. reflexivity.
  - vm_compute. discriminate.
  - vm_compute. reflexivity.
  - split; [exact Hr | exact Hc].
Defined.

(** C4, as the specification words it, fails on a file with the same
    bytes on both sides: the outcome is [identical], yet the resolution
    has written the [local]-marked backup. *)
Lemma identical_still_backs_up :
  ¬ identical_shortcut_spec "repo" Ex.conflict_same Ex.same_bytes_machine.
Proof.
  intros Hspec. destruct Hspec as [_ Hcount].
  - vm_compute. reflexivity.
  - vm_compute in Hcount. discriminate.
Qed.

Section Strings.

Local Open Scope string_scope.

Lemma append_cons (c : ascii) (s t : string) : String c s ++ t = String c (s ++ t).
Proof. reflexivity. Qed.

Lemma append_assoc (s t u : string) : (s ++ t) ++ u = s ++ t ++ u.
Proof. induction s as [|c s IH]; [done|]. rewrite !append_cons. by rewrite IH. Qed.

Lemma trimStart_plain (s : string) : starts_plain s = true → Js.trimStart s = s.
Proof.
  destruct s as [|c s]; simpl; [done|].
  by destruct (Js.is_space c).
Qed.

Lemma trimEnd_plain (s : string) : ends_plain s = true → Js.trimEnd s = s.
Proof.
  induction s as [|c s IH]; simpl; [done|].
  destruct s as [|d s].
  - simpl. destruct (Js.is_space c); [discriminate|done].
  - intros Hp. rewrite (IH Hp). reflexivity.
Qed.

Lemma trimEnd_newline (s : string) : Js.trimEnd (s ++ nl) = Js.trimEnd s.
Proof.
  induction s as [|c s IH]; [reflexivity|].
  rewrite append_cons. simpl. by rewrite IH.
Qed.

Lemma ends_plain_app (s t : string) : ends_plain t = true → ends_plain (s ++ t) = true.
Proof.
  intros Ht. induction s as [|c s IH]; [exact Ht|].
  rewrite append_cons. simpl.
  destruct (s ++ t) eqn:E; [simpl in IH; discriminate|done].
Qed.


Lemma ls_tree_join (n : string) (names : list string) :
  ls_tree_output (n :: names) = join_lines (n :: names) ++ nl.
Proof.
  revert n. induction names as [|m names IH]; intros n.
  - simpl. reflexivity.
  - change (ls_tree_output (n :: m :: names)) with (n ++ nl ++ ls_tree_output (m :: names)).
    rewrite IH. change (join_lines (n :: m :: names)) with (n ++ nl ++ join_lines (m :: names)).
    by rewrite !append_assoc.
Qed.

Lemma starts_plain_app (s t : string) : starts_plain s = true → starts_plain (s ++ t) = true.
Proof. destruct s; [done|]. by rewrite append_cons. Qed.

Lemma join_lines_plain (n : string) (names : list string) :
  Forall (fun s => plain_name s = true) (n :: names) →
  starts_plain (join_lines (n :: names)) = true ∧
  ends_plain (join_lines (n :: names)) = true.
Proof.
  revert n. induction names as [|m names IH]; intros n Hall.
  - apply Forall_cons in Hall as [Hn _]. unfold plain_name in Hn.
    apply andb_true_iff in Hn as [Hn _]. apply andb_true_iff in Hn. exact Hn.
  - apply Forall_cons in Hall as [Hn Hrest].
    destruct (IH m Hrest) as [_ He].
    change (join_lines (n :: m :: names)) with (n ++ nl ++ join_lines (m :: names)).
    split.
    + apply starts_plain_app. unfold plain_name in Hn.
      apply andb_true_iff in Hn as [Hn _]. by apply andb_true_iff in Hn as [Hn _].
    + apply ends_plain_app. by apply ends_plain_app.
Qed.

Lemma trim_ls_tree (n : string) (names : list string) :
  Forall (fun s => plain_name s = true) (n :: names) →
  Js.trim (ls_tree_output (n :: names)) = join_lines (n :: names).
Proof.
  intros Hall. destruct (join_lines_plain n names Hall) as [Hs He].
  rewrite ls_tree_join. unfold Js.trim.
  rewrite trimStart_plain by (by apply starts_plain_app).
  rewrite trimEnd_newline. by apply trimEnd_plain.
Qed.

Lemma split_one_line (s : string) : no_newline s = true → Js.split "010" s = [s].
Proof.
  induction s as [|c s IH]; simpl; [done|].
  intros [Hc Hs]%andb_true_iff. apply negb_true_iff in Hc. rewrite Hc, (IH Hs). reflexivity.
Qed.

Lemma split_first_line (s t : string) :
  no_newline s = true → Js.split "010" (s ++ nl ++ t) = s :: Js.split "010" t.
Proof.
  induction s as [|c s IH]; [reflexivity|].
  rewrite append_cons. simpl.
  intros [Hc Hs]%andb_true_iff. apply negb_true_iff in Hc. rewrite Hc.
  rewrite (IH Hs). reflexivity.
Qed.

Lemma split_join_lines (n : string) (names : list string) :
  Forall (fun s => plain_name s = true) (n :: names) →
  Js.split "010" (join_lines (n :: names)) = n :: names.
Proof.
  revert n. induction names as [|m names IH]; intros n Hall;
    apply Forall_cons in Hall as [Hn Hrest];
    unfold plain_name in Hn; apply andb_true_iff in Hn as [_ Hn].
  - by apply split_one_line.
  - change (join_lines (n :: m :: names)) with (n ++ nl ++ join_lines (m :: names)).
    rewrite split_first_line by done. by rewrite IH.
Qed.

Lemma prefix_nocase_lower (p s : string) :
  prefix_nocase p s = String.prefix (Js.toLowerCase p) (Js.toLowerCase s).
Proof.
  revert s. induction p as [|a p IH]; intros s; destruct s as [|b s]; simpl; try done.
  rewrite IH. destruct (ascii_dec (Js.lower a) (Js.lower b)) as [->|Hne].
  - by rewrite Ascii.eqb_refl.
  - apply Ascii.eqb_neq in Hne. by rewrite Hne.
Qed.

End Strings.

Section EmptyRepo.

Context {G : Type} `{!Host G}.

(** The classification once the log has answered.  With a log of [n]
    commits and, when [n] is one, a tree whose top-level entry names
    print unquoted, [isRepoEmpty] answers [true] exactly when [n] is
    zero, or [n] is one and the tree holds a single top-level entry whose
    name starts with "readme", case ignored.  (git answers no log of zero
    commits: see [isRepoEmpty_log_rejected].) *)
Theorem isRepoEmpty_classification (repoPath : string) (w w1 : World G) (n : nat)
    (names : list string) :
  git repoPath GLog w = (Ok (VLog (mkLog n)), w1) →
  (n = 1%nat →
   (git repoPath (GRaw ["ls-tree"; "--name-only"; "HEAD"]) w1).1
   = Ok (VString (ls_tree_output names))) →
  Forall (fun s => plain_name s = true) names →
  ∃ b, (isRepoEmpty repoPath w).1 = Ok b ∧ (b = true ↔ classifies_empty n names).
Proof.
  intros Hlog Htree Hplain.
  unfold isRepoEmpty, try_catch, bind. rewrite Hlog. unfold as_log, ret.
  destruct n as [|[|n]]; cbn [total Nat.eqb].
  - exists true. split; [done|]. split; [by left|done].
  - specialize (Htree eq_refl).
    destruct (git repoPath (GRaw _) w1) as [r w2]. simpl in Htree. subst r.
    unfold as_string, ret.
    destruct names as [|f rest].
    + exists false. split; [reflexivity|]. split; [done|].
      intros [?|(_ & f & ? & _)]; discriminate.
    + rewrite (trim_ls_tree f rest Hplain), (split_join_lines f rest Hplain).
      change (default "" (head (f :: rest))) with f. unfold Js.startsWith.
      change "readme" with (Js.toLowerCase "readme") at 1.
      rewrite <- prefix_nocase_lower.
      destruct rest as [|g rest].
      2: change (length (f :: g :: rest) =? 1)%nat with false.
      1: change (length [f] =? 1)%nat with true.
      all: cbn [andb].
      * destruct (prefix_nocase "readme" f) eqn:Hp.
        -- exists true. split; [done|]. split; [|done]. intros _. right. eauto.
        -- exists false. split; [done|]. split; [done|].
           intros [?|(_ & f' & [= <-] & Hp')]; [done|]. congruence.
      * exists false. split; [done|]. split; [done|].
        intros [?|(_ & f' & ? & _)]; discriminate.
  - exists false. split; [done|]. split; [done|]. intros [?|(? & _)]; discriminate.
Qed.

(** When [git log] is rejected, the [catch] answers [false] and nothing
    else is asked of git. *)
Lemma isRepoEmpty_log_rejected (repoPath : string) (m m' : Machine G) (e : string) :
  git_exec repoPath GLog m = (Throw e, m') →
  run (isRepoEmpty repoPath) m = (Ok false, mkWorld m' [EGit repoPath GLog false]).
Proof.
  intros Hlog. unfold run, isRepoEmpty, try_catch, bind, git. simpl.
  by rewrite Hlog.
Qed.

End EmptyRepo.

(** C6, at a repository without commits.  [git log] fails there
    ("your current branch does not have any commits yet"), simple-git
    rejects, and the [catch] of [isRepoEmpty] answers [false]: the line
    written for this case, [if (log.total === 0) return true], is never
    reached.  The repository classifies as not empty where the
    specification says empty. *)
Theorem no_commits_not_empty :
  run (isRepoEmpty "repo") (mkMachine ∅ Ex.no_commit)
  = (Ok false, mkWorld (mkMachine ∅ Ex.no_commit) [EGit "repo" GLog false]) ∧
  classifies_empty 0 [].
Proof.
  split; [|by left].
  by apply (isRepoEmpty_log_rejected "repo" (mkMachine ∅ Ex.no_commit)
              (mkMachine ∅ Ex.no_commit)
              "fatal: your current branch 'main' does not have any commits yet").
Qed.

Lemma isRepoEmpty_classification_witness :
  ∃ b, (isRepoEmpty "repo" (mkWorld (mkMachine ∅ Ex.readme_only) [])).1 = Ok b ∧
       (b = true ↔ classifies_empty 1 ["README.md"]).
Proof.
  apply (isRepoEmpty_classification "repo" (mkWorld (mkMachine ∅ Ex.readme_only) [])
           (git "repo" GLog (mkWorld (mkMachine ∅ Ex.readme_only) [])).2 1 ["README.md"]).
  - reflexivity.
  - intros _. reflexivity.
  - repeat constructor.
Defined.

(** The three repositories the specification names, as the program
    classifies them. *)
Example isRepoEmpty_examples :
  (isRepoEmpty "repo" (mkWorld (mkMachine ∅ Ex.no_commit) [])).1 = Ok false ∧
  (isRepoEmpty "repo" (mkWorld (mkMachine ∅ Ex.readme_only) [])).1 = Ok true ∧
  (isRepoEmpty "repo" (mkWorld (mkMachine ∅ Ex.readme_license) [])).1 = Ok false.
Proof. vm_compute. done. Qed.

(** ** Frame reasoning: what no call below a function can undo *)

Section Respect.

Context {G : Type} `{!Host G}.
Context (R : World G → World G → Prop) `{!PreOrder R}.

Local Open Scope js_scope.

Lemma respects_ret {A} (a : A) : respects R (ret a).
Proof. intros w. reflexivity. Qed.

Lemma respects_throw {A} (e : string) : respects R (@throw G A e).
Proof. intros w. reflexivity. Qed.

Lemma respects_bind {A B} (m : M G A) (k : A → M G B) :
  respects R m → (∀ a, respects R (k a)) → respects R (bind m k).
Proof.
  intros Hm Hk w. unfold bind. specialize (Hm w).
  destruct (m w) as [[a|e] w1]; simpl in *; [|done].
  etrans; [exact Hm|apply Hk].
Qed.

Lemma respects_try_catch {A} (m : M G A) (h : string → M G A) :
  respects R m → (∀ e, respects R (h e)) → respects R (try_catch m h).
Proof.
  intros Hm Hh w. unfold try_catch. specialize (Hm w).
  destruct (m w) as [[a|e] w1]; simpl in *; [done|].
  etrans; [exact Hm|apply Hh].
Qed.

Lemma respects_for_of {A S} (l : list A) (body : A → S → M G S) (s : S) :
  (∀ x s', respects R (body x s')) → respects R (for_of l body s).
Proof.
  intros Hb. revert s. induction l as [|x l IH]; intros s; simpl.
  - apply respects_ret.
  - apply respects_bind; [apply Hb|intros ?; apply IH].
Qed.

Lemma respects_same {A} (m : M G A) : (∀ w, (m w).2 = w) → respects R m.
Proof. intros Hm w. rewrite Hm. reflexivity. Qed.

End Respect.

Create HintDb resp discriminated.

#[local] Hint Resolve respects_ret respects_throw : resp.

Ltac resp_step :=
  first
    [ solve [eauto with resp]
    | apply respects_ret; exact _
    | apply respects_throw; exact _
    | apply respects_bind; [exact _| |intros ?]
    | apply respects_try_catch; [exact _| |intros ?]
    | apply respects_for_of; [exact _|intros ? ?]
    | match goal with
      | |- respects _ (if ?b then _ else _) => destruct b
      | |- respects _ (match ?x with _ => _ end) => destruct x
      | |- respects _ (let '(_, _) := ?x in _) => destruct x
      end ].

Ltac resp := repeat resp_step.

Section RespectProgram.

Context {G : Type} `{!Host G}.
Context (R : World G → World G → Prop) `{!PreOrder R}.

(** The commands [allowed] and the copies move the world along [R]. *)
Context (allowed : GitCmd → bool).
Hypothesis R_git : ∀ repoPath c, allowed c = true → respects R (git repoPath c).
Hypothesis R_copy : ∀ src dst, respects R (copyFile src dst).
Hypothesis allowed_puller : ∀ c, puller_cmd c = true → allowed c = true.

Local Open Scope js_scope.

Lemma respects_dashLog (a b : string) : respects R (dashLog a b).
Proof. apply respects_ret; exact _. Qed.

Lemma respects_timestamp_now : respects R timestamp_now.
Proof. by apply respects_same. Qed.

Lemma respects_date_now : respects R date_now.
Proof. by apply respects_same. Qed.

Lemma respects_as_status v : respects R (as_status v).
Proof. destruct v; resp. Qed.

Lemma respects_as_string v : respects R (as_string v).
Proof. destruct v; resp. Qed.

Lemma respects_as_pull v : respects R (as_pull v).
Proof. destruct v; resp. Qed.

Lemma respects_as_log v : respects R (as_log v).
Proof. destruct v; resp. Qed.

Lemma respects_getFileHash p : respects R (getFileHash p).
Proof. apply respects_same; [exact _|]. intros w. by rewrite getFileHash_eq. Qed.

Lemma respects_getFileMtime p : respects R (getFileMtime p).
Proof. apply respects_same; [exact _|]. intros w. by rewrite getFileMtime_eq. Qed.

Lemma respects_backupFile p suffix : respects R (backupFile p suffix).
Proof. unfold backupFile. resp. Qed.

Lemma respects_puller_git repoPath c :
  puller_cmd c = true → respects R (git repoPath c).
Proof. intros Hc. by apply R_git, allowed_puller. Qed.

Hint Resolve respects_dashLog respects_timestamp_now respects_date_now
  respects_as_status respects_as_string respects_as_pull respects_as_log
  respects_getFileHash respects_getFileMtime respects_backupFile
  R_copy : resp.

Lemma respects_detectConflicts repoPath : respects R (detectConflicts repoPath).
Proof.
  unfold detectConflicts, detectLoopBody. resp; by apply respects_puller_git.
Qed.

Lemma respects_keepNewer c ts b : respects R (keepNewer c ts b).
Proof. unfold keepNewer. resp. Qed.

Hint Resolve respects_detectConflicts respects_keepNewer : resp.

Lemma respects_resolveConflicts repoPath cs : respects R (resolveConflicts repoPath cs).
Proof.
  unfold resolveConflicts, resolveOne, resolveAttempt. resp;
    by apply respects_puller_git.
Qed.

Hint Resolve respects_resolveConflicts : resp.

Lemma respects_pullRepoSafe repoPath : respects R (pullRepoSafe repoPath).
Proof.
  unfold pullRepoSafe. resp; by apply respects_puller_git.
Qed.

Hint Resolve respects_pullRepoSafe : resp.

Lemma respects_pushCommitPhase repoPath commitMessage :
  (∀ args, allowed (GRevparse args) = true) →
  (∀ message, allowed (GCommit message) = true) →
  respects R (pushCommitPhase repoPath commitMessage).
Proof.
  intros Hrev Hcommit. unfold pushCommitPhase. resp;
    solve [by apply respects_puller_git | by apply R_git].
Qed.

Lemma respects_pushRetryPhase repoPath status :
  allowed GPush = true →
  respects R (pushRetryPhase repoPath status).
Proof.
  intros Hpush. unfold pushRetryPhase. resp; by apply R_git.
Qed.

Lemma respects_pushRepoSafe repoPath commitMessage :
  (∀ args, allowed (GRevparse args) = true) →
  (∀ message, allowed (GCommit message) = true) →
  allowed GPush = true →
  respects R (pushRepoSafe repoPath commitMessage).
Proof.
  intros Hrev Hcommit Hpush. unfold pushRepoSafe. resp;
    solve [by apply respects_pushCommitPhase | by apply respects_pushRetryPhase].
Qed.

Lemma respects_isRepoEmpty repoPath :
  allowed GLog = true → (∀ args, allowed (GRaw args) = true) →
  respects R (isRepoEmpty repoPath).
Proof.
  intros Hlog Hraw. unfold isRepoEmpty. resp; by apply R_git.
Qed.

Lemma respects_cloneRepo url target name :
  (∀ u t, allowed (GClone u t) = true) →
  respects R (cloneRepo url target name).
Proof.
  intros Hclone. unfold cloneRepo. resp; by apply R_git.
Qed.

Lemma respects_deleteEmptyRepo repoName user token dry :
  (∀ endpoint tok method, respects R (githubApi endpoint tok method)) →
  respects R (deleteEmptyRepo repoName user token dry).
Proof.
  intros Hapi. unfold deleteEmptyRepo. resp.
Qed.

Lemma respects_deleteLocalRepo repoPath dry : respects R (deleteLocalRepo repoPath dry).
Proof. unfold deleteLocalRepo. resp. Qed.

End RespectProgram.

(** ** The Safe Pusher *)

Section Pusher.

Context {G : Type} `{!Host G}.

Local Open Scope js_scope.

#[local] Instance same_count_preorder (p : Event → bool) : PreOrder (same_count (G:=G) p).
Proof.
  split.
  - intros w. reflexivity.
  - intros w1 w2 w3 H12 H23. unfold same_count in *. congruence.
Qed.

(** The Safe Puller always returns an object. *)
Lemma pullRepoSafe_total (repoPath : string) (w : World G) :
  ∃ pr w', pullRepoSafe repoPath w = (Ok pr, w').
Proof.
  unfold pullRepoSafe, try_catch.
  match goal with |- context [match ?b w with _ => _ end] => destruct (b w) as [[pr|e] w'] end.
  - eauto.
  - unfold bind, dashLog, ret. eauto.
Qed.

(** The Safe Puller never pushes. *)
Lemma pullRepoSafe_no_push (repoPath : string) (w : World G) :
  count (git_call is_push) (trace (pullRepoSafe repoPath w).2)
  = count (git_call is_push) (trace w).
Proof.
  apply (respects_pullRepoSafe (same_count (git_call is_push)) puller_cmd).
  - intros rp c Hc w0. unfold same_count, git.
    destruct (git_exec rp c (mach w0)) as [r m']. simpl. by destruct c.
  - intros src dst w0. unfold same_count, copyFile.
    by destruct (fs (mach w0) !! src).
  - done.
Qed.

(** Neither do phases 1 and 2 of the Safe Pusher. *)
Lemma pushCommitPhase_no_push (repoPath commitMessage : string) (w : World G) :
  count (git_call is_push) (trace (pushCommitPhase repoPath commitMessage w).2)
  = count (git_call is_push) (trace w).
Proof.
  apply (respects_pushCommitPhase (same_count (git_call is_push))
           (fun c => negb (is_push c))).
  - intros rp c Hc w0. unfold same_count, git.
    destruct (git_exec rp c (mach w0)) as [r m']. simpl. by destruct c.
  - intros src dst w0. unfold same_count, copyFile.
    by destruct (fs (mach w0) !! src).
  - by intros [].
  - done.
  - done.
Qed.




End Pusher.


Section PushFailure.

Context {G : Type} `{!Host G}.

(** [history repoPath g]: the commits of the local branch of the
    repository at [repoPath]. *)
Context (history : string → G → list string).

Local Open Scope js_scope.

#[local] Instance keeps_history_preorder (repoPath : string) :
  PreOrder (keeps_history history repoPath).
Proof.
  split.
  - intros w x Hx. exact Hx.
  - intros w1 w2 w3 H12 H23 x Hx. apply H23, H12, Hx.
Qed.

(** When phases 1 and 2 end with [inr], their last step was a commit
    that succeeded. *)
Lemma pushCommitPhase_committed (repoPath commitMessage : string) (w w1 : World G)
    (st : StatusResult) :
  pushCommitPhase repoPath commitMessage w = (Ok (inr st), w1) →
  ∃ w0 message v,
    git_exec repoPath (GCommit message) (mach w0) = (Ok v, mach w1) ∧
    trace w1 = EGit repoPath (GCommit message) true :: trace w0.
Proof.
  unfold pushCommitPhase. unfold_m. intros Hrun.
  repeat (case_match; simplify_eq/=);
    (eexists (mkWorld _ _), _, _; split; [simpl; eassumption|reflexivity]).
Qed.

(** Phase 3 returns a success or throws. *)
Lemma pushRetryPhase_shape (repoPath : string) (st : StatusResult) (w : World G)
    (reason : string) (pr : option PullOutcome) :
  (pushRetryPhase repoPath st w).1 ≠ Ok (NotPushed reason pr).
Proof.
  unfold pushRetryPhase, try_catch. unfold bind at 1.
  destruct (git repoPath GPush w) as [[v|e] w2]; [done|].
  unfold bind at 1. unfold dashLog at 1, ret at 1. unfold bind at 1.
  destruct (pullRepoSafe repoPath w2) as [[p|e2] w3]; [|done].
  destruct (pull_usable p); [|done].
  unfold bind at 1. by destruct (git repoPath GPush w3) as [[v|e3] w4].
Qed.

(** The Safe Pusher always returns an object. *)
Lemma pushRepoSafe_total (repoPath commitMessage : string) (w : World G) :
  ∃ o w', pushRepoSafe repoPath commitMessage w = (Ok o, w').
Proof.
  unfold pushRepoSafe, try_catch.
  match goal with |- context [match ?b w with _ => _ end] => destruct (b w) as [[o|e] w'] end.
  - eauto.
  - unfold bind, dashLog, ret. eauto.
Qed.

(** C9.  When the commit step of the Safe Pusher has succeeded and the
    result is not a success, the result is [{pushed: false, reason}],
    returned and not thrown, and every commit that was in the history
    right after the commit step, the one just made included, is in the
    history when the function returns: nothing restores the state from
    before the operation.  This is for every git in which a push and the
    commands of the Safe Puller (status, fetch, diff, stash, pull, add)
    drop no commit; those are the only commands issued after the commit,
    and nothing is assumed of any other command. *)
Theorem pushRepoSafe_failure_keeps_commit (repoPath commitMessage : string)
    (w w1 : World G) (st : StatusResult) :
  (∀ rp c m, is_push c || puller_cmd c = true →
     history repoPath (ext m) ⊆ history repoPath (ext (git_exec rp c m).2)) →
  pushCommitPhase repoPath commitMessage w = (Ok (inr st), w1) →
  (∀ n r, (pushRepoSafe repoPath commitMessage w).1 ≠ Ok (Pushed n r)) →
  (∃ reason, (pushRepoSafe repoPath commitMessage w).1 = Ok (NotPushed reason None)) ∧
  (∃ message, head (trace w1) = Some (EGit repoPath (GCommit message) true)) ∧
  history repoPath (ext (mach w1))
  ⊆ history repoPath (ext (mach (pushRepoSafe repoPath commitMessage w).2)).
Proof.
  intros Hkeep Hphase Hfail.
  assert (Hrun : pushRepoSafe repoPath commitMessage w =
                 match pushRetryPhase repoPath st w1 with
                 | (Ok o, w') => (Ok o, w')
                 | (Throw e, w') => (Ok (NotPushed e None), w')
                 end).
  { unfold pushRepoSafe, try_catch. unfold bind at 1. rewrite Hphase.
    by destruct (pushRetryPhase repoPath st w1) as [[o|e] w']. }
  assert (Hlater : keeps_history history repoPath w1
                     (pushRepoSafe repoPath commitMessage w).2).
  { rewrite Hrun.
    pose proof (respects_pushRetryPhase (keeps_history history repoPath)
                  (fun c => is_push c || puller_cmd c)) as Hresp.
    assert (Hw : (match pushRetryPhase repoPath st w1 with
                  | (Ok o, w') => (Ok o, w')
                  | (Throw e, w') => (Ok (NotPushed e None), w')
                  end).2 = (pushRetryPhase repoPath st w1).2)
      by (by destruct (pushRetryPhase repoPath st w1) as [[o|e] w']).
    rewrite Hw. apply Hresp; try done.
    - intros rp c Hc w0. unfold keeps_history, git.
      pose proof (Hkeep rp c (mach w0) Hc) as Hk.
      by destruct (git_exec rp c (mach w0)) as [r m'].
    - intros src dst w0. unfold keeps_history, copyFile.
      by destruct (fs (mach w0) !! src).
    - intros c Hc. rewrite Hc. by destruct (is_push c). }
  split; [|split].
  - rewrite Hrun in Hfail |- *.
    pose proof (pushRetryPhase_shape repoPath st w1) as Hshape.
    destruct (pushRetryPhase repoPath st w1) as [[[n r|reason pr]|e] w']; simpl in *.
    + by destruct (Hfail n r).
    + by destruct (Hshape reason pr).
    + eauto.
  - destruct (pushCommitPhase_committed repoPath commitMessage w w1 st Hphase)
      as (w0 & message & v & Hexec & Htrace).
    exists message. by rewrite Htrace.
  - exact Hlater.
Qed.

End PushFailure.

(** On the scripted host no command drops a commit, and a commit that
    succeeds is recorded. *)
Lemma sim_keeps_history (rp : string) (c : GitCmd) (m : Machine Sim.State) (rp' : string) :
  Ex.history rp' (ext m) ⊆ Ex.history rp' (ext (git_exec rp c m).2).
Proof.
  unfold Ex.history. destruct c; simpl; try done.
  - by destruct (Sim.pull_ok (ext m)).
  - intros x Hx. by right.
  - by destruct (Sim.push_script (ext m)) as [|[] ?].
Qed.

Lemma sim_commit_recorded (rp message : string) (m : Machine Sim.State) (v : GitVal)
    (m' : Machine Sim.State) :
  git_exec rp (GCommit message) m = (Ok v, m') → message ∈ Ex.history rp (ext m').
Proof.
  simpl. intros [= _ <-]. unfold Ex.history. simpl. by left.
Qed.

Lemma pushRepoSafe_failure_keeps_commit_witness :
  (∃ reason, (pushRepoSafe "repo" "sync {date}" Ex.refused_world).1
             = Ok (NotPushed reason None)) ∧
  "sync 5/1/2024"
  ∈ Ex.history "repo" (ext (mach (pushRepoSafe "repo" "sync {date}" Ex.refused_world).2)).
Proof.
  destruct (pushRepoSafe_failure_keeps_commit Ex.history "repo" "sync {date}"
              Ex.refused_world
              (pushCommitPhase "repo" "sync {date}" Ex.refused_world).2
              (mkStatus "main" [mkFileStatus "a.txt"]))
    as (Hreason & _ & Hin).
  - intros rp c m _. apply sim_keeps_history.
  - vm_compute. reflexivity.
  - intros n r. vm_compute. discriminate.
  - split; [exact Hreason|]. apply Hin. vm_compute. left.
Defined.

(** ** The orchestrator *)

Section Orchestrator.

Context {G : Type} `{!Host G}.

Local Open Scope js_scope.
Local Open Scope nat_scope.

Lemma progress_of_cons (e : Event) (t : list Event) :
  progress_of (e :: t)
  = (progress_of t ++ match e with EProgress c n => [(c, n)] | _ => [] end)%list.
Proof.
  unfold progress_of. simpl. rewrite omap_app. simpl. by destruct e.
Qed.

#[local] Instance same_progress_preorder : PreOrder (same_progress (G:=G)).
Proof.
  split.
  - intros w. reflexivity.
  - intros w1 w2 w3 H12 H23. unfold same_progress in *. congruence.
Qed.

Lemma same_progress_git (repoPath : string) (c : GitCmd) :
  respects same_progress (git repoPath c).
Proof.
  intros w. unfold same_progress, git.
  destruct (git_exec repoPath c (mach w)) as [r m']. simpl.
  rewrite progress_of_cons. by rewrite app_nil_r.
Qed.

Lemma same_progress_copy (src dst : string) : respects same_progress (copyFile src dst).
Proof.
  intros w. unfold same_progress, copyFile.
  destruct (fs (mach w) !! src); simpl; rewrite progress_of_cons; by rewrite app_nil_r.
Qed.

Lemma same_progress_api (endpoint token method : string) :
  respects same_progress (githubApi endpoint token method).
Proof.
  intros w. unfold same_progress, githubApi.
  destruct (fetch_exec endpoint token method (mach w)) as [r m']. simpl.
  rewrite progress_of_cons. by rewrite app_nil_r.
Qed.

(** The per-repository operations always return, and report no progress
    themselves. *)
Lemma pullRepoSafe_step (repoPath : string) (w : World G) :
  ∃ r w', pullRepoSafe repoPath w = (Ok r, w') ∧ same_progress w w'.
Proof.
  destruct (pullRepoSafe_total repoPath w) as (r & w' & Heq).
  exists r, w'. split; [done|].
  pose proof (respects_pullRepoSafe same_progress (fun _ => true)
                (fun rp c _ => same_progress_git rp c) same_progress_copy
                (fun _ _ => eq_refl) repoPath w) as Hr.
  by rewrite Heq in Hr.
Qed.

Lemma pushRepoSafe_step (repoPath message : string) (w : World G) :
  ∃ r w', pushRepoSafe repoPath message w = (Ok r, w') ∧ same_progress w w'.
Proof.
  destruct (pushRepoSafe_total repoPath message w) as (r & w' & Heq).
  exists r, w'. split; [done|].
  pose proof (respects_pushRepoSafe same_progress (fun _ => true)
                (fun rp c _ => same_progress_git rp c) same_progress_copy
                (fun _ _ => eq_refl) repoPath message
                (fun _ => eq_refl) (fun _ => eq_refl) eq_refl w) as Hr.
  by rewrite Heq in Hr.
Qed.

Lemma cloneRepo_step (url target name : string) (w : World G) :
  ∃ r w', cloneRepo url target name w = (Ok r, w') ∧ same_progress w w'.
Proof.
  pose proof (respects_cloneRepo same_progress (fun _ => true)
                (fun rp c _ => same_progress_git rp c) url target name
                (fun _ _ => eq_refl) w) as Hr.
  revert Hr. unfold cloneRepo. unfold_m. simpl.
  destruct (git_exec "" (GClone url target) (mach w)) as [[v|e] m']; simpl;
    intros Hr; eexists _, _; (split; [reflexivity|exact Hr]).
Qed.

Lemma isRepoEmpty_step (repoPath : string) (w : World G) :
  ∃ r w', isRepoEmpty repoPath w = (Ok r, w') ∧ same_progress w w'.
Proof.
  pose proof (respects_isRepoEmpty same_progress (fun _ => true)
                (fun rp c _ => same_progress_git rp c) repoPath
                eq_refl (fun _ => eq_refl) w) as Hr.
  revert Hr. unfold isRepoEmpty, try_catch.
  match goal with |- context [match ?b w with _ => _ end] => destruct (b w) as [[o|e] w'] end;
    simpl; intros Hr; eexists _, _; (split; [reflexivity|exact Hr]).
Qed.

Lemma deleteLocalRepo_step (repoPath : string) (dry : bool) (w : World G) :
  ∃ r, deleteLocalRepo repoPath dry w = (Ok r, w).
Proof. unfold deleteLocalRepo. unfold_m. destruct dry; eauto. Qed.

Lemma deleteEmptyRepo_step (repoName user token : string) (dry : bool) (w : World G) :
  ∃ r w', deleteEmptyRepo repoName user token dry w = (Ok r, w') ∧ same_progress w w'.
Proof.
  pose proof (respects_deleteEmptyRepo same_progress repoName user token dry
                same_progress_api w) as Hr.
  revert Hr. unfold deleteEmptyRepo. unfold_m. simpl.
  destruct dry; simpl; [intros Hr; eexists _, _; (split; [reflexivity|exact Hr])|].
  destruct (fetch_exec _ _ _ (mach w)) as [r m']; simpl.
  destruct (api_outcome r) as [v|e]; simpl;
    intros Hr; eexists _, _; (split; [reflexivity|exact Hr]).
Qed.

Lemma truthy_lookup (m : gmap string string) (k : string) :
  (∀ k p, m !! k = Some p → p ≠ "") → truthy (m !! k) = m !! k.
Proof.
  intros Hm. destruct (m !! k) as [p|] eqn:Hk; [|done].
  specialize (Hm k p Hk). by destruct p.
Qed.

(** One turn of the first loop: the counter moves by one, one progress
    report is sent, and a paired repository leaves the map. *)
Lemma pullPassBody_step (config : Config) (tot : nat) (r : GhRepo) (st : LoopState)
    (w : World G) :
  searchDirs config ≠ [] →
  (∀ k p, localRepos st !! k = Some p → p ≠ "") →
  ∃ st' w',
    pullPassBody config tot r st w = (Ok st', w') ∧
    currentOp st' = S (currentOp st) ∧
    localRepos st' = delete (Js.toLowerCase (name r)) (localRepos st) ∧
    progress_of (trace w') = (progress_of (trace w) ++ [(S (currentOp st), tot)])%list.
Proof.
  intros Hdirs Hpaths. unfold pullPassBody. cbv zeta.
  unfold bind at 1. unfold dashProgress at 1.
  rewrite (truthy_lookup _ _ Hpaths).
  set (w0 := emit _ w).
  assert (Hw0 : progress_of (trace w0)
                = (progress_of (trace w) ++ [(S (currentOp st), tot)])%list)
    by (unfold w0; simpl; by rewrite progress_of_cons).
  destruct (localRepos st !! Js.toLowerCase (name r)) as [localPath|] eqn:Hlook.
  - destruct (pullRepoSafe_step localPath w0) as (res & w' & Heq & Hsame).
    unfold bind. rewrite Heq. unfold ret.
    eexists _, w'. split; [reflexivity|]. simpl.
    split; [done|]. split; [done|]. by rewrite Hsame.
  - destruct (searchDirs config) as [|dir0 dirs]; [done|]. cbv zeta.
    destruct (cloneRepo_step (clone_url r) (path_join dir0 (name r)) (name r) w0)
      as (res & w' & Heq & Hsame).
    unfold bind. rewrite Heq. unfold ret.
    eexists _, w'. split; [reflexivity|]. simpl.
    split; [done|]. split; [by rewrite delete_id|]. by rewrite Hsame.
Qed.

Lemma pushPassBody_step (config : Config) (tot : nat) (entry : string * string)
    (st : LoopState) (w : World G) :
  ∃ st' w',
    pushPassBody config tot entry st w = (Ok st', w') ∧
    currentOp st' = S (currentOp st) ∧
    localRepos st' = localRepos st ∧
    progress_of (trace w') = (progress_of (trace w) ++ [(S (currentOp st), tot)])%list.
Proof.
  unfold pushPassBody. destruct entry as [repoName repoPath]. cbv zeta.
  unfold bind at 1. unfold dashProgress at 1.
  set (w0 := emit _ w).
  assert (Hw0 : progress_of (trace w0)
                = (progress_of (trace w) ++ [(S (currentOp st), tot)])%list)
    by (unfold w0; simpl; by rewrite progress_of_cons).
  destruct (isRepoEmpty_step repoPath w0) as (isEmpty & w1 & Heq1 & Hsame1).
  unfold bind at 1. rewrite Heq1.
  destruct (isEmpty && deleteEmptyRepos config).
  - unfold bind at 1. unfold dashLog at 1, ret at 1.
    destruct (deleteLocalRepo_step repoPath (dryRun config) w1) as (r2 & Heq2).
    unfold bind at 1. rewrite Heq2.
    destruct (deleteEmptyRepo_step repoName (username config) (githubToken config)
                (dryRun config) w1) as (r3 & w3 & Heq3 & Hsame3).
    unfold bind at 1. rewrite Heq3. unfold ret.
    eexists _, w3. split; [reflexivity|]. simpl.
    split; [done|]. split; [done|]. by rewrite Hsame3, Hsame1.
  - destruct (pushRepoSafe_step repoPath (commitMessage config) w1)
      as (r2 & w2 & Heq2 & Hsame2).
    unfold bind at 1. rewrite Heq2. unfold ret.
    eexists _, w2. split; [reflexivity|]. simpl.
    split; [done|]. split; [done|]. by rewrite Hsame2, Hsame1.
Qed.

Lemma pullPass_spec (config : Config) (tot : nat) (gh : list GhRepo) :
  searchDirs config ≠ [] →
  ∀ (st : LoopState) (w : World G),
  (∀ k p, localRepos st !! k = Some p → p ≠ "") →
  ∃ st' w',
    for_of gh (pullPassBody config tot) st w = (Ok st', w') ∧
    currentOp st' = currentOp st + length gh ∧
    (∀ k, localRepos st' !! k
          = if bool_decide (k ∈ remote_names gh)
            then None else localRepos st !! k) ∧
    progress_of (trace w')
    = (progress_of (trace w) ++ ticks tot (S (currentOp st)) (length gh))%list.
Proof.
  intros Hdirs. induction gh as [|r gh IH]; intros st w Hpaths; simpl.
  - exists st, w. unfold ret, ticks. simpl. rewrite app_nil_r.
    split; [done|]. split; [lia|]. done.
  - destruct (pullPassBody_step config tot r st w Hdirs Hpaths)
      as (st1 & w1 & Heq1 & Hop1 & Hmap1 & Hprog1).
    destruct (IH st1 w1) as (st2 & w2 & Heq2 & Hop2 & Hmap2 & Hprog2).
    { intros k p. rewrite Hmap1. intros Hk. apply lookup_delete_Some in Hk as [_ Hk].
      by eapply Hpaths. }
    exists st2, w2. unfold bind. rewrite Heq1, Heq2.
    split; [done|]. split; [lia|]. split.
    + intros k. rewrite Hmap2, Hmap1.
      destruct (decide (k = Js.toLowerCase (name r))) as [->|Hne].
      * rewrite lookup_delete_eq. rewrite (bool_decide_eq_true_2 _ (list_elem_of_here _ _)).
        by destruct (bool_decide _).
      * rewrite lookup_delete_ne by done.
        destruct (decide (k ∈ remote_names gh)) as [Hin|Hnin].
        -- rewrite !bool_decide_eq_true_2; [done| by right |done].
        -- rewrite !bool_decide_eq_false_2; [done| |done].
           intros [?|?]%elem_of_cons; done.
    + rewrite Hprog2, Hprog1, Hop1. unfold ticks. simpl. by rewrite <- app_assoc.
Qed.

Lemma pushPass_spec (config : Config) (tot : nat) (entries : list (string * string)) :
  ∀ (st : LoopState) (w : World G),
  ∃ st' w',
    for_of entries (pushPassBody config tot) st w = (Ok st', w') ∧
    currentOp st' = currentOp st + length entries ∧
    localRepos st' = localRepos st ∧
    progress_of (trace w')
    = (progress_of (trace w) ++ ticks tot (S (currentOp st)) (length entries))%list.
Proof.
  induction entries as [|entry entries IH]; intros st w; simpl.
  - exists st, w. unfold ret, ticks. simpl. rewrite app_nil_r.
    split; [done|]. split; [lia|]. done.
  - destruct (pushPassBody_step config tot entry st w)
      as (st1 & w1 & Heq1 & Hop1 & Hmap1 & Hprog1).
    destruct (IH st1 w1) as (st2 & w2 & Heq2 & Hop2 & Hmap2 & Hprog2).
    exists st2, w2. unfold bind. rewrite Heq1, Heq2.
    split; [done|]. split; [lia|]. split; [congruence|].
    rewrite Hprog2, Hprog1, Hop1. unfold ticks. simpl. by rewrite <- app_assoc.
Qed.

(** C10, as the code has it.  Both loops run to their end.  The first
    takes every remote repository once and removes a paired one from the
    map right after its pull, so the map the second loop walks holds
    exactly the local repositories whose name is not in the remote
    inventory.  The counter moves by one per turn: the progress reports
    are 1, 2, ... up to its final value, which is the remote count plus
    the number of local repositories left, that is the announced total
    less one for every paired repository. *)
Theorem reconcile_exactly_once (config : Config) (gh : list GhRepo)
    (local0 : gmap string string) (m : Machine G) :
  searchDirs config ≠ [] →
  (∀ k p, local0 !! k = Some p → p ≠ "") →
  ∃ st w',
    run (reconcile config gh local0) m = (Ok (length gh + size local0, st), w') ∧
    (∀ k, localRepos st !! k
          = if bool_decide (k ∈ remote_names gh) then None else local0 !! k) ∧
    currentOp st = length gh + size (localRepos st) ∧
    progress_of (trace w') = ticks (length gh + size local0) 1 (currentOp st) ∧
    currentOp st + size (filter (fun kv => kv.1 ∈ remote_names gh) local0)
    = length gh + size local0.
Proof.
  intros Hdirs Hpaths. unfold run, reconcile. cbv zeta.
  set (tot := length gh + size local0).
  destruct (pullPass_spec config tot gh Hdirs (mkLoop zero_results 0 local0)
              (mkWorld m []) Hpaths) as (st1 & w1 & Heq1 & Hop1 & Hmap1 & Hprog1).
  destruct (pushPass_spec config tot (map_to_list (localRepos st1)) st1 w1)
    as (st2 & w2 & Heq2 & Hop2 & Hmap2 & Hprog2).
  simpl in Hop1, Hmap1, Hprog1.
  exists st2, w2. unfold bind. rewrite Heq1, Heq2. unfold ret.
  rewrite length_map_to_list in Hop2, Hprog2.
  split; [done|]. rewrite Hmap2.
  split; [exact Hmap1|]. split; [lia|].
  split.
  { rewrite Hprog2, Hprog1, Hop2, Hop1. unfold ticks.
    rewrite <- map_app, <- seq_app. done. }
  assert (Hrest : localRepos st1 = filter (fun kv => ¬ kv.1 ∈ remote_names gh) local0).
  { apply map_eq. intros k. apply option_eq. intros p.
    rewrite Hmap1, map_lookup_filter_Some. simpl.
    destruct (decide (k ∈ remote_names gh)) as [Hin|Hnin].
    - rewrite bool_decide_eq_true_2 by done. split; [done|tauto].
    - rewrite bool_decide_eq_false_2 by done. tauto. }
  pose proof (map_filter_union_complement (fun kv => kv.1 ∈ remote_names gh) local0) as Hu.
  pose proof (map_disjoint_filter_complement (fun kv => kv.1 ∈ remote_names gh) local0) as Hd.
  apply map_size_disj_union in Hd. rewrite Hu in Hd. rewrite <- Hrest in Hd.
  unfold tot. lia.
Qed.

End Orchestrator.

Lemma reconcile_exactly_once_witness :
  ∃ st w',
    run (reconcile Ex.config Ex.remote_inventory Ex.local_inventory) Ex.quiet_machine
    = (Ok (2%nat, st), w') ∧
    currentOp st = 1%nat ∧
    progress_of (trace w') = [(1%nat, 2%nat)].
Proof.
  destruct (reconcile_exactly_once Ex.config Ex.remote_inventory Ex.local_inventory
              Ex.quiet_machine) as (st & w' & Heq & Hmap & Hop & Hprog & _).
  - done.
  - unfold Ex.local_inventory. intros k p [_ <-]%lookup_singleton_Some. done.
  - exists st, w'. split; [exact Heq|].
    assert (Hsize : size (localRepos st) = 0%nat).
    { apply map_size_empty_iff, map_eq. intros k. rewrite Hmap, lookup_empty.
      unfold Ex.local_inventory.
      destruct (decide (k = "notes")) as [->|Hne]; [done|].
      case_bool_decide; [done|]. by apply lookup_singleton_None. }
    rewrite Hsize in Hop. simpl in Hop. rewrite Hop in Hprog. split; [exact Hop|exact Hprog].
Defined.

(** C10, as the specification words it, fails as soon as one repository
    is on both sides: the counter ends at 1, the total announced is 2. *)
Lemma paired_repository_counted_once :
  ¬ progress_total_spec Ex.config Ex.remote_inventory Ex.local_inventory Ex.quiet_machine.
Proof.
  intros (tot & st & w' & Heq & Hcur).
  vm_compute in Heq. injection Heq as _ <- _.
  vm_compute in Hcur. discriminate.
Qed.

(** ** Further runs on explicit inputs *)

(** Second file of a batch: its [local]-marked backup is taken after the
    stash and pull of the first file, so it holds the pulled bytes. *)
Example second_file_backup_is_remote :
  let w := mkWorld Ex.both_changed_machine [] in
  let w' := (resolveConflicts "repo" [Ex.conflict_a; Ex.conflict_b] w).2 in
  outcomes_of (resolveConflicts "repo" [Ex.conflict_a; Ex.conflict_b] w).1
  = [RemoteNewer; RemoteNewer]
  ∧ content <$> fs (mach w') !! ("repo/a.txt.local." ++ Ex.stamp) = Some "LOCAL-A"
  ∧ content <$> fs (mach w') !! ("repo/b.txt.local." ++ Ex.stamp) = Some "REMOTE-B".
Proof. vm_compute. done. Qed.

(** Same bytes on both sides but a later local modification time: the
    time test comes first and the outcome is local-newer. *)
Example same_bytes_local_later :
  outcomes_of
    (resolveConflicts "repo"
       [mkConflict "a.txt" "repo/a.txt" 40 (Some "SAME")]
       (mkWorld Ex.same_bytes_machine [])).1
  = [LocalNewer].
Proof. vm_compute. done. Qed.

(** Both pushes rejected: a failure, and two pushes in all. *)
Example push_rejected_twice :
  (pushRepoSafe "repo" "sync {date}" Ex.refused_world).1 = Ok (NotPushed "rejected" None) ∧
  count (git_call is_push) (trace (pushRepoSafe "repo" "sync {date}" Ex.refused_world).2)
  = 2%nat.
Proof. vm_compute. done. Qed.

(** ** Beyond the claims: the helpers and the detector *)

Section StringFacts.

Local Open Scope string_scope.

Lemma append_length (s t : string) :
  String.length (s ++ t) = (String.length s + String.length t)%nat.
Proof.
  induction s as [|c s IH]; [reflexivity|].
  rewrite append_cons. simpl. by rewrite IH.
Qed.

(** A path is never its own backup path. *)
Lemma backup_path_fresh (p suffix : string) : p ≠ p ++ "." ++ suffix.
Proof.
  intros Heq. apply (f_equal String.length) in Heq.
  rewrite append_length, append_cons in Heq. simpl in Heq. lia.
Qed.

Lemma includes_elem_of (l : list string) (x : string) :
  Js.includes l x = true ↔ x ∈ l.
Proof.
  unfold Js.includes. rewrite existsb_exists. split.
  - intros (y & Hy & Heq). apply String.eqb_eq in Heq as ->. by apply list_elem_of_In.
  - intros Hx. exists x. split; [by apply list_elem_of_In|apply String.eqb_refl].
Qed.

End StringFacts.

Section Helpers.

Context {G : Type} `{!Host G}.

Local Open Scope js_scope.

(** When the file exists, [backupFile] returns the backup path, the
    backup then has the digest of the original, the original keeps its
    digest, and no other path changes.  When it does not, [backupFile]
    returns [null] and leaves the disk as it is. *)
Theorem backupFile_copy (p suffix : string) (w : World G) :
  (∀ f, fs (mach w) !! p = Some f →
     (backupFile p suffix w).1 = Ok (Some (p ++ "." ++ suffix)) ∧
     (getFileHash (p ++ "." ++ suffix) (backupFile p suffix w).2).1
     = Ok (Some (md5_hex (content f))) ∧
     (getFileHash p (backupFile p suffix w).2).1 = (getFileHash p w).1 ∧
     ∀ q, q ≠ p ++ "." ++ suffix →
          fs (mach (backupFile p suffix w).2) !! q = fs (mach w) !! q) ∧
  (fs (mach w) !! p = None →
     (backupFile p suffix w).1 = Ok None ∧
     fs (mach (backupFile p suffix w).2) = fs (mach w)).
Proof.
  rewrite backupFile_eq. split.
  - intros f Hf. rewrite Hf. simpl. split; [done|].
    rewrite !getFileHash_eq. simpl.
    rewrite lookup_insert_eq, lookup_insert_ne by apply not_eq_sym, backup_path_fresh.
    split; [done|]. split; [done|].
    intros q Hq. by rewrite lookup_insert_ne.
  - intros Hnone. by rewrite Hnone.
Qed.

(** The fingerprinting loop in closed form: the local files that are
    also remote changes, in order, each fingerprinted from the disk. *)
Lemma detectLoop_closed (repoPath : string) (remoteChanges localChanges : list string)
    (acc : list Conflict) (w : World G) :
  for_of localChanges (detectLoopBody repoPath remoteChanges) acc w
  = (Ok (acc ++ map (fingerprint repoPath (mach w))
                    (filter (fun f => f ∈ remoteChanges) localChanges))%list, w).
Proof.
  revert acc. induction localChanges as [|f l IH]; intros acc; simpl.
  - rewrite ?filter_nil. simpl. by rewrite app_nil_r.
  - unfold bind at 1. unfold detectLoopBody at 1.
    destruct (Js.includes remoteChanges f) eqn:Hinc.
    + apply includes_elem_of in Hinc.
      unfold bind. rewrite getFileMtime_eq, getFileHash_eq. simpl.
      rewrite IH, filter_cons_True by done. simpl. by rewrite <- app_assoc.
    + assert (Hnin : f ∉ remoteChanges).
      { intros Hin. apply includes_elem_of in Hin. congruence. }
      simpl. rewrite IH, filter_cons_False by done. done.
Qed.

(** The conflict set is the intersection of the locally modified files
    and the non-blank lines of the name-only diff, in status order, each
    with the path inside the repository and the modification time and
    digest found on disk; a conflict is flagged exactly when the set is
    not empty. *)
Theorem detectConflicts_intersection (repoPath : string) (m m1 m2 m3 : Machine G)
    (st : StatusResult) (v : GitVal) (d : string) :
  git_exec repoPath GStatus m = (Ok (VStatus st), m1) →
  git_exec repoPath GFetch m1 = (Ok v, m2) →
  git_exec repoPath (GDiff [current st; "origin/" ++ current st; "--name-only"]) m2
  = (Ok (VString d), m3) →
  sfiles st ≠ [] →
  let cs := map (fingerprint repoPath m3)
                (filter (fun f => f ∈ remote_changes d) (map fpath (sfiles st))) in
  (run (detectConflicts repoPath) m).1
  = Ok (mkCheck (match cs with [] => false | _ => true end) cs).
Proof.
  intros Hs Hf Hd Hne cs. unfold detectConflicts. unfold_m. simpl.
  assert (Hl : (length (map fpath (sfiles st)) =? 0)%nat = false)
    by (destruct (sfiles st); done).
  rewrite Hs. simpl. rewrite Hf. simpl. rewrite Hl. simpl.
  simpl in Hd. rewrite Hd. simpl.
  fold (remote_changes d).
  destruct (length (remote_changes d) =? 0)%nat eqn:Hlen.
  - apply Nat.eqb_eq in Hlen. destruct (remote_changes d) eqn:Hrc; [|done].
    subst cs. simpl.
    assert (Hnil : ∀ l : list string, filter (fun f => f ∈ @nil string) l = []).
    { intros l. apply elem_of_nil_inv.
      intros x [Hx _]%list_elem_of_filter. by apply elem_of_nil in Hx. }
    rewrite Hnil. reflexivity.
  - match goal with |- context [for_of ?l (detectLoopBody ?rp ?rc) ?a ?w] =>
      rewrite (detectLoop_closed rp rc l a w) end.
    simpl. subst cs. simpl.
    set (l := map (fingerprint repoPath m3) _). by destruct l.
Qed.

(** The detector only reads: at most a status, then a fetch, then the
    name-only diff against the upstream branch, in that order; nothing
    else is issued and no file is copied. *)
Theorem detectConflicts_commands (repoPath : string) (m : Machine G) :
  let t := trace (run (detectConflicts repoPath) m).2 in
  (∃ o1, t = [EGit repoPath GStatus o1]) ∨
  (∃ o2, t = [EGit repoPath GFetch o2; EGit repoPath GStatus true]) ∨
  (∃ o3 branch,
     t = [EGit repoPath (GDiff [branch; "origin/" ++ branch; "--name-only"]) o3;
          EGit repoPath GFetch true; EGit repoPath GStatus true]).
Proof.
  unfold detectConflicts. unfold_m. simpl.
  destruct (git_exec repoPath GStatus m) as [[[]|] m1]; simpl; eauto.
  destruct (git_exec repoPath GFetch m1) as [[|] m2]; simpl; eauto.
  destruct (length (map fpath (sfiles s)) =? 0)%nat; simpl; eauto.
  destruct (git_exec repoPath (GDiff _) m2) as [[[]|] m3]; simpl; eauto 10.
  match goal with |- context [(length ?l =? 0)%nat] => destruct (length l =? 0)%nat end;
    simpl; eauto 10.
  match goal with |- context [for_of ?l (detectLoopBody ?rp ?rc) ?a ?w] =>
    rewrite (detectLoop_closed rp rc l a w) end.
  simpl. eauto 10.
Qed.

End Helpers.

Lemma backupFile_copy_witness :
  (backupFile "repo/a.txt" "local.t" (mkWorld Ex.local_later_machine [])).1
  = Ok (Some "repo/a.txt.local.t").
Proof.
  apply (proj1 (backupFile_copy "repo/a.txt" "local.t"
                  (mkWorld Ex.local_later_machine [])) (mkFile "LOCAL" 20)).
  reflexivity.
Defined.

Lemma detectConflicts_intersection_witness :
  (run (detectConflicts "repo") Ex.both_changed_machine).1
  = Ok (mkCheck true [Ex.conflict_a; Ex.conflict_b]).
Proof.
  exact (detectConflicts_intersection "repo" Ex.both_changed_machine
           Ex.both_changed_machine Ex.both_changed_machine Ex.both_changed_machine
           (mkStatus "main" [mkFileStatus "a.txt"; mkFileStatus "b.txt"]) VUnit
           ("a.txt" ++ nl ++ "b.txt" ++ nl)
           eq_refl eq_refl eq_refl ltac:(discriminate)).
Defined.

(** ** Beyond the claims: the resolver and the Safe Puller *)

Section ResolverMore.

Context {G : Type} `{!Host G}.

Local Open Scope js_scope.

(** The [local]- and [remote]-marked backups of a path are two files. *)
Lemma local_remote_distinct (p ts : string) :
  p ++ "." ++ "local." ++ ts ≠ p ++ "." ++ "remote." ++ ts.
Proof.
  intros Heq. apply (inj (String.app p)) in Heq. discriminate.
Qed.

(** Steps 4 and 5, from the files that steps 1 to 3 left on disk: [fr]
    at the path and [fl] at the backup path. *)
Lemma keepNewer_after_setAside (repoPath : string) (c : Conflict) (w w3 : World G)
    (b : string) (fr fl : File) :
  setAside repoPath c w = (Ok (Some b), w3) →
  fs (mach w3) !! path c = Some fr →
  fs (mach w3) !! b = Some fl →
  ∃ r w4,
    resolveAttempt repoPath c w = (Ok (r, false), w4) ∧
    content <$> fs (mach w4) !! path c
    = Some (if localMtime c >? mtimeMs fr then content fl else content fr) ∧
    fs (mach w4) !! b = Some fl ∧
    (resolution r = LocalNewer ↔ localMtime c > mtimeMs fr).
Proof.
  intros Hset Hpath Hb.
  destruct (resolveAttempt_setAside repoPath c w w3 b Hset) as (Hbeq & _ & Hrun).
  rewrite Hrun, keepNewer_eq. cbv zeta. rewrite Hpath, Hb. simpl from_option.
  set (ts := Js.dashColonsDots _) in *.
  assert (Hb1 : b ≠ path c) by (rewrite Hbeq; apply not_eq_sym, backup_path_fresh).
  assert (Hb2 : b ≠ path c ++ "." ++ "remote." ++ ts)
    by (rewrite Hbeq; apply local_remote_distinct).
  assert (Hp : path c ≠ path c ++ "." ++ "remote." ++ ts) by apply backup_path_fresh.
  destruct (localMtime c >? mtimeMs fr) eqn:Hgt.
  - eexists _, _. split; [reflexivity|]. simpl.
    rewrite lookup_insert_ne, lookup_insert_eq by done.
    rewrite !lookup_insert_ne by done.
    split; [done|]. split; [done|]. split; [intros _; by apply Z.gtb_gt|done].
  - assert (Hle : ¬ localMtime c > mtimeMs fr).
    { intros Habs. apply Z.gtb_gt in Habs. congruence. }
    destruct (bool_decide _).
    + eexists _, _. split; [reflexivity|]. simpl. rewrite Hpath.
      split; [done|]. split; [done|]. split; [discriminate|done].
    + eexists _, _. split; [reflexivity|]. simpl.
      rewrite !lookup_insert_ne by done. rewrite Hpath.
      split; [done|]. split; [done|]. split; [discriminate|done].
Qed.

Lemma keepNewer_remote_newer_files (repoPath : string) (c : Conflict)
    (w w3 : World G) (b : string) (fr fl : File) :
  setAside repoPath c w = (Ok (Some b), w3) →
  fs (mach w3) !! path c = Some fr →
  fs (mach w3) !! b = Some fl →
  localMtime c ≤ mtimeMs fr →
  localHash c ≠ Some (md5_hex (content fr)) →
  ∃ r w4,
    resolveAttempt repoPath c w = (Ok (r, false), w4) ∧
    resolution r = RemoteNewer ∧
    fs (mach w4) !! path c = Some fr ∧
    fs (mach w4) !! b = Some fl ∧
    content <$> fs (mach w4) !! (path c ++ "." ++ "remote."
                                   ++ Js.dashColonsDots (now_iso (ext (mach w))))
    = Some (content fr).
Proof.
  intros Hset Hpath Hb Hle Hhash.
  destruct (resolveAttempt_setAside repoPath c w w3 b Hset) as (Hbeq & _ & Hrun).
  rewrite Hrun, keepNewer_eq. cbv zeta. rewrite Hpath. simpl from_option.
  set (ts := Js.dashColonsDots _) in *.
  assert (Hb2 : b ≠ path c ++ "." ++ "remote." ++ ts)
    by (rewrite Hbeq; apply local_remote_distinct).
  assert (Hp : path c ≠ path c ++ "." ++ "remote." ++ ts) by apply backup_path_fresh.
  assert (Hgt : (localMtime c >? mtimeMs fr) = false).
  { apply not_true_iff_false. rewrite Z.gtb_gt. lia. }
  rewrite Hgt, bool_decide_eq_false_2 by done.
  eexists _, _. split; [reflexivity|]. simpl.
  rewrite !lookup_insert_ne by done. rewrite lookup_insert_eq.
  done.
Qed.

(** What step 1 leaves at the backup path, when the stash and the pull
    do not touch it. *)
Lemma setAside_backup (repoPath : string) (c : Conflict) (w w3 : World G)
    (b : string) (f0 : File) :
  fs (mach w) !! path c = Some f0 →
  setAside repoPath c w = (Ok (Some b), w3) →
  fs (mach w3) !! b
  = fs (mach (backupFile (path c)
                ("local." ++ Js.dashColonsDots (now_iso (ext (mach w)))) w).2) !! b →
  fs (mach w3) !! b = Some (mkFile (content f0) (now_ms (ext (mach w)))).
Proof.
  intros Hf0 Hset Hkept.
  destruct (resolveAttempt_setAside repoPath c w w3 b Hset) as (Hbeq & _ & _).
  rewrite Hkept, backupFile_eq, Hf0. simpl. rewrite Hbeq. by rewrite lookup_insert_eq.
Qed.

(** Which version ends at the resolved path.  The file holds [f0] when
    its resolution starts.  When steps 1 to 3 went through, with the
    stash and the pull leaving the fresh [local]-marked backup as it was
    (it is covered by an ignore rule) and the pulled file [fr] at the
    path, the attempt succeeds; the path then holds the bytes of [f0] if
    the local modification time is strictly later than that of the pulled
    file, and the pulled bytes otherwise; the outcome is [local-newer]
    exactly in the first case; the backup holds the bytes of [f0]. *)
Theorem resolveAttempt_winner (repoPath : string) (c : Conflict) (w w3 : World G)
    (b : string) (f0 fr : File) :
  fs (mach w) !! path c = Some f0 →
  setAside repoPath c w = (Ok (Some b), w3) →
  fs (mach w3) !! b
  = fs (mach (backupFile (path c)
                ("local." ++ Js.dashColonsDots (now_iso (ext (mach w)))) w).2) !! b →
  fs (mach w3) !! path c = Some fr →
  ∃ r w4,
    resolveAttempt repoPath c w = (Ok (r, false), w4) ∧
    content <$> fs (mach w4) !! path c
    = Some (if localMtime c >? mtimeMs fr then content f0 else content fr) ∧
    content <$> fs (mach w4) !! b = Some (content f0) ∧
    (resolution r = LocalNewer ↔ localMtime c > mtimeMs fr).
Proof.
  intros Hf0 Hset Hkept Hpath.
  pose proof (setAside_backup repoPath c w w3 b f0 Hf0 Hset Hkept) as Hb.
  destruct (keepNewer_after_setAside repoPath c w w3 b fr _ Hset Hpath Hb)
    as (r & w4 & Hrun & Hwin & Hback & Hout).
  exists r, w4. split; [exact Hrun|]. split; [exact Hwin|].
  split; [by rewrite Hback|exact Hout].
Qed.

(** In the remote-newer case both versions are on disk afterwards.  The
    file holds [f0] when its resolution starts; the stash and the pull
    leave the fresh [local]-marked backup as it was and put the pulled
    file [fr] at the path, not older than the local one and with another
    digest than the one recorded.  Then the outcome is [remote-newer],
    the pulled file stays at the path, the [local]-marked backup holds
    the bytes of [f0], and the [remote]-marked backup holds the pulled
    bytes. *)
Theorem resolveAttempt_remote_newer_keeps_both (repoPath : string) (c : Conflict)
    (w w3 : World G) (b : string) (f0 fr : File) :
  fs (mach w) !! path c = Some f0 →
  setAside repoPath c w = (Ok (Some b), w3) →
  fs (mach w3) !! b
  = fs (mach (backupFile (path c)
                ("local." ++ Js.dashColonsDots (now_iso (ext (mach w)))) w).2) !! b →
  fs (mach w3) !! path c = Some fr →
  localMtime c ≤ mtimeMs fr →
  localHash c ≠ Some (md5_hex (content fr)) →
  ∃ r w4,
    resolveAttempt repoPath c w = (Ok (r, false), w4) ∧
    resolution r = RemoteNewer ∧
    fs (mach w4) !! path c = Some fr ∧
    content <$> fs (mach w4) !! b = Some (content f0) ∧
    content <$> fs (mach w4) !! (path c ++ "." ++ "remote."
                                   ++ Js.dashColonsDots (now_iso (ext (mach w))))
    = Some (content fr).
Proof.
  intros Hf0 Hset Hkept Hpath Hle Hhash.
  pose proof (setAside_backup repoPath c w w3 b f0 Hf0 Hset Hkept) as Hb.
  destruct (keepNewer_remote_newer_files repoPath c w w3 b fr _ Hset Hpath Hb Hle Hhash)
    as (r & w4 & Hrun & Hout & Hp & Hback & Hremote).
  exists r, w4. split; [exact Hrun|]. split; [exact Hout|]. split; [exact Hp|].
  split; [by rewrite Hback|exact Hremote].
Qed.

(** Without an ignore rule for the backups, [stash -u] takes the fresh
    backup off the disk with the other untracked files.  When the local
    file is then the newer one, restoring it fails: the copy of line 203
    throws ENOENT, the outcome of the file is [failed], and the working
    tree is left as the pull made it, with the pulled file at the path
    and no backup. *)
Theorem resolveOne_swept_backup (repoPath : string) (c : Conflict)
    (rs : list Resolution) (w w3 : World G) (b : string) (fr : File) :
  setAside repoPath c w = (Ok (Some b), w3) →
  fs (mach w3) !! b = None →
  fs (mach w3) !! path c = Some fr →
  localMtime c > mtimeMs fr →
  resolveOne repoPath c rs w
  = (Ok (rs ++ [failedResolution c "ENOENT"])%list,
     emit (ECopy b (path c) false) w3).
Proof.
  intros Hset Hb Hpath Hgt.
  destruct (resolveAttempt_setAside repoPath c w w3 b Hset) as (_ & _ & Hrun).
  unfold resolveOne, try_catch at 1. unfold bind at 1. rewrite Hrun.
  apply Z.gtb_gt in Hgt.
  rewrite keepNewer_eq. cbv zeta. rewrite Hpath, Hb. simpl from_option.
  rewrite Hgt. unfold bind, dashLog, ret. reflexivity.
Qed.

Lemma keepNewer_file (c : Conflict) (ts b : string) (w : World G) (r : Resolution) :
  (keepNewer c ts b w).1 = Ok r → rfile r = file c.
Proof.
  rewrite keepNewer_eq. cbv zeta.
  repeat case_match; simpl; intros [= <-]; reflexivity.
Qed.

(** One iteration appends one or two entries, all for its own file. *)
Lemma resolveOne_entries (repoPath : string) (c : Conflict) (rs : list Resolution)
    (w : World G) :
  ∃ new w',
    resolveOne repoPath c rs w = (Ok (rs ++ new)%list, w') ∧
    (1 ≤ length new ≤ 2)%nat ∧
    Forall (fun r => rfile r = file c) new.
Proof.
  unfold resolveOne, resolveAttempt.
  unfold try_catch at 1. unfold bind at 1. unfold bind at 1.
  unfold timestamp_now at 1. unfold bind at 1. rewrite backupFile_eq.
  set (ts := Js.dashColonsDots _).
  destruct (fs (mach w) !! path c) as [f|] eqn:Hf.
  - unfold bind at 1. unfold git at 1. simpl mach.
    destruct (git_exec repoPath (stashCmd ts) _) as [[v1|e1] m1] eqn:Hstash.
    + unfold bind at 1. unfold git at 1. simpl mach.
      destruct (git_exec repoPath GPull m1) as [[v2|e2] m2] eqn:Hpull.
      * unfold bind at 1.
        match goal with |- context [keepNewer ?a ?b ?d ?x] =>
          pose proof (keepNewer_file a b d x) as Hkf;
          destruct (keepNewer a b d x) as [[r|e] w3] end.
        -- specialize (Hkf r eq_refl).
           unfold try_catch, bind, ret, git, dashLog. simpl.
           destruct (git_exec repoPath (GAdd (file c)) (mach w3)) as [[v4|e4] m4].
           ++ eexists [r], _. split; [reflexivity|]. simpl. split; [lia|].
              by repeat constructor.
           ++ eexists [r; failedResolution c e4], _.
              split; [simpl; by rewrite <- app_assoc|]. simpl. split; [lia|].
              by repeat constructor.
        -- eexists [failedResolution c e], _.
           split; [reflexivity|]. simpl. split; [lia|]. by repeat constructor.
      * eexists [failedResolution c e2], _.
        split; [reflexivity|]. simpl. split; [lia|]. by repeat constructor.
    + eexists [failedResolution c e1], _.
      split; [reflexivity|]. simpl. split; [lia|]. by repeat constructor.
  - eexists [_], _. split; [reflexivity|]. simpl. split; [lia|]. by repeat constructor.
Qed.

Lemma resolveLoop_entries (repoPath : string) (cs : list Conflict) :
  ∀ (rs : list Resolution) (w : World G),
  ∃ new w',
    for_of cs (resolveOne repoPath) rs w = (Ok (rs ++ new)%list, w') ∧
    (length cs ≤ length new ≤ 2 * length cs)%nat ∧
    (∀ r, r ∈ new → rfile r ∈ map file cs) ∧
    (∀ c, c ∈ cs → ∃ r, r ∈ new ∧ rfile r = file c).
Proof.
  induction cs as [|c cs IH]; intros rs w; simpl.
  - exists [], w. rewrite app_nil_r. unfold ret. split; [done|]. split; [simpl; lia|].
    split; [intros r Hr|intros c Hc]; by apply elem_of_nil in Hr || apply elem_of_nil in Hc.
  - destruct (resolveOne_entries repoPath c rs w) as (new1 & w1 & Heq & Hlen1 & Hfiles1).
    destruct (IH (rs ++ new1)%list w1) as (new2 & w2 & Heq2 & Hlen2 & Hsound & Hcompl).
    exists (new1 ++ new2)%list, w2.
    unfold bind. rewrite Heq, Heq2, app_assoc. split; [done|].
    rewrite length_app. split; [lia|]. split.
    + intros r [Hr|Hr]%elem_of_app.
      * rewrite (proj1 (Forall_forall _ _) Hfiles1 r Hr). left.
      * right. by apply Hsound.
    + intros c' [->|Hc]%elem_of_cons.
      * destruct new1 as [|r1 new1]; [simpl in Hlen1; lia|].
        exists r1. split; [apply elem_of_app; left; left|].
        by apply Forall_cons in Hfiles1 as [? _].
      * destruct (Hcompl c' Hc) as (r & Hr & Hfile).
        exists r. split; [apply elem_of_app; by right|done].
Qed.

End ResolverMore.

Lemma resolveAttempt_winner_witness :
  ∃ r w4,
    resolveAttempt "repo" Ex.conflict_local (mkWorld Ex.local_later_machine [])
    = (Ok (r, false), w4) ∧
    content <$> fs (mach w4) !! "repo/a.txt" = Some "LOCAL".
Proof.
  destruct (resolveAttempt_winner "repo" Ex.conflict_local
              (mkWorld Ex.local_later_machine [])
              (setAside "repo" Ex.conflict_local (mkWorld Ex.local_later_machine [])).2
              ("repo/a.txt.local." ++ Ex.stamp)
              (mkFile "LOCAL" 20) (mkFile "REMOTE" 10))
    as (r & w4 & Heq & Hc & _).
  - vm_compute. reflexivity.
  - vm_compute. reflexivity.
  - vm_compute. reflexivity.
  - vm_compute. reflexivity.
  - exists r, w4. split; [exact Heq|exact Hc].
Defined.

Lemma resolveAttempt_remote_newer_keeps_both_witness :
  ∃ r w4,
    resolveAttempt "repo" Ex.conflict_a (mkWorld Ex.both_changed_machine [])
    = (Ok (r, false), w4) ∧
    resolution r = RemoteNewer ∧
    content <$> fs (mach w4) !! "repo/a.txt" = Some "REMOTE-A" ∧
    content <$> fs (mach w4) !! ("repo/a.txt.local." ++ Ex.stamp) = Some "LOCAL-A" ∧
    content <$> fs (mach w4) !! ("repo/a.txt.remote." ++ Ex.stamp) = Some "REMOTE-A".
Proof.
  destruct (resolveAttempt_remote_newer_keeps_both "repo" Ex.conflict_a
              (mkWorld Ex.both_changed_machine [])
              (setAside "repo" Ex.conflict_a (mkWorld Ex.both_changed_machine [])).2
              ("repo/a.txt.local." ++ Ex.stamp)
              (mkFile "LOCAL-A" 20) (mkFile "REMOTE-A" 30))
    as (r & w4 & Heq & Hr & Hp & Hb & Hrb).
  - vm_compute. reflexivity.
  - vm_compute. reflexivity.
  - vm_compute. reflexivity.
  - vm_compute. reflexivity.
  - vm_compute. discriminate.
  - vm_compute. discriminate.
  - exists r, w4. split; [exact Heq|]. split; [exact Hr|].
    split; [exact (f_equal (fmap content) Hp)|].
    split; [exact Hb|exact Hrb].
Defined.

Lemma resolveOne_swept_backup_witness :
  ∃ w',
    resolveOne "repo" Ex.conflict_local [] More.local_later_swept
    = (Ok [failedResolution Ex.conflict_local "ENOENT"], w') ∧
    content <$> fs (mach w') !! "repo/a.txt" = Some "REMOTE" ∧
    fs (mach w') !! ("repo/a.txt.local." ++ Ex.stamp) = None.
Proof.
  eexists. split.
  - apply (resolveOne_swept_backup "repo" Ex.conflict_local [] More.local_later_swept
             (setAside "repo" Ex.conflict_local More.local_later_swept).2
             ("repo/a.txt.local." ++ Ex.stamp) (mkFile "REMOTE" 10)).
    + vm_compute. reflexivity.
    + vm_compute. reflexivity.
    + vm_compute. reflexivity.
    + vm_compute. reflexivity.
  - split; vm_compute; reflexivity.
Defined.

Section PullerMore.

Context {G : Type} `{!Host G}.

Local Open Scope js_scope.

#[local] Instance adds_only_preorder (P : Event → bool) : PreOrder (adds_only (G:=G) P).
Proof.
  split.
  - intros w. by exists [].
  - intros w1 w2 w3 (e1 & H1 & F1) (e2 & H2 & F2).
    exists (e2 ++ e1)%list. rewrite H2, H1, app_assoc. split; [done|].
    by rewrite forallb_app, F1, F2.
Qed.

Lemma adds_only_git (P : Event → bool) (repoPath : string) (c : GitCmd) :
  (∀ ok, P (EGit repoPath c ok) = true) → respects (adds_only P) (git repoPath c).
Proof.
  intros HP w. unfold git. destruct (git_exec repoPath c (mach w)) as [r m'].
  exists [EGit repoPath c (is_ok r)]. simpl. by rewrite HP.
Qed.

Lemma adds_only_copy (P : Event → bool) (src dst : string) :
  (∀ ok, P (ECopy src dst ok) = true) → respects (adds_only P) (copyFile src dst).
Proof.
  intros HP w. unfold copyFile. destruct (fs (mach w) !! src).
  - exists [ECopy src dst true]. simpl. by rewrite HP.
  - exists [ECopy src dst false]. simpl. by rewrite HP.
Qed.

Lemma outcome_partition (rs : list Resolution) :
  (resolvedCount rs + count_outcome Skipped rs + count_outcome Failed rs = length rs)%nat.
Proof.
  unfold resolvedCount, count_outcome.
  induction rs as [|r rs IH]; [done|].
  rewrite !filter_cons. simpl length.
  destruct (resolution r) eqn:Hr;
    repeat (case_decide; simpl length); try lia; try tauto; try congruence.
  all: exfalso; eauto; match goal with H : ¬ (_ ∧ _) |- _ => apply H; split; discriminate end.
Qed.

(** The counts of a conflict batch: the batch holds at least one
    conflict; resolved, skipped and failed together count every entry
    the resolver returned, between one and two per conflict; and
    [pulled] is set exactly when something was resolved or skipped. *)
Theorem pullRepoSafe_batch_counts (repoPath : string) (w w' : World G)
    (p : bool) (n r s f : nat) :
  pullRepoSafe repoPath w = (Ok (PullBatch p n r s f), w') →
  (1 ≤ n)%nat ∧ (n ≤ r + s + f ≤ 2 * n)%nat ∧ p = (0 <? r + s)%nat.
Proof.
  unfold pullRepoSafe, try_catch. unfold bind at 1. unfold bind at 1.
  destruct (git repoPath GStatus w) as [[v|e] w1];
    [|unfold bind, dashLog, ret; discriminate].
  destruct v; unfold as_status at 1;
    try (unfold throw, bind, dashLog, ret; discriminate).
  unfold ret at 1. unfold bind at 1.
  destruct (detectConflicts_shape repoPath w1) as (cc & w2 & -> & Hshape).
  destruct (hasConflicts cc) eqn:Hhas.
  - unfold bind at 1. unfold dashLog at 1, ret at 1.
    assert (Hentries : ∃ rs w3,
              resolveConflicts repoPath (conflicts cc) w2 = (Ok rs, w3) ∧
              (length (conflicts cc) ≤ length rs ≤ 2 * length (conflicts cc))%nat).
    { unfold resolveConflicts, bind, dashLog, ret.
      destruct (resolveLoop_entries repoPath (conflicts cc) [] w2)
        as (new & wr & Heq & Hlen & _).
      exists new, wr. by rewrite Heq. }
    destruct Hentries as (rs & w3 & Hres & Hlen).
    unfold bind at 1. rewrite Hres.
    pose proof (outcome_partition rs) as Hpart.
    symmetry in Hshape. apply Nat.ltb_lt in Hshape.
    destruct (0 <? count_outcome Failed rs)%nat;
      unfold bind, dashLog, ret; intros [= <- <- <- <- <- <-];
      (split; [lia|]; split; [lia|]);
      destruct (resolvedCount rs), (count_outcome Skipped rs); reflexivity.
  - unfold_m. intros Hrun. repeat (case_match; simplify_eq/=).
Qed.

End PullerMore.

Lemma pullRepoSafe_batch_counts_witness :
  (1 ≤ 2)%nat ∧ (2 ≤ 2 + 0 + 0 ≤ 2 * 2)%nat ∧ true = (0 <? 2 + 0)%nat.
Proof.
  apply (pullRepoSafe_batch_counts "repo" (mkWorld Ex.both_changed_machine [])
           (pullRepoSafe "repo" (mkWorld Ex.both_changed_machine [])).2
           true 2 2 0 0).
  vm_compute. reflexivity.
Defined.

(** ** Beyond the claims: the Safe Pusher *)

Section PusherMore.

Context {G : Type} `{!Host G}.

Local Open Scope js_scope.

#[local] Existing Instance same_count_preorder.

(** The Safe Puller leaves the number of successful commits as it is. *)
Lemma pullRepoSafe_no_commit (repoPath : string) (w : World G) :
  count (git_done is_commit) (trace (pullRepoSafe repoPath w).2)
  = count (git_done is_commit) (trace w).
Proof.
  apply (respects_pullRepoSafe (same_count (git_done is_commit)) puller_cmd).
  - intros rp c Hc w0. unfold same_count, git.
    destruct (git_exec rp c (mach w0)) as [r m']. simpl. by destruct c.
  - intros src dst w0. unfold same_count, copyFile.
    by destruct (fs (mach w0) !! src).
  - done.
Qed.

Lemma pullRepoSafe_no_add_commit (repoPath : string) (w : World G) :
  count (git_call is_commit) (trace (pullRepoSafe repoPath w).2)
  = count (git_call is_commit) (trace w).
Proof.
  apply (respects_pullRepoSafe (same_count (git_call is_commit)) puller_cmd).
  - intros rp c Hc w0. unfold same_count, git.
    destruct (git_exec rp c (mach w0)) as [r m']. simpl. by destruct c.
  - intros src dst w0. unfold same_count, copyFile.
    by destruct (fs (mach w0) !! src).
  - done.
Qed.

(** With a clean working tree the Safe Pusher reads the status and
    stops: the result is [no changes], and neither a fetch nor any other
    command has been issued. *)
Theorem pushRepoSafe_clean (repoPath commitMessage : string) (m m1 : Machine G)
    (st : StatusResult) :
  git_exec repoPath GStatus m = (Ok (VStatus st), m1) →
  sfiles st = [] →
  run (pushRepoSafe repoPath commitMessage) m
  = (Ok (NotPushed "no changes" None), mkWorld m1 [EGit repoPath GStatus true]).
Proof.
  intros Hs Hf. unfold pushRepoSafe, pushCommitPhase. unfold_m. simpl.
  rewrite Hs. simpl. by rewrite Hf.
Qed.

(** What phases 1 and 2 have done when they hand over to the push: the
    status listed at least one file, and exactly one commit has
    succeeded. *)
Lemma pushCommitPhase_inr (repoPath commitMessage : string) (w w1 : World G)
    (st : StatusResult) :
  pushCommitPhase repoPath commitMessage w = (Ok (inr st), w1) →
  (0 < length (sfiles st))%nat ∧
  count (git_done is_commit) (trace w1) = S (count (git_done is_commit) (trace w)).
Proof.
  unfold pushCommitPhase. unfold_m. intros Hrun.
  repeat (case_match; simplify_eq/=);
    (split; [match goal with
             | H : (length (sfiles _) =? 0)%nat = false |- _ =>
                 by apply Nat.eqb_neq, Nat.neq_0_lt_0 in H
             end|]);
    try match goal with
        | H : pullRepoSafe ?rp ?x = (_, ?y) |- _ =>
            let Hc := fresh in
            pose proof (pullRepoSafe_no_commit rp x) as Hc; rewrite H in Hc;
            simpl in Hc; rewrite Hc
        end; reflexivity.
Qed.

(** When phases 1 and 2 return early with a pull result, that pull had
    failed, and nothing has been committed. *)
Lemma pushCommitPhase_early (repoPath commitMessage : string) (w w1 : World G)
    (reason : string) (pr : PullOutcome) :
  pushCommitPhase repoPath commitMessage w = (Ok (inl (NotPushed reason (Some pr))), w1) →
  reason = "pull failed before push" ∧ pull_usable pr = false ∧
  count (git_call is_commit) (trace w1) = count (git_call is_commit) (trace w) ∧
  count (git_call is_push) (trace w1) = count (git_call is_push) (trace w).
Proof.
  intros Hrun.
  pose proof (pushCommitPhase_no_push repoPath commitMessage w) as Hnp.
  rewrite Hrun in Hnp. simpl in Hnp.
  revert Hrun. unfold pushCommitPhase. unfold_m. intros Hrun.
  repeat (case_match; simplify_eq/=).
  split; [done|]. split.
  { unfold pull_usable.
    match goal with
    | H : negb (pulled _) && negb (reason_is _ _) = true |- _ =>
        apply andb_true_iff in H as [Hp Hr]
    end.
    apply negb_true_iff in Hp, Hr. by rewrite Hp, Hr. }
  split; [|done].
  match goal with
  | H : pullRepoSafe ?rp ?x = (_, ?y) |- _ =>
      let Hc := fresh in
      pose proof (pullRepoSafe_no_add_commit rp x) as Hc; rewrite H in Hc;
      simpl in Hc; rewrite Hc
  end. reflexivity.
Qed.

(** A failure that carries a pull result means the pull before the
    commit failed: the reason is [pull failed before push], that pull was
    neither pulled nor up to date, and the run has issued neither a commit
    nor a push. *)
Theorem pushRepoSafe_aborts_before_commit (repoPath commitMessage : string)
    (w w' : World G) (reason : string) (pr : PullOutcome) :
  pushRepoSafe repoPath commitMessage w = (Ok (NotPushed reason (Some pr)), w') →
  reason = "pull failed before push" ∧ pull_usable pr = false ∧
  count (git_call is_commit) (trace w') = count (git_call is_commit) (trace w) ∧
  count (git_call is_push) (trace w') = count (git_call is_push) (trace w).
Proof.
  unfold pushRepoSafe, try_catch. unfold bind at 1.
  destruct (pushCommitPhase repoPath commitMessage w) as [[[early|st]|e] w1] eqn:Hphase.
  - unfold ret. intros [= -> <-]. by apply pushCommitPhase_early in Hphase.
  - pose proof (pushRetryPhase_shape repoPath st w1 reason (Some pr)) as Hshape.
    destruct (pushRetryPhase repoPath st w1) as [[o|e] w2]; simpl in Hshape.
    + intros [= -> <-]. done.
    + unfold bind, dashLog, ret. discriminate.
  - unfold bind, dashLog, ret. discriminate.
Qed.

(** A success means: the status listed [files] > 0 entries, exactly one
    commit succeeded in this run, the last command is an accepted push,
    and the run pushed once, or twice when [retried] is set. *)
Theorem pushRepoSafe_pushed (repoPath commitMessage : string) (w w' : World G)
    (files : nat) (retried : bool) :
  pushRepoSafe repoPath commitMessage w = (Ok (Pushed files retried), w') →
  (0 < files)%nat ∧
  head (trace w') = Some (EGit repoPath GPush true) ∧
  count (git_done is_commit) (trace w') = S (count (git_done is_commit) (trace w)) ∧
  count (git_call is_push) (trace w')
  = (count (git_call is_push) (trace w) + if retried then 2 else 1)%nat.
Proof.
  unfold pushRepoSafe, try_catch. unfold bind at 1.
  pose proof (pushCommitPhase_no_push repoPath commitMessage w) as Hnp.
  destruct (pushCommitPhase repoPath commitMessage w) as [[[early|st]|e] w1] eqn:Hphase;
    simpl in Hnp.
  - unfold ret. intros [= -> <-].
    revert Hphase. unfold pushCommitPhase. unfold_m. intros Hrun.
    repeat (case_match; simplify_eq/=).
  - destruct (pushCommitPhase_inr _ _ _ _ _ Hphase) as [Hfiles Hcommit].
    unfold pushRetryPhase, try_catch. unfold bind at 1. unfold git at 1.
    destruct (git_exec repoPath GPush (mach w1)) as [[v|e1] m2] eqn:Hpush1; simpl.
    + unfold bind, dashLog, ret. intros [= <- <- <-]. simpl.
      rewrite Hnp, Hcommit. split; [done|]. split; [done|]. split; [done|]. lia.
    + unfold bind at 1. unfold dashLog at 1, ret at 1. unfold bind at 1.
      pose proof (pullRepoSafe_no_push repoPath
                    (mkWorld m2 (EGit repoPath GPush false :: trace w1))) as Hp2.
      pose proof (pullRepoSafe_no_commit repoPath
                    (mkWorld m2 (EGit repoPath GPush false :: trace w1))) as Hc2.
      destruct (pullRepoSafe repoPath _) as [[pr|e2] w3]; simpl in Hp2, Hc2;
        [|unfold bind, dashLog, ret; discriminate].
      destruct (pull_usable pr);
        [|unfold throw, bind, dashLog, ret; discriminate].
      unfold bind at 1. unfold git at 1.
      destruct (git_exec repoPath GPush (mach w3)) as [[v|e3] m4] eqn:Hpush2; simpl;
        [|unfold bind, dashLog, ret; discriminate].
      unfold bind, dashLog, ret. intros [= <- <- <-]. simpl.
      rewrite Hp2, Hc2, Hnp, Hcommit. split; [done|]. split; [done|]. split; [done|]. lia.
  - unfold bind, dashLog, ret. discriminate.
Qed.

End PusherMore.

Lemma pushRepoSafe_clean_witness :
  run (pushRepoSafe "repo" "sync {date}") Ex.quiet_machine
  = (Ok (NotPushed "no changes" None), mkWorld Ex.quiet_machine [EGit "repo" GStatus true]).
Proof.
  apply (pushRepoSafe_clean "repo" "sync {date}" Ex.quiet_machine Ex.quiet_machine
           (mkStatus "main" [])); reflexivity.
Defined.

Lemma pushRepoSafe_aborts_before_commit_witness :
  count (git_call is_commit)
        (trace (pushRepoSafe "repo" "sync {date}" More.behind_broken_world).2) = 0%nat.
Proof.
  destruct (pushRepoSafe_aborts_before_commit "repo" "sync {date}"
              More.behind_broken_world
              (pushRepoSafe "repo" "sync {date}" More.behind_broken_world).2
              "pull failed before push" (PullNot "pull failed"))
    as (_ & _ & Hc & _).
  - vm_compute. reflexivity.
  - exact Hc.
Defined.

Lemma pushRepoSafe_pushed_witness :
  head (trace (pushRepoSafe "repo" "sync {date}" Ex.raced_world).2)
  = Some (EGit "repo" GPush true).
Proof.
  destruct (pushRepoSafe_pushed "repo" "sync {date}" Ex.raced_world
              (pushRepoSafe "repo" "sync {date}" Ex.raced_world).2 1 true)
    as (_ & Hhead & _).
  - vm_compute. reflexivity.
  - exact Hhead.
Defined.

(** ** Beyond the claims: empty repositories and their retirement *)

Section Retire.

Context {G : Type} `{!Host G}.

Local Open Scope js_scope.


Lemma api_outcome_ok (r : Res Response) :
  is_ok (api_outcome r) = true ↔
  ∃ response, r = Ok response ∧ resp_ok response = true ∧
              resp_body response ≠ "" ∧ json_text (resp_body response) = true.
Proof.
  unfold api_outcome, response_json. destruct r as [response|e]; simpl.
  - destruct (resp_ok response) eqn:Hok; simpl.
    + destruct (String.eqb (resp_body response) "") eqn:Hbody; simpl.
      * apply String.eqb_eq in Hbody. split; [done|].
        intros (r' & [= <-] & _ & Hne & _). done.
      * apply String.eqb_neq in Hbody.
        destruct (json_text (resp_body response)) eqn:Hjson; simpl.
        -- split; [|done]. intros _. by exists response.
        -- split; [done|]. intros (r' & [= <-] & _ & _ & Hj). congruence.
    + split; [done|]. intros (r' & [= <-] & Hok' & _). congruence.
  - split; [done|]. intros (r' & [=] & _).
Qed.

(** In a dry run [deleteEmptyRepo] sends nothing and leaves the world as
    it is.  Otherwise it never throws and sends exactly one DELETE
    request, for [/repos/<username>/<repoName>]; it reports [deleted]
    exactly when [githubApi] resolved, and that is when the fetch
    resolved with a response that is [ok] and whose body is JSON text,
    hence not empty. *)
Theorem deleteEmptyRepo_requests (repoName user token : string) (dry : bool)
    (m : Machine G) :
  if dry then
    run (deleteEmptyRepo repoName user token dry) m = (Ok DryRun, mkWorld m [])
  else
    ∃ r,
      (run (deleteEmptyRepo repoName user token dry) m).1 = Ok r ∧
      trace (run (deleteEmptyRepo repoName user token dry) m).2
      = [EApi "DELETE" ("/repos/" ++ user ++ "/" ++ repoName) (deleted r)] ∧
      (deleted r = true ↔
       ∃ response,
         (fetch_exec ("/repos/" ++ user ++ "/" ++ repoName) token "DELETE" m).1
         = Ok response ∧
         resp_ok response = true ∧ resp_body response ≠ "" ∧
         json_text (resp_body response) = true).
Proof.
  unfold deleteEmptyRepo. unfold_m. destruct dry; simpl; [done|].
  pose proof (api_outcome_ok (fetch_exec ("/repos/" ++ user ++ "/" ++ repoName)
                                token "DELETE" m).1) as Hiff.
  destruct (fetch_exec _ _ _ m) as [r m']; simpl in *.
  destruct (api_outcome r) as [v|e]; simpl in *.
  - exists Deleted. done.
  - exists (DeleteError e). done.
Qed.

(** GitHub answers a DELETE that succeeded with [204 No Content] and an
    empty body.  On such an answer [response.json()] rejects, so
    [deleteEmptyRepo] reports [{deleted: false, error}] for a repository
    that has just been deleted. *)
Theorem deleteEmptyRepo_no_content (repoName user token : string) (m m' : Machine G)
    (response : Response) :
  fetch_exec ("/repos/" ++ user ++ "/" ++ repoName) token "DELETE" m
  = (Ok response, m') →
  resp_ok response = true → resp_body response = "" →
  run (deleteEmptyRepo repoName user token false) m
  = (Ok (DeleteError "Unexpected end of JSON input"),
     mkWorld m' [EApi "DELETE" ("/repos/" ++ user ++ "/" ++ repoName) false]).
Proof.
  intros Hfetch Hok Hbody. unfold deleteEmptyRepo. unfold_m. simpl.
  rewrite Hfetch. unfold api_outcome, response_json. rewrite Hok, Hbody. done.
Qed.

End Retire.

Lemma deleteEmptyRepo_no_content_witness :
  run (deleteEmptyRepo "notes" "user" "token" false) Ex.quiet_machine
  = (Ok (DeleteError "Unexpected end of JSON input"),
     mkWorld Ex.quiet_machine [EApi "DELETE" "/repos/user/notes" false]).
Proof.
  apply (deleteEmptyRepo_no_content "notes" "user" "token" Ex.quiet_machine
           Ex.quiet_machine (mkResponse true "204 No Content" "")); reflexivity.
Defined.


(** ** Beyond the claims: the counters and requests of the two loops *)

Section LoopsMore.

Context {G : Type} `{!Host G}.

Local Open Scope js_scope.
Local Open Scope nat_scope.

#[local] Existing Instance same_count_preorder.

Lemma same_count_git (p : Event → bool) (repoPath : string) (c : GitCmd) :
  (∀ ok, p (EGit repoPath c ok) = false) → respects (same_count p) (git repoPath c).
Proof.
  intros Hp w. unfold same_count, git.
  destruct (git_exec repoPath c (mach w)) as [r m']. simpl. by rewrite Hp.
Qed.

Lemma same_count_copy (p : Event → bool) (src dst : string) :
  (∀ ok, p (ECopy src dst ok) = false) → respects (same_count p) (copyFile src dst).
Proof.
  intros Hp w. unfold same_count, copyFile.
  destruct (fs (mach w) !! src); simpl; by rewrite Hp.
Qed.

Lemma same_count_progress (p : Event → bool) (cur tot : nat) :
  p (EProgress cur tot) = false →
  respects (same_count (G:=G) p) (dashProgress cur tot).
Proof. intros Hp w. unfold same_count, dashProgress. simpl. by rewrite Hp. Qed.

(** One turn of the first loop adds one to exactly one of the counters
    pulled, up to date, failed, cloned, and to the progress counter. *)
Lemma pullPassBody_counts (config : Config) (tot : nat) (r : GhRepo)
    (st st' : LoopState) (w w' : World G) :
  pullPassBody config tot r st w = (Ok st', w') →
  total_of (results st') = S (total_of (results st)) ∧
  currentOp st' = S (currentOp st) ∧
  n_emptyDeleted (results st') = n_emptyDeleted (results st).
Proof.
  unfold pullPassBody. cbv zeta. unfold bind at 1. unfold dashProgress at 1.
  destruct (truthy _) as [localPath|].
  - unfold bind. destruct (pullRepoSafe localPath _) as [[res|e] w1]; [|discriminate].
    unfold ret. intros [= <- <-]. simpl.
    unfold total_of, add_conflictsResolved.
    destruct (pulled res); [simpl; lia|].
    destruct (reason_is res "up to date"); simpl; lia.
  - destruct (searchDirs config) as [|dir0 dirs]; [discriminate|]. cbv zeta.
    unfold bind. destruct (cloneRepo _ _ _ _) as [[[|reason]|e] w1]; [| |discriminate];
      unfold ret; intros [= <- <-]; simpl; unfold total_of; simpl; lia.
Qed.

(** One turn of the second loop adds one to the progress counter and at
    most one to the counters; exactly one unless the repository was
    retired without a deletion.  In a dry run nothing counts as deleted. *)
Lemma pushPassBody_counts (config : Config) (tot : nat) (entry : string * string)
    (st st' : LoopState) (w w' : World G) :
  pushPassBody config tot entry st w = (Ok st', w') →
  (total_of (results st) ≤ total_of (results st') ≤ S (total_of (results st))) ∧
  (deleteEmptyRepos config = false →
   total_of (results st') = S (total_of (results st))) ∧
  currentOp st' = S (currentOp st) ∧
  (dryRun config = true →
   n_emptyDeleted (results st') = n_emptyDeleted (results st)) ∧
  localRepos st' = localRepos st.
Proof.
  unfold pushPassBody. destruct entry as [repoName repoPath]. cbv zeta.
  unfold bind at 1. unfold dashProgress at 1.
  unfold bind at 1. destruct (isRepoEmpty repoPath _) as [[isEmpty|e] w1]; [|discriminate].
  destruct (isEmpty && deleteEmptyRepos config) eqn:Hretire.
  - apply andb_true_iff in Hretire as [_ Hflag].
    unfold bind at 1. unfold dashLog at 1, ret at 1.
    destruct (deleteLocalRepo_step repoPath (dryRun config) w1) as (r2 & Heq2).
    unfold bind at 1. rewrite Heq2.
    unfold bind at 1. unfold deleteEmptyRepo.
    destruct (dryRun config) eqn:Hdry.
    + unfold_m. simpl. intros [= <- <-]. simpl. split; [lia|]. split; [congruence|]. done.
    + unfold_m. simpl. destruct (fetch_exec _ _ _ (mach w1)) as [r0 m']; simpl;
        destruct (api_outcome r0) as [v|e]; simpl;
        intros [= <- <-]; simpl; unfold total_of; simpl;
        (split; [lia|]); (split; [congruence|]); done.
  - unfold bind. destruct (pushRepoSafe _ _ _) as [[[n rt|reason pr]|e] w2];
      [| |discriminate]; unfold ret; intros [= <- <-]; simpl; unfold total_of.
    + simpl. split; [lia|]. split; [lia|]. done.
    + destruct (reason =? "no changes")%string; simpl; (split; [lia|]); (split; [lia|]); done.
Qed.

Lemma pullPass_counts (config : Config) (tot : nat) (gh : list GhRepo) :
  ∀ (st st' : LoopState) (w w' : World G),
  for_of gh (pullPassBody config tot) st w = (Ok st', w') →
  total_of (results st') = total_of (results st) + length gh ∧
  currentOp st' = currentOp st + length gh ∧
  n_emptyDeleted (results st') = n_emptyDeleted (results st).
Proof.
  induction gh as [|r gh IH]; intros st st' w w'; simpl.
  - unfold ret. intros [= <- <-]. lia.
  - unfold bind. destruct (pullPassBody config tot r st w) as [[st1|e] w1] eqn:Hstep;
      [|discriminate].
    intros Hrest. apply pullPassBody_counts in Hstep. apply IH in Hrest. lia.
Qed.

Lemma pushPass_counts (config : Config) (tot : nat) (entries : list (string * string)) :
  ∀ (st st' : LoopState) (w w' : World G),
  for_of entries (pushPassBody config tot) st w = (Ok st', w') →
  (total_of (results st) ≤ total_of (results st')
   ≤ total_of (results st) + length entries) ∧
  (deleteEmptyRepos config = false →
   total_of (results st') = total_of (results st) + length entries) ∧
  currentOp st' = currentOp st + length entries ∧
  (dryRun config = true →
   n_emptyDeleted (results st') = n_emptyDeleted (results st)) ∧
  localRepos st' = localRepos st.
Proof.
  induction entries as [|entry entries IH]; intros st st' w w'; simpl.
  - unfold ret. intros [= <- <-]. repeat split; intros; lia.
  - unfold bind. destruct (pushPassBody config tot entry st w) as [[st1|e] w1] eqn:Hstep;
      [|discriminate].
    intros Hrest. apply pushPassBody_counts in Hstep as (H1 & H2 & H3 & H4 & H5).
    apply IH in Hrest as (K1 & K2 & K3 & K4 & K5).
    split; [lia|]. split; [intros Hf; specialize (H2 Hf); specialize (K2 Hf); lia|].
    split; [lia|]. split; [|congruence].
    intros Hd. specialize (H4 Hd). specialize (K4 Hd). lia.
Qed.

(** The counters after the two loops: pulled, pushed, cloned, deleted,
    up to date and failed together never exceed the number of
    repositories processed; they equal it when empty repositories are not
    being retired; and in a dry run no repository counts as deleted. *)
Theorem reconcile_counters (config : Config) (gh : list GhRepo)
    (local0 : gmap string string) (m : Machine G) (tot : nat) (st : LoopState)
    (w' : World G) :
  run (reconcile config gh local0) m = (Ok (tot, st), w') →
  total_of (results st) ≤ currentOp st ∧
  (deleteEmptyRepos config = false → total_of (results st) = currentOp st) ∧
  (dryRun config = true → n_emptyDeleted (results st) = 0).
Proof.
  unfold run, reconcile. cbv zeta. unfold bind at 1.
  destruct (for_of gh _ _ _) as [[st1|e] w1] eqn:Hpass1; [|discriminate].
  unfold bind at 1.
  destruct (for_of (map_to_list _) _ _ _) as [[st2|e] w2] eqn:Hpass2; [|discriminate].
  unfold ret. intros [= <- <- <-].
  apply pullPass_counts in Hpass1 as (H1 & H2 & H3).
  apply pushPass_counts in Hpass2 as (K1 & K2 & K3 & K4 & _).
  simpl in H1, H2, H3. change (total_of zero_results) with 0 in H1.
  split; [lia|]. split; [intros Hf; specialize (K2 Hf); lia|].
  intros Hd. specialize (K4 Hd). lia.
Qed.

Lemma truthy_Some (v : option string) (p : string) : truthy v = Some p → v = Some p.
Proof. destruct v as [[|c s]|]; simpl; congruence. Qed.

(** Requests and clones: what the per-repository operations leave alone. *)
Section Quiet.

Context (p : Event → bool) (allowed : GitCmd → bool).
Hypothesis p_git : ∀ rp c ok, allowed c = true → p (EGit rp c ok) = false.
Hypothesis p_copy : ∀ s d ok, p (ECopy s d ok) = false.
Hypothesis p_progress : ∀ c n, p (EProgress c n) = false.
Hypothesis allowed_puller : ∀ c, puller_cmd c = true → allowed c = true.

Lemma quiet_git rp c : allowed c = true → respects (same_count p) (git rp c).
Proof. intros Hc. apply same_count_git. intros ok. by apply p_git. Qed.

Lemma quiet_copy s d : respects (same_count p) (copyFile s d).
Proof. apply same_count_copy, p_copy. Qed.

Lemma quiet_pullRepoSafe rp : respects (same_count p) (pullRepoSafe rp).
Proof.
  apply (respects_pullRepoSafe (same_count p) allowed);
    [apply quiet_git|apply quiet_copy|apply allowed_puller].
Qed.

Lemma quiet_pushRepoSafe rp message :
  (∀ args, allowed (GRevparse args) = true) →
  (∀ msg, allowed (GCommit msg) = true) →
  allowed GPush = true →
  respects (same_count p) (pushRepoSafe rp message).
Proof.
  intros. apply (respects_pushRepoSafe (same_count p) allowed);
    [apply quiet_git|apply quiet_copy|apply allowed_puller|done..].
Qed.

Lemma quiet_isRepoEmpty rp :
  allowed GLog = true → (∀ args, allowed (GRaw args) = true) →
  respects (same_count p) (isRepoEmpty rp).
Proof.
  intros. apply (respects_isRepoEmpty (same_count p) allowed); [apply quiet_git|done..].
Qed.

(** A turn of the second loop, when the retirement of an empty
    repository leaves the count alone. *)
Lemma quiet_pushPassBody (config : Config) (tot : nat) (entry : string * string)
    (st : LoopState) :
  (∀ args, allowed (GRevparse args) = true) →
  (∀ msg, allowed (GCommit msg) = true) →
  allowed GPush = true →
  allowed GLog = true → (∀ args, allowed (GRaw args) = true) →
  (deleteEmptyRepos config = true →
   ∀ n u t, respects (same_count p) (deleteEmptyRepo n u t (dryRun config))) →
  respects (same_count p) (pushPassBody config tot entry st).
Proof.
  intros Hrev Hcommit Hpush Hlog Hraw Hdel.
  unfold pushPassBody. destruct entry as [repoName repoPath]. cbv zeta.
  apply respects_bind; [exact _|by apply same_count_progress|intros _].
  apply respects_bind; [exact _|by apply quiet_isRepoEmpty|intros isEmpty].
  destruct (deleteEmptyRepos config) eqn:Hflag.
  - destruct isEmpty; simpl.
    + apply respects_bind; [exact _|apply respects_ret; exact _|intros _].
      apply respects_bind;
        [exact _|
         apply (respects_deleteLocalRepo (same_count p))|intros _].
      apply respects_bind; [exact _|by apply Hdel|intros ?].
      apply respects_ret; exact _.
    + apply respects_bind; [exact _|by apply quiet_pushRepoSafe|intros ?].
      apply respects_ret; exact _.
  - rewrite andb_false_r.
    apply respects_bind; [exact _|by apply quiet_pushRepoSafe|intros ?].
    apply respects_ret; exact _.
Qed.

End Quiet.

(** No request to the GitHub API leaves the two loops when empty
    repositories are kept, nor in a dry run. *)
Theorem reconcile_api_quiet (config : Config) (gh : list GhRepo)
    (local0 : gmap string string) (m : Machine G) :
  deleteEmptyRepos config = false ∨ dryRun config = true →
  count api_call (trace (run (reconcile config gh local0) m).2) = 0.
Proof.
  intros Hquiet. unfold run.
  assert (Hresp : respects (same_count api_call) (reconcile config gh local0)).
  { unfold reconcile. cbv zeta.
    apply respects_bind; [exact _| |intros st1].
    - apply respects_for_of; [exact _|]. intros r st.
      unfold pullPassBody. cbv zeta.
      apply respects_bind; [exact _|by apply same_count_progress|intros _].
      destruct (truthy _) as [localPath|].
      + apply respects_bind; [exact _| |intros ?; apply respects_ret; exact _].
        by apply (quiet_pullRepoSafe api_call (fun _ => true)).
      + destruct (searchDirs config); [apply respects_throw; exact _|]. cbv zeta.
        apply respects_bind; [exact _| |intros ?; apply respects_ret; exact _].
        apply (respects_cloneRepo (same_count api_call) (fun _ => true)); [|done].
        intros rp c _. by apply same_count_git.
    - apply respects_bind; [exact _| |intros ?; apply respects_ret; exact _].
      apply respects_for_of; [exact _|]. intros entry st.
      apply (quiet_pushPassBody api_call (fun _ => true)); try done.
      intros Hflag n u t. destruct Hquiet as [Hoff|Hdry]; [congruence|].
      rewrite Hdry. unfold deleteEmptyRepo.
      apply respects_bind; [exact _|apply respects_ret; exact _|intros _].
      apply respects_ret; exact _. }
  exact (Hresp (mkWorld m [])).
Qed.

Lemma cloneRepo_clones (url target name : string) (w : World G) :
  count (git_call is_clone) (trace (cloneRepo url target name w).2)
  = S (count (git_call is_clone) (trace w)).
Proof.
  unfold cloneRepo. unfold_m. simpl.
  by destruct (git_exec "" (GClone url target) (mach w)) as [[v|e] m'].
Qed.

(** One turn of the first loop: either a clone is issued and the map is
    left alone, or no clone is issued and one entry leaves the map. *)
Lemma pullPassBody_clones (config : Config) (tot : nat) (r : GhRepo)
    (st st' : LoopState) (w w' : World G) :
  pullPassBody config tot r st w = (Ok st', w') →
  count (git_call is_clone) (trace w') + size (localRepos st)
  = S (count (git_call is_clone) (trace w) + size (localRepos st')).
Proof.
  unfold pullPassBody. cbv zeta. unfold bind at 1. unfold dashProgress at 1.
  set (w0 := emit _ w).
  assert (Hw0 : count (git_call is_clone) (trace w0) = count (git_call is_clone) (trace w))
    by done.
  destruct (truthy _) as [localPath|] eqn:Htruthy.
  - apply truthy_Some in Htruthy.
    pose proof (quiet_pullRepoSafe (git_call is_clone) (fun c => negb (is_clone c))
                  (fun _ c _ Hc => ltac:(by destruct c)) (fun _ _ _ => eq_refl)
                  (fun c Hc => ltac:(by destruct c)) localPath w0) as Hpull.
    unfold same_count in Hpull.
    unfold bind. destruct (pullRepoSafe localPath w0) as [[res|e] w1]; [|discriminate].
    unfold ret. intros [= <- <-]. simpl in *.
    rewrite map_size_delete, Htruthy. simpl.
    assert (size (localRepos st) ≠ 0) by (by eapply map_size_ne_0_lookup_2).
    lia.
  - destruct (searchDirs config) as [|dir0 dirs]; [discriminate|]. cbv zeta.
    pose proof (cloneRepo_clones (clone_url r) (path_join dir0 (name r)) (name r) w0) as Hcl.
    unfold bind. destruct (cloneRepo _ _ _ w0) as [[res|e] w1]; [|discriminate].
    unfold ret. intros Heq. simpl in Hcl.
    assert (w' = w1 ∧ localRepos st' = localRepos st) as [-> ->]
      by (destruct res; injection Heq as <- <-; done).
    lia.
Qed.

Lemma pullPass_clones (config : Config) (tot : nat) (gh : list GhRepo) :
  ∀ (st st' : LoopState) (w w' : World G),
  for_of gh (pullPassBody config tot) st w = (Ok st', w') →
  count (git_call is_clone) (trace w') + size (localRepos st)
  = count (git_call is_clone) (trace w) + size (localRepos st') + length gh.
Proof.
  induction gh as [|r gh IH]; intros st st' w w'; simpl.
  - unfold ret. intros [= <- <-]. lia.
  - unfold bind. destruct (pullPassBody config tot r st w) as [[st1|e] w1] eqn:Hstep;
      [|discriminate].
    intros Hrest. apply pullPassBody_clones in Hstep. apply IH in Hrest. lia.
Qed.

(** Cloning: over the two loops, the number of clone commands is the
    number of remote repositories less the number of entries the first
    loop took out of the local map: one clone for every remote
    repository without a local counterpart, and no other. *)
Theorem reconcile_clones (config : Config) (gh : list GhRepo)
    (local0 : gmap string string) (m : Machine G) (tot : nat) (st : LoopState)
    (w' : World G) :
  run (reconcile config gh local0) m = (Ok (tot, st), w') →
  count (git_call is_clone) (trace w') + size local0
  = length gh + size (localRepos st).
Proof.
  unfold run, reconcile. cbv zeta. unfold bind at 1.
  destruct (for_of gh _ _ _) as [[st1|e] w1] eqn:Hpass1; [|discriminate].
  unfold bind at 1.
  pose proof (respects_for_of (same_count (git_call is_clone))
                (map_to_list (localRepos st1))
                (pushPassBody config (length gh + size local0)) st1
                (fun entry s =>
                   quiet_pushPassBody (git_call is_clone) (fun c => negb (is_clone c))
                     (fun _ c _ Hc => ltac:(by destruct c)) (fun _ _ _ => eq_refl)
                     (fun _ _ => eq_refl) (fun c Hc => ltac:(by destruct c))
                     config _ entry s
                     (fun _ => eq_refl) (fun _ => eq_refl) eq_refl eq_refl
                     (fun _ => eq_refl)
                     (fun _ n u t =>
                        respects_deleteEmptyRepo (same_count (git_call is_clone))
                          n u t (dryRun config)
                          (fun e tk md w0 =>
                             ltac:(unfold same_count, githubApi;
                                   by destruct (fetch_exec e tk md (mach w0)))))) w1)
    as Hpass2same.
  destruct (for_of (map_to_list _) _ _ _) as [[st2|e] w2] eqn:Hpass2; [|discriminate].
  unfold ret. intros [= <- <- <-].
  apply pullPass_clones in Hpass1. apply pushPass_counts in Hpass2 as (_ & _ & _ & _ & Hmap).
  unfold same_count in Hpass2same. simpl in *. rewrite Hmap. lia.
Qed.

End LoopsMore.

Lemma reconcile_counters_witness :
  ∃ tot st w',
    run (reconcile Ex.config More.two_remotes Ex.local_inventory) Ex.quiet_machine
    = (Ok (tot, st), w') ∧
    (total_of (results st) ≤ currentOp st)%nat ∧
    (deleteEmptyRepos Ex.config = false → total_of (results st) = currentOp st) ∧
    (dryRun Ex.config = true → n_emptyDeleted (results st) = 0%nat).
Proof.
  destruct (run (reconcile Ex.config More.two_remotes Ex.local_inventory) Ex.quiet_machine)
    as [[[tot st]|e] w'] eqn:Heq.
  - exists tot, st, w'. split; [reflexivity|].
    exact (reconcile_counters Ex.config More.two_remotes Ex.local_inventory
             Ex.quiet_machine tot st w' Heq).
  - exfalso. revert Heq. vm_compute. discriminate.
Defined.

Lemma reconcile_api_quiet_witness :
  count api_call
    (trace (run (reconcile Ex.config More.two_remotes Ex.local_inventory)
              Ex.quiet_machine).2) = 0%nat.
Proof.
  apply (reconcile_api_quiet Ex.config More.two_remotes Ex.local_inventory Ex.quiet_machine).
  left. reflexivity.
Defined.

Lemma reconcile_clones_witness :
  ∃ tot st w',
    run (reconcile Ex.config More.two_remotes Ex.local_inventory) Ex.quiet_machine
    = (Ok (tot, st), w') ∧
    (count (git_call is_clone) (trace w') + size Ex.local_inventory
     = length More.two_remotes + size (localRepos st))%nat.
Proof.
  destruct (run (reconcile Ex.config More.two_remotes Ex.local_inventory) Ex.quiet_machine)
    as [[[tot st]|e] w'] eqn:Heq.
  - exists tot, st, w'. split; [reflexivity|].
    exact (reconcile_clones Ex.config More.two_remotes Ex.local_inventory
             Ex.quiet_machine tot st w' Heq).
  - exfalso. revert Heq. vm_compute. discriminate.
Defined.

(** ** The inventories (lines 393-409 and 464-497) *)

Section Inventories.

Context {G : Type} `{!Host G} `{!Inventory G}.

Local Abbreviation M := (M G).
Local Open Scope js_scope.
Local Open Scope nat_scope.

(** *** getAllRepos *)

Section Pages.

Context (username token : string) (pages : nat → list GhRepo)
        (last : Res (list GhRepo)) (I : Machine G → Prop).
Hypothesis I_kept : ∀ p m, I m → I (api_list (listing username p) token m).2.

(** The loop from page [page] on: [n] pages with repositories, then the
    answer [last], which is an empty page or an error. *)
Lemma getAllReposLoop_pages (n : nat) :
  ∀ (fuel page : nat) (repos : list GhRepo) (w : World G),
  I (mach w) → n < fuel →
  (∀ i m, i < n → I m →
     (api_list (listing username (page + i)) token m).1 = Ok (pages (page + i))) →
  (∀ i, i < n → pages (page + i) ≠ []) →
  (∀ m, I m → (api_list (listing username (page + n)) token m).1 = last) →
  last = Ok [] ∨ (∃ e, last = Throw e) →
  (getAllReposLoop fuel username token page repos w).1
  = match last with
    | Ok _ => Ok (Some (repos ++ concat (map pages (seq page n)))%list)
    | Throw e => Throw e
    end ∧
  trace (getAllReposLoop fuel username token page repos w).2
  = (request username (page + n) (is_ok last)
     :: reverse (map (fun p => request username p true) (seq page n)) ++ trace w)%list.
Proof.
  induction n as [|n IH]; intros fuel page repos w Hinv Hfuel Hpages Hne Hlast Hshape.
  - destruct fuel as [|fuel]; [lia|]. simpl.
    unfold bind, githubApiList. specialize (Hlast (mach w) Hinv).
    rewrite Nat.add_0_r in *.
    destruct (api_list (listing username page) token (mach w)) as [r m'].
    simpl in Hlast. subst r.
    destruct Hshape as [-> | [e ->]]; simpl; rewrite ?app_nil_r; done.
  - destruct fuel as [|fuel]; [lia|]. simpl.
    unfold bind, githubApiList.
    pose proof (Hpages 0 (mach w) ltac:(lia) Hinv) as Hfirst.
    pose proof (I_kept page (mach w) Hinv) as Hinv'.
    pose proof (Hne 0 ltac:(lia)) as Hne0.
    rewrite Nat.add_0_r in Hfirst, Hne0.
    destruct (api_list (listing username page) token (mach w)) as [r m'].
    simpl in Hfirst, Hinv'. subst r.
    destruct (pages page) as [|r0 batch] eqn:Hbatch; [done|]. simpl.
    rewrite <- Hbatch.
    destruct (IH fuel (S page) (repos ++ pages page)%list
                (mkWorld m' (EApi "GET" (listing username page) true :: trace w)))
      as [Hres Htrace].
    + exact Hinv'.
    + lia.
    + intros i m Hi Hm. replace (S page + i) with (page + S i) by lia.
      apply Hpages; [lia|done].
    + intros i Hi. replace (S page + i) with (page + S i) by lia. apply Hne. lia.
    + intros m Hm. replace (S page + n) with (page + S n) by lia. by apply Hlast.
    + exact Hshape.
    + rewrite Hres, Htrace. split.
      * destruct last; [|done]. by rewrite Hbatch, <- app_assoc.
      * replace (S page + n) with (page + S n) by lia. simpl.
        rewrite reverse_cons, <- app_assoc. done.
Qed.

End Pages.

(** Listing: when pages 1 to [k - 1] hold repositories and page [k] is
    empty, [getAllRepos] answers the pages in order, put end to end,
    after exactly [k] requests, all of them GETs of
    [/users/<username>/repos?per_page=100&page=<p>] for [p] from 1 to
    [k]. *)
Theorem getAllRepos_pages (username token : string) (pages : nat → list GhRepo)
    (I : Machine G → Prop) (k fuel : nat) (m : Machine G) :
  (∀ p m, I m → I (api_list (listing username p) token m).2) →
  I m → 1 ≤ k ≤ fuel →
  (∀ p m, 1 ≤ p < k → I m →
     (api_list (listing username p) token m).1 = Ok (pages p)) →
  (∀ p, 1 ≤ p < k → pages p ≠ []) →
  (∀ m, I m → (api_list (listing username k) token m).1 = Ok []) →
  (run (getAllRepos fuel username token) m).1
  = Ok (Some (concat (map pages (seq 1 (k - 1))))) ∧
  trace (run (getAllRepos fuel username token) m).2
  = reverse (map (fun p => request username p true) (seq 1 k)).
Proof.
  intros Hkept Hinv Hk Hpages Hne Hlast. unfold run, getAllRepos.
  destruct (getAllReposLoop_pages username token pages (Ok []) I Hkept (k - 1)
              fuel 1 [] (mkWorld m [])) as [Hres Htrace].
  - exact Hinv.
  - lia.
  - intros i m0 Hi Hm0. apply Hpages; [lia|done].
  - intros i Hi. apply Hne. lia.
  - intros m0 Hm0. replace (1 + (k - 1)) with k by lia. by apply Hlast.
  - by left.
  - split; [exact Hres|]. rewrite Htrace, app_nil_r.
    destruct k as [|k']; [lia|]. replace (S k' - 1) with k' by lia.
    rewrite seq_S, map_app, reverse_app. done.
Qed.

(** An error on page [k], after [k - 1] pages with repositories, is
    thrown by [getAllRepos]: the repositories already listed are lost,
    and no request follows the failed one. *)
Theorem getAllRepos_error (username token : string) (pages : nat → list GhRepo)
    (I : Machine G → Prop) (k fuel : nat) (m : Machine G) (e : string) :
  (∀ p m, I m → I (api_list (listing username p) token m).2) →
  I m → 1 ≤ k ≤ fuel →
  (∀ p m, 1 ≤ p < k → I m →
     (api_list (listing username p) token m).1 = Ok (pages p)) →
  (∀ p, 1 ≤ p < k → pages p ≠ []) →
  (∀ m, I m → (api_list (listing username k) token m).1 = Throw e) →
  (run (getAllRepos fuel username token) m).1 = Throw e ∧
  trace (run (getAllRepos fuel username token) m).2
  = (request username k false
     :: reverse (map (fun p => request username p true) (seq 1 (k - 1))))%list.
Proof.
  intros Hkept Hinv Hk Hpages Hne Hlast. unfold run, getAllRepos.
  destruct (getAllReposLoop_pages username token pages (Throw e) I Hkept (k - 1)
              fuel 1 [] (mkWorld m [])) as [Hres Htrace].
  - exact Hinv.
  - lia.
  - intros i m0 Hi Hm0. apply Hpages; [lia|done].
  - intros i Hi. apply Hne. lia.
  - intros m0 Hm0. replace (1 + (k - 1)) with k by lia. by apply Hlast.
  - right. by exists e.
  - split; [exact Hres|]. rewrite Htrace, app_nil_r.
    by replace (1 + (k - 1)) with k by lia.
Qed.

(** The listing sends requests to the API and does nothing else. *)
Lemma getAllReposLoop_only_requests (p : Event → bool) (username token : string) :
  (∀ method endpoint ok, p (EApi method endpoint ok) = false) →
  ∀ fuel page repos (w : World G),
  count p (trace (getAllReposLoop fuel username token page repos w).2) = count p (trace w).
Proof.
  intros Hp. induction fuel as [|fuel IH]; intros page repos w; simpl; [done|].
  unfold bind, githubApiList.
  destruct (api_list (listing username page) token (mach w)) as [[batch|e] m']; simpl.
  - destruct (length batch =? 0); simpl.
    + by rewrite Hp.
    + rewrite IH. simpl. by rewrite Hp.
  - by rewrite Hp.
Qed.

(** *** findLocalRepos *)

Lemma for_of_reading {A S} (body : A → S → M S) (f : Machine G → S → A → S) (l : list A) :
  (∀ x s w, body x s w = (Ok (f (mach w) s x), w)) →
  ∀ s w, for_of l body s w = (Ok (foldl (f (mach w)) s l), w).
Proof.
  intros Hbody. induction l as [|x l IH]; intros s w; simpl; [done|].
  unfold bind. by rewrite Hbody, IH.
Qed.

Lemma scanEntry_eq (ex : list string) (dir entry : string) (repos : gmap string string)
    (w : World G) :
  scanEntry ex dir entry repos w = (Ok (found_entry ex (mach w) dir repos entry), w).
Proof.
  unfold scanEntry, found_entry, holds_repo.
  destruct (Js.includes ex entry); simpl; [done|].
  unfold try_catch, bind, reading, ret.
  destruct (is_directory (path_join dir entry) (mach w)) as [[|]|e]; simpl; try done.
  destruct (is_directory _ (mach w)) as [[|]|e']; done.
Qed.

Lemma scanDir_eq (ex : list string) (dir : string) (repos : gmap string string)
    (w : World G) :
  scanDir ex dir repos w = (Ok (found_dir ex (mach w) repos dir), w).
Proof.
  unfold scanDir, found_dir, dashLog, try_catch, bind, reading, ret. simpl.
  destruct (readdir dir (mach w)) as [entries|e]; [|done].
  rewrite (for_of_reading _ (fun m r x => found_entry ex m dir r x)); [done|].
  intros x s w0. apply scanEntry_eq.
Qed.

Lemma findLocalRepos_eq (sd ex : list string) (w : World G) :
  findLocalRepos sd ex w = (Ok (foldl (found_dir ex (mach w)) ∅ sd), w).
Proof.
  unfold findLocalRepos.
  rewrite (for_of_reading _ (fun m r d => found_dir ex m r d)); [done|].
  intros x s w0. apply scanDir_eq.
Qed.

Lemma found_entries_sound (sd ex : list string) (m : Machine G) (dir : string)
    (entries : list string) :
  dir ∈ sd → readdir dir m = Ok entries →
  ∀ es repos,
  (∀ e, e ∈ es → e ∈ entries) →
  (∀ k p, repos !! k = Some p → scanned sd ex m k p) →
  ∀ k p, foldl (found_entry ex m dir) repos es !! k = Some p → scanned sd ex m k p.
Proof.
  intros Hdir Hread. induction es as [|e es IH]; intros repos Hsub Hinv; simpl; [done|].
  apply IH; [intros e' He'; apply Hsub; by right|].
  intros k p. unfold found_entry.
  destruct (Js.includes ex e) eqn:Hex; simpl; [by apply Hinv|].
  destruct (holds_repo m (path_join dir e)) eqn:Hrepo; [|by apply Hinv].
  intros [[<- <-]|[_ Hk]]%lookup_insert_Some; [|by apply Hinv].
  exists dir, entries, e. repeat split; try done. apply Hsub. by left.
Qed.

Lemma found_dirs_sound (sd ex : list string) (m : Machine G) :
  ∀ dirs repos,
  (∀ d, d ∈ dirs → d ∈ sd) →
  (∀ k p, repos !! k = Some p → scanned sd ex m k p) →
  ∀ k p, foldl (found_dir ex m) repos dirs !! k = Some p → scanned sd ex m k p.
Proof.
  induction dirs as [|d dirs IH]; intros repos Hsub Hinv; simpl; [done|].
  apply IH; [intros d' Hd'; apply Hsub; by right|].
  unfold found_dir. destruct (readdir d m) as [entries|e] eqn:Hread; [|done].
  apply (found_entries_sound sd ex m d entries); [apply Hsub; by left|done|done|done].
Qed.










(** *** main *)

(** Without a usable configuration nothing happens: when the file
    cannot be loaded [main] throws, when it holds no token [main]
    returns; either way no request is sent, no command is issued and no
    progress is reported. *)
Theorem main_stops_without_token (fuel : nat) (w : World G) :
  (∀ config, load_config (mach w) = Ok config → githubToken config = "") →
  (main fuel w).2 = w ∧
  match load_config (mach w) with
  | Ok _ => (main fuel w).1 = Ok (Some tt)
  | Throw e => (main fuel w).1 = Throw e
  end.
Proof.
  intros Hno. unfold main, initDashboard, dashLog, failDashboard, bind, ret, reading.
  destruct (load_config (mach w)) as [config|e]; [|done].
  by rewrite (Hno config eq_refl).
Qed.

Lemma main_listed (fuel : nat) (w : World G) (config : Config) :
  load_config (mach w) = Ok config → githubToken config ≠ "" →
  main fuel w
  = match getAllRepos fuel (username config) (githubToken config) w with
    | (Ok (Some gh), w1) =>
        match reconcile config gh
                (foldl (found_dir (excludeDirs config) (mach w1)) ∅ (searchDirs config)) w1
        with
        | (Ok _, w') => (Ok (Some tt), w')
        | (Throw e, w') => (Throw e, w')
        end
    | (Ok None, w1) => (Ok None, w1)
    | (Throw e, w1) => (Throw e, w1)
    end.
Proof.
  intros Hconfig Htoken.
  unfold main, initDashboard, dashLog, completeDashboard.
  unfold bind at 1. unfold ret at 1. unfold bind at 1. unfold ret at 1.
  unfold bind at 1. unfold reading at 1. rewrite Hconfig.
  apply String.eqb_neq in Htoken. rewrite Htoken.
  unfold bind at 1. unfold ret at 1. unfold bind at 1.
  destruct (getAllRepos fuel _ _ w) as [[[gh|]|e] w1]; [|done..].
  unfold bind at 1. unfold ret at 1. unfold bind at 1. unfold ret at 1.
  unfold bind at 1. rewrite findLocalRepos_eq.
  unfold bind at 1. unfold ret at 1. unfold bind at 1.
  destruct (reconcile config gh _ w1) as [[r|e] w']; done.
Qed.

(** A failed listing ends the run: [main] throws the same error and,
    from start to end, does nothing but send requests to the API. *)
Theorem main_listing_failure (fuel : nat) (w : World G) (config : Config) (e : string)
    (p : Event → bool) :
  load_config (mach w) = Ok config → githubToken config ≠ "" →
  (getAllRepos fuel (username config) (githubToken config) w).1 = Throw e →
  (∀ method endpoint ok, p (EApi method endpoint ok) = false) →
  (main fuel w).1 = Throw e ∧ count p (trace (main fuel w).2) = count p (trace w).
Proof.
  intros Hconfig Htoken Hfail Hp. rewrite (main_listed fuel w config Hconfig Htoken).
  pose proof (getAllReposLoop_only_requests p (username config) (githubToken config) Hp
                fuel 1 [] w) as Hsame.
  fold (getAllRepos fuel (username config) (githubToken config)) in Hsame.
  destruct (getAllRepos fuel _ _ w) as [[[gh|]|e'] w1]; simpl in *; try discriminate.
  by injection Hfail as ->.
Qed.

(** With a token, a listing that ends and a search directory, [main]
    runs to its end without throwing.  Every progress report announces
    the number of listed repositories plus the number of local
    repositories found, and the reports count 1, 2, ... up to the listed
    repositories plus the local ones that are not listed. *)
Theorem main_completes (fuel : nat) (w w1 : World G) (config : Config)
    (gh : list GhRepo) :
  load_config (mach w) = Ok config → githubToken config ≠ "" →
  searchDirs config ≠ [] →
  getAllRepos fuel (username config) (githubToken config) w = (Ok (Some gh), w1) →
  ∃ found w',
    findLocalRepos (searchDirs config) (excludeDirs config) w1 = (Ok found, w1) ∧
    main fuel w = (Ok (Some tt), w') ∧
    progress_of (trace w')
    = (progress_of (trace w1)
       ++ ticks (length gh + size found) 1
                (length gh
                 + size (filter (fun kv => ¬ kv.1 ∈ remote_names gh) found)))%list.
Proof.
  intros Hconfig Htoken Hdirs Hlist.
  set (found := foldl (found_dir (excludeDirs config) (mach w1)) ∅ (searchDirs config)).
  assert (Hpaths : ∀ k p, found !! k = Some p → p ≠ "").
  { intros k p Hk.
    assert (Hs : scanned (searchDirs config) (excludeDirs config) (mach w1) k p).
    { revert Hk. apply found_dirs_sound; [done|]. intros k' p'. by rewrite lookup_empty. }
    destruct Hs as (dir & entries & entry & _ & _ & _ & _ & _ & _ & ->).
    apply path_join_nonempty. }
  exists found.
  rewrite (main_listed fuel w config Hconfig Htoken), Hlist. fold found.
  unfold reconcile. cbv zeta.
  set (tot := length gh + size found).
  destruct (pullPass_spec config tot gh Hdirs (mkLoop zero_results 0 found) w1)
    as (st1 & w2 & Heq1 & Hop1 & Hmap1 & Hprog1).
  { exact Hpaths. }
  destruct (pushPass_spec config tot (map_to_list (localRepos st1)) st1 w2)
    as (st2 & w3 & Heq2 & Hop2 & Hmap2 & Hprog2).
  simpl in Hop1, Hmap1, Hprog1.
  exists w3. split; [by rewrite findLocalRepos_eq|].
  unfold bind. rewrite Heq1, Heq2. unfold ret. split; [done|].
  rewrite length_map_to_list in Hprog2.
  assert (Hrest : localRepos st1 = filter (fun kv => ¬ kv.1 ∈ remote_names gh) found).
  { apply map_eq. intros k. apply option_eq. intros p.
    rewrite Hmap1, map_lookup_filter_Some. simpl.
    destruct (decide (k ∈ remote_names gh)) as [Hin|Hnin].
    - rewrite bool_decide_eq_true_2 by done. split; [done|tauto].
    - rewrite bool_decide_eq_false_2 by done. tauto. }
  rewrite Hprog2, Hprog1, Hop1, <- Hrest, <- app_assoc. f_equal.
  unfold ticks. rewrite <- map_app, <- seq_app. done.
Qed.

(** With no search directory there is nowhere to clone to: as soon as
    GitHub lists a repository, [main] throws a TypeError on the first
    one, right after its progress report and before any git command. *)
Theorem main_no_searchDirs (fuel : nat) (w w1 : World G) (config : Config)
    (r : GhRepo) (gh : list GhRepo) :
  load_config (mach w) = Ok config → githubToken config ≠ "" →
  searchDirs config = [] →
  getAllRepos fuel (username config) (githubToken config) w = (Ok (Some (r :: gh)), w1) →
  main fuel w = (Throw "TypeError", emit (EProgress 1 (S (length gh))) w1).
Proof.
  intros Hconfig Htoken Hdirs Hlist.
  rewrite (main_listed fuel w config Hconfig Htoken), Hlist, Hdirs. simpl.
  unfold reconcile. cbv zeta. simpl.
  unfold bind at 1. unfold bind at 1. unfold pullPassBody. cbv zeta. simpl.
  unfold bind at 1. unfold dashProgress at 1. rewrite lookup_empty. simpl.
  rewrite Hdirs. unfold throw. rewrite map_size_empty, Nat.add_0_r. done.
Qed.

End Inventories.

Lemma getAllRepos_pages_witness :
  (run (getAllRepos 5 "user" "token") Ex.quiet_machine).1 = Ok (Some More.two_remotes) ∧
  trace (run (getAllRepos 5 "user" "token") Ex.quiet_machine).2
  = [request "user" 2 true; request "user" 1 true].
Proof.
  apply (getAllRepos_pages "user" "token"
           (fun p => if (p =? 1)%nat then More.two_remotes else [])
           (fun m => Sim.api_ok (ext m) = true) 2 5 Ex.quiet_machine).
  - intros p m Hm. exact Hm.
  - reflexivity.
  - lia.
  - intros p m Hp Hm. assert (p = 1%nat) as -> by lia.
    simpl. rewrite Hm. reflexivity.
  - intros p Hp. assert (p = 1%nat) as -> by lia. discriminate.
  - intros m Hm. simpl. rewrite Hm. reflexivity.
Defined.

Lemma getAllRepos_error_witness :
  (run (getAllRepos 5 "user" "token") (mkMachine ∅ More.api_down)).1
  = Throw "GitHub API error: 401 Unauthorized" ∧
  trace (run (getAllRepos 5 "user" "token") (mkMachine ∅ More.api_down)).2
  = [request "user" 1 false].
Proof.
  apply (getAllRepos_error "user" "token" (fun _ => [])
           (fun m => Sim.api_ok (ext m) = false) 1 5 (mkMachine ∅ More.api_down)).
  - intros p m Hm. exact Hm.
  - reflexivity.
  - lia.
  - intros p m Hp. lia.
  - intros p Hp. lia.
  - intros m Hm. simpl. rewrite Hm. reflexivity.
Defined.



Lemma main_stops_without_token_witness :
  (main 5 (More.configured "no token" Sim.quiet)).2 = More.configured "no token" Sim.quiet ∧
  (main 5 (More.configured "no token" Sim.quiet)).1 = Ok (Some tt).
Proof.
  destruct (main_stops_without_token 5 (More.configured "no token" Sim.quiet)) as [H1 H2].
  - intros config Hc. vm_compute in Hc. by injection Hc as <-.
  - split; [exact H1|exact H2].
Defined.

Lemma main_listing_failure_witness :
  (main 5 (More.configured "{}" More.api_down)).1
  = Throw "GitHub API error: 401 Unauthorized" ∧
  count (git_call (fun _ => true)) (trace (main 5 (More.configured "{}" More.api_down)).2)
  = count (git_call (fun _ => true)) (trace (More.configured "{}" More.api_down)).
Proof.
  apply (main_listing_failure 5 (More.configured "{}" More.api_down)
           More.config_excluding).
  - vm_compute. reflexivity.
  - discriminate.
  - vm_compute. reflexivity.
  - reflexivity.
Defined.

Lemma main_completes_witness :
  ∃ found w',
    findLocalRepos ["/dev"] ["node_modules"]
      (getAllRepos 5 "user" "token" (More.configured "{}" Sim.quiet)).2
    = (Ok found, (getAllRepos 5 "user" "token" (More.configured "{}" Sim.quiet)).2) ∧
    main 5 (More.configured "{}" Sim.quiet) = (Ok (Some tt), w') ∧
    progress_of (trace w')
    = (progress_of (trace (getAllRepos 5 "user" "token"
                             (More.configured "{}" Sim.quiet)).2)
       ++ ticks (length More.two_remotes + size found) 1
                (length More.two_remotes
                 + size (filter (fun kv => ¬ kv.1 ∈ remote_names More.two_remotes)
                                found)))%list.
Proof.
  apply (main_completes 5 (More.configured "{}" Sim.quiet)
           (getAllRepos 5 "user" "token" (More.configured "{}" Sim.quiet)).2
           More.config_excluding More.two_remotes).
  - vm_compute. reflexivity.
  - discriminate.
  - discriminate.
  - vm_compute. reflexivity.
Defined.

Lemma main_no_searchDirs_witness :
  main 5 (More.configured "no dirs" Sim.quiet)
  = (Throw "TypeError",
     emit (EProgress 1 2)
          (getAllRepos 5 "user" "token" (More.configured "no dirs" Sim.quiet)).2).
Proof.
  apply (main_no_searchDirs 5 (More.configured "no dirs" Sim.quiet)
           (getAllRepos 5 "user" "token" (More.configured "no dirs" Sim.quiet)).2
           More.config_no_dirs
           (mkGhRepo "Notes" "https://github.com/user/Notes.git")
           [mkGhRepo "Blog" "https://github.com/user/Blog.git"]).
  - vm_compute. reflexivity.
  - discriminate.
  - reflexivity.
  - vm_compute. reflexivity.
Defined.

(** ** What the second loop may delete *)

Section Deletes.

Context {G : Type} `{!Host G}.

Local Open Scope js_scope.
Local Open Scope nat_scope.

#[local] Existing Instance adds_only_preorder.

Lemma respects_for_of_in {A S} (R : World G → World G → Prop) `{!PreOrder R}
    (l : list A) (body : A → S → M G S) :
  (∀ x s, x ∈ l → respects R (body x s)) → ∀ s, respects R (for_of l body s).
Proof.
  induction l as [|x l IH]; intros Hbody s; simpl.
  - apply respects_ret; exact _.
  - apply respects_bind; [exact _|apply Hbody; by left|intros s'].
    apply IH. intros y s0 Hy. apply Hbody. by right.
Qed.

Lemma adds_only_progress (P : Event → bool) (c n : nat) :
  P (EProgress c n) = true → respects (adds_only P) (dashProgress (G:=G) c n).
Proof. intros HP w. exists [EProgress c n]. simpl. by rewrite HP. Qed.

Lemma adds_only_api (P : Event → bool) (endpoint token method : string) :
  (∀ ok, P (EApi method endpoint ok) = true) →
  respects (adds_only P) (githubApi endpoint token method).
Proof.
  intros HP w. unfold githubApi.
  destruct (fetch_exec endpoint token method (mach w)) as [r m'].
  exists [EApi method endpoint (is_ok (api_outcome r))]. simpl. by rewrite HP.
Qed.

Section Only.

Context (P : Event → bool).
Hypothesis P_git : ∀ rp c ok, P (EGit rp c ok) = true.
Hypothesis P_copy : ∀ s d ok, P (ECopy s d ok) = true.
Hypothesis P_progress : ∀ c n, P (EProgress c n) = true.

Lemma only_git rp c : (fun _ : GitCmd => true) c = true → respects (adds_only P) (git rp c).
Proof. intros _. apply adds_only_git. intros ok. apply P_git. Qed.

Lemma only_copy s d : respects (adds_only P) (copyFile s d).
Proof. apply adds_only_copy. intros ok. apply P_copy. Qed.

Lemma only_pullPassBody (config : Config) (tot : nat) (r : GhRepo) (st : LoopState) :
  respects (adds_only P) (pullPassBody config tot r st).
Proof.
  unfold pullPassBody. cbv zeta.
  apply respects_bind; [exact _|by apply adds_only_progress|intros _].
  destruct (truthy _) as [localPath|].
  - apply respects_bind; [exact _| |intros ?; apply respects_ret; exact _].
    apply (respects_pullRepoSafe (adds_only P) (fun _ => true));
      [apply only_git|apply only_copy|done].
  - destruct (searchDirs config); [apply respects_throw; exact _|]. cbv zeta.
    apply respects_bind; [exact _| |intros ?; apply respects_ret; exact _].
    apply (respects_cloneRepo (adds_only P) (fun _ => true)); [apply only_git|done].
Qed.

Lemma only_pushPassBody (config : Config) (tot : nat) (k repoPath : string)
    (st : LoopState) :
  (∀ ok, P (EApi "DELETE" ("/repos/" ++ username config ++ "/" ++ k) ok) = true) →
  respects (adds_only P) (pushPassBody config tot (k, repoPath) st).
Proof.
  intros Hdel. unfold pushPassBody. cbv zeta.
  apply respects_bind; [exact _|by apply adds_only_progress|intros _].
  apply respects_bind;
    [exact _|
     apply (respects_isRepoEmpty (adds_only P) (fun _ => true)); [apply only_git|done..]|
     intros isEmpty].
  destruct (isEmpty && deleteEmptyRepos config).
  - apply respects_bind; [exact _|apply respects_ret; exact _|intros _].
    apply respects_bind;
      [exact _|apply (respects_deleteLocalRepo (adds_only P))|intros _].
    apply respects_bind; [exact _| |intros ?; apply respects_ret; exact _].
    unfold deleteEmptyRepo. destruct (dryRun config).
    + apply respects_bind; [exact _|apply respects_ret; exact _|intros _].
      apply respects_ret; exact _.
    + apply respects_try_catch; [exact _| |intros ?].
      * apply respects_bind; [exact _|by apply adds_only_api|intros _].
        apply respects_bind; [exact _|apply respects_ret; exact _|intros _].
        apply respects_ret; exact _.
      * apply respects_bind; [exact _|apply respects_ret; exact _|intros _].
        apply respects_ret; exact _.
  - apply respects_bind; [exact _| |intros ?; apply respects_ret; exact _].
    apply (respects_pushRepoSafe (adds_only P) (fun _ => true));
      [apply only_git|apply only_copy|done..].
Qed.

End Only.

Lemma pullPassBody_map (config : Config) (tot : nat) (r : GhRepo)
    (st st' : LoopState) (w w' : World G) :
  (∀ k p, localRepos st !! k = Some p → p ≠ "") →
  pullPassBody config tot r st w = (Ok st', w') →
  localRepos st' = delete (Js.toLowerCase (name r)) (localRepos st).
Proof.
  intros Hpaths. unfold pullPassBody. cbv zeta.
  unfold bind at 1. unfold dashProgress at 1.
  rewrite (truthy_lookup _ _ Hpaths).
  destruct (localRepos st !! Js.toLowerCase (name r)) as [localPath|] eqn:Hlook.
  - unfold bind. destruct (pullRepoSafe localPath _) as [[res|e] w1]; [|discriminate].
    unfold ret. by intros [= <- <-].
  - destruct (searchDirs config) as [|dir0 dirs]; [discriminate|]. cbv zeta.
    unfold bind. destruct (cloneRepo _ _ _ _) as [[res|e] w1]; [|discriminate].
    unfold ret. intros [= <- <-]. simpl. by rewrite delete_id.
Qed.

Lemma pullPass_keys (config : Config) (tot : nat) (gh : list GhRepo) :
  ∀ (st st' : LoopState) (w w' : World G),
  (∀ k p, localRepos st !! k = Some p → p ≠ "") →
  for_of gh (pullPassBody config tot) st w = (Ok st', w') →
  ∀ k p, localRepos st' !! k = Some p →
         localRepos st !! k = Some p ∧ k ∉ remote_names gh.
Proof.
  induction gh as [|r gh IH]; intros st st' w w' Hpaths; simpl.
  - unfold ret. intros [= <- <-] k p Hk. split; [done|]. by intros ?%elem_of_nil.
  - unfold bind. destruct (pullPassBody config tot r st w) as [[st1|e] w1] eqn:Hstep;
      [|discriminate].
    apply pullPassBody_map in Hstep; [|done].
    intros Hrest k p Hk.
    destruct (IH st1 st' w1 w') with (k := k) (p := p) as [Hk1 Hnin]; [|done..|].
    { intros k' p'. rewrite Hstep. intros [_ ?]%lookup_delete_Some. by eapply Hpaths. }
    rewrite Hstep in Hk1. apply lookup_delete_Some in Hk1 as [Hne Hk1].
    split; [done|]. intros [?|?]%elem_of_cons; done.
Qed.

(** The only requests the two loops send to the API are DELETEs, and
    only for repositories GitHub did not list: a repository that is in
    the listing is never deleted, whatever [isRepoEmpty] says of it.
    The name in the endpoint is the lower-cased key of the local map. *)
Theorem reconcile_deletes_unlisted (config : Config) (gh : list GhRepo)
    (local0 : gmap string string) (m : Machine G) (method endpoint : string) (ok : bool) :
  (∀ k p, local0 !! k = Some p → p ≠ "") →
  EApi method endpoint ok ∈ trace (run (reconcile config gh local0) m).2 →
  method = "DELETE" ∧
  ∃ k, endpoint = "/repos/" ++ username config ++ "/" ++ k ∧
       is_Some (local0 !! k) ∧ k ∉ remote_names gh.
Proof.
  intros Hpaths.
  set (P := unlisted_delete (username config) gh local0).
  assert (Hall : adds_only P (mkWorld m []) (run (reconcile config gh local0) m).2).
  { unfold run, reconcile. cbv zeta. unfold bind at 1.
    pose proof (respects_for_of (adds_only P) gh
                  (pullPassBody config (length gh + size local0))
                  (mkLoop zero_results 0 local0)
                  (fun r st => only_pullPassBody P (fun _ _ _ => eq_refl)
                                 (fun _ _ _ => eq_refl) (fun _ _ => eq_refl)
                                 config _ r st) (mkWorld m [])) as H1.
    destruct (for_of gh _ _ _) as [[st1|e] w1] eqn:Hpass1; [|exact H1].
    simpl in H1. unfold bind at 1.
    assert (H2 : respects (adds_only P)
                   (for_of (map_to_list (localRepos st1))
                           (pushPassBody config (length gh + size local0)) st1)).
    { apply respects_for_of_in; [exact _|]. intros [k path] st Hin.
      apply only_pushPassBody; try done.
      intros ok'. unfold P, unlisted_delete. apply bool_decide_eq_true_2.
      split; [done|]. unfold unlisted_endpoints.
      apply elem_of_map_to_list in Hin.
      destruct (pullPass_keys config _ gh (mkLoop zero_results 0 local0) st1 _ w1
                  Hpaths Hpass1 k path Hin) as [Hk Hnin].
      apply list_elem_of_fmap. exists k. split; [done|].
      apply list_elem_of_filter. split; [done|].
      apply list_elem_of_fmap. exists (k, path). split; [done|].
      by apply elem_of_map_to_list. }
    specialize (H2 w1).
    destruct (for_of (map_to_list _) _ _ _) as [[st2|e] w2]; simpl in *;
      by etransitivity. }
  destruct Hall as (evs & Htrace & Hevs). simpl in Htrace.
  rewrite Htrace, app_nil_r. intros Hin.
  rewrite forallb_forall in Hevs.
  specialize (Hevs _ (proj1 (list_elem_of_In _ _) Hin)).
  unfold P, unlisted_delete in Hevs. apply bool_decide_eq_true_1 in Hevs as [-> Hend].
  split; [done|]. unfold unlisted_endpoints in Hend.
  apply list_elem_of_fmap in Hend as (k & -> & Hk).
  apply list_elem_of_filter in Hk as [Hnin Hk].
  apply list_elem_of_fmap in Hk as ([k' path] & -> & Hk).
  apply elem_of_map_to_list in Hk. exists k'. split; [done|]. split; [by eexists|done].
Qed.

End Deletes.

Lemma reconcile_deletes_unlisted_witness :
  "DELETE" = "DELETE" ∧
  ∃ k, "/repos/user/notes" = "/repos/" ++ username More.config_deleting ++ "/" ++ k ∧
       is_Some (Ex.local_inventory !! k) ∧
       k ∉ remote_names [mkGhRepo "Blog" "https://github.com/user/Blog.git"].
Proof.
  apply (reconcile_deletes_unlisted More.config_deleting
           [mkGhRepo "Blog" "https://github.com/user/Blog.git"] Ex.local_inventory
           (mkMachine ∅ More.empty_repo) "DELETE" "/repos/user/notes" false).
  - unfold Ex.local_inventory. intros k p [_ <-]%lookup_singleton_Some. done.
  - apply list_elem_of_In. vm_compute. left. reflexivity.
Defined.

(** ** The time stamp of the backup names (line 178) *)

Section Stamp.

Context {G : Type} `{!Host G}.

Lemma dashColonsDots_length (s : string) :
  String.length (Js.dashColonsDots s) = String.length s.
Proof. induction s as [|c s IH]; simpl; congruence. Qed.

Lemma dashColonsDots_clean (s : string) (c : ascii) :
  c ∈ String.list_ascii_of_string (Js.dashColonsDots s) → c ≠ ":"%char ∧ c ≠ "."%char.
Proof.
  induction s as [|a s IH]; simpl.
  - by intros ?%elem_of_nil.
  - intros [-> | Hin]%elem_of_cons; [|by apply IH].
    destruct (Ascii.eqb a ":") eqn:E1; simpl; [done|].
    destruct (Ascii.eqb a ".") eqn:E2; simpl; [done|].
    apply Ascii.eqb_neq in E1, E2. done.
Qed.

(** The stamp that goes into the names of the backups and of the stash
    is the ISO time of the clock with every colon and dot replaced by a
    dash: it has the length of the ISO time and holds neither character.
    Taking it changes nothing. *)
Theorem timestamp_now_clean (w : World G) :
  ∃ ts,
    timestamp_now w = (Ok ts, w) ∧
    String.length ts = String.length (now_iso (ext (mach w))) ∧
    ∀ c, c ∈ String.list_ascii_of_string ts → c ≠ ":"%char ∧ c ≠ "."%char.
Proof.
  eexists. split; [reflexivity|]. split.
  - apply dashColonsDots_length.
  - apply dashColonsDots_clean.
Qed.

End Stamp.

(** ** The factory call (lines 114, 170, 249, 304) *)

Section Factory.

Context {G : Type} `{!Host G} `{!Inventory G}.

Local Open Scope js_scope.
Local Open Scope nat_scope.

#[local] Existing Instance adds_only_preorder.

Lemma simpleGit_ok (repoPath : string) (w : World G) :
  is_directory repoPath (mach w) = Ok true → Full.simpleGit repoPath w = (Ok tt, w).
Proof. unfold Full.simpleGit. by intros ->. Qed.

Lemma simpleGit_throws (repoPath : string) (w : World G) :
  is_directory repoPath (mach w) ≠ Ok true →
  Full.simpleGit repoPath w = (Throw Full.no_directory, w).
Proof.
  unfold Full.simpleGit. by destruct (is_directory repoPath (mach w)) as [[|]|e].
Qed.

Lemma respects_simpleGit (R : World G → World G → Prop) `{!PreOrder R}
    (repoPath : string) :
  respects R (Full.simpleGit repoPath).
Proof.
  apply respects_same; [exact _|]. intros w. unfold Full.simpleGit.
  by destruct (is_directory repoPath (mach w)) as [[|]|e].
Qed.

(** One group of entries per conflict, in order. *)
Lemma resolveLoop_groups (repoPath : string) (cs : list Conflict) :
  ∀ (rs : list Resolution) (w : World G),
  ∃ groups w',
    for_of cs (resolveOne repoPath) rs w = (Ok (rs ++ concat groups)%list, w') ∧
    Forall2 (fun c g => 1 ≤ length g ≤ 2 ∧ Forall (fun r => rfile r = file c) g)
            cs groups.
Proof.
  induction cs as [|c cs IH]; intros rs w; simpl.
  - exists [], w. simpl. rewrite app_nil_r. split; [done|constructor].
  - destruct (resolveOne_entries repoPath c rs w) as (new1 & w1 & Heq & Hlen1 & Hfiles1).
    destruct (IH (rs ++ new1)%list w1) as (groups & w2 & Heq2 & Hall).
    exists (new1 :: groups), w2.
    unfold bind. rewrite Heq, Heq2. simpl. rewrite app_assoc.
    split; [done|]. by constructor.
Qed.

(** [resolveConflicts] throws when [repoPath] is no directory, before a
    single file is touched.  Otherwise it does not throw, and what it
    returns is, conflict by conflict and in order, one entry or two
    ([failed] following the entry of a file whose staging threw), each
    naming the file of that conflict. *)
Theorem resolveConflicts_entries (repoPath : string) (cs : list Conflict)
    (w : World G) :
  (is_directory repoPath (mach w) ≠ Ok true →
   Full.resolveConflicts repoPath cs w = (Throw Full.no_directory, w)) ∧
  (is_directory repoPath (mach w) = Ok true →
   ∃ groups w',
     Full.resolveConflicts repoPath cs w = (Ok (concat groups), w') ∧
     Forall2 (fun c g => 1 ≤ length g ≤ 2 ∧ Forall (fun r => rfile r = file c) g)
             cs groups).
Proof.
  unfold Full.resolveConflicts. split; intros Hdir.
  - unfold bind. by rewrite simpleGit_throws.
  - unfold bind at 1. rewrite simpleGit_ok by done.
    unfold resolveConflicts, bind, dashLog, ret.
    destruct (resolveLoop_groups repoPath cs [] w) as (groups & w' & Heq & Hall).
    exists groups, w'. by rewrite Heq.
Qed.

Section Along.

Context (R : World G → World G → Prop) `{!PreOrder R}.
Context (allowed : GitCmd → bool).
Hypothesis R_git : ∀ repoPath c, allowed c = true → respects R (git repoPath c).
Hypothesis R_copy : ∀ src dst, respects R (copyFile src dst).
Hypothesis allowed_puller : ∀ c, puller_cmd c = true → allowed c = true.

Lemma respects_Full_pullRepoSafe (repoPath : string) :
  respects R (Full.pullRepoSafe repoPath).
Proof.
  unfold Full.pullRepoSafe, Full.detectConflicts, Full.resolveConflicts.
  repeat first
    [ apply respects_simpleGit; exact _
    | apply (respects_detectConflicts R allowed); assumption
    | apply (respects_resolveConflicts R allowed); assumption
    | apply R_git; apply allowed_puller; reflexivity
    | apply respects_dashLog; exact _
    | apply respects_as_status; exact _
    | apply respects_as_pull; exact _
    | resp_step ].
Qed.

End Along.

(** [pullRepoSafe] throws when [repoPath] is no directory, and then it
    has issued nothing.  Otherwise it does not throw.  Whatever path it
    takes, it issues nothing but status, fetch, diff, stash, pull and add
    commands and file copies: it never commits, pushes or clones and
    never calls the GitHub API. *)
Theorem pullRepoSafe_only_puller_events (repoPath : string) (w : World G) :
  (is_directory repoPath (mach w) ≠ Ok true →
   Full.pullRepoSafe repoPath w = (Throw Full.no_directory, w)) ∧
  (is_directory repoPath (mach w) = Ok true →
   ∃ o, (Full.pullRepoSafe repoPath w).1 = Ok o) ∧
  ∃ evs,
    trace (Full.pullRepoSafe repoPath w).2 = (evs ++ trace w)%list ∧
    forallb puller_event evs = true ∧
    count (git_call is_commit) evs = 0 ∧
    count (git_call is_push) evs = 0 ∧
    count (git_call is_clone) evs = 0 ∧
    count api_call evs = 0.
Proof.
  split; [|split].
  - intros Hdir. unfold Full.pullRepoSafe, bind. by rewrite simpleGit_throws.
  - intros Hdir. unfold Full.pullRepoSafe. unfold bind at 1.
    rewrite simpleGit_ok by done. unfold try_catch.
    match goal with |- context [match ?b w with _ => _ end] =>
      destruct (b w) as [[o|e] w'] end.
    + by exists o.
    + unfold bind, dashLog, ret. by eexists.
  - destruct (respects_Full_pullRepoSafe (adds_only puller_event) puller_cmd
                (fun rp c Hc => adds_only_git puller_event rp c (fun _ => Hc))
                (fun s d => adds_only_copy puller_event s d (fun _ => eq_refl))
                (fun _ Hc => Hc) repoPath w) as (evs & Htrace & Hall).
    exists evs. split; [exact Htrace|]. split; [exact Hall|].
    clear Htrace. induction evs as [|e evs IH]; [done|].
    simpl in Hall. apply andb_true_iff in Hall as [He Hall].
    destruct (IH Hall) as (H1 & H2 & H3 & H4). simpl. rewrite H1, H2, H3, H4.
    destruct e as [rp c ok| | |]; simpl in *; try done. by destruct c.
Qed.





End Factory.

Lemma resolveConflicts_entries_witness :
  Full.resolveConflicts "gone" [Ex.conflict_a; Ex.conflict_b]
    (mkWorld Ex.both_changed_machine [])
  = (Throw Full.no_directory, mkWorld Ex.both_changed_machine []) ∧
  ∃ groups w',
    Full.resolveConflicts "repo" [Ex.conflict_a; Ex.conflict_b]
      (mkWorld Ex.both_changed_machine [])
    = (Ok (concat groups), w') ∧
    Forall2 (fun c g => (1 ≤ length g ≤ 2)%nat ∧ Forall (fun r => rfile r = file c) g)
            [Ex.conflict_a; Ex.conflict_b] groups.
Proof.
  split.
  - apply (proj1 (resolveConflicts_entries "gone" [Ex.conflict_a; Ex.conflict_b]
                    (mkWorld Ex.both_changed_machine []))).
    vm_compute. discriminate.
  - apply (proj2 (resolveConflicts_entries "repo" [Ex.conflict_a; Ex.conflict_b]
                    (mkWorld Ex.both_changed_machine []))).
    vm_compute. reflexivity.
Defined.

Lemma pullRepoSafe_only_puller_events_witness :
  Full.pullRepoSafe "gone" (mkWorld Ex.both_changed_machine [])
  = (Throw Full.no_directory, mkWorld Ex.both_changed_machine []) ∧
  ∃ o, (Full.pullRepoSafe "repo" (mkWorld Ex.both_changed_machine [])).1 = Ok o.
Proof.
  split.
  - apply (proj1 (pullRepoSafe_only_puller_events "gone"
                    (mkWorld Ex.both_changed_machine []))).
    vm_compute. discriminate.
  - apply (proj1 (proj2 (pullRepoSafe_only_puller_events "repo"
                           (mkWorld Ex.both_changed_machine [])))).
    vm_compute. reflexivity.
Defined.

